(** * svgInliner: embedded CSS to inline styles

    A shallow embedding of the conversion core of [main.js]
    (class [SVGConverter]): the declaration parser, the rule parser, the
    style merger, the two matching passes over the document tree, the
    entry point [convertSVG] and the pretty printer [formatXML].

    JavaScript strings are sequences of UTF-16 code units; they are
    modelled as lists of [N].  JavaScript objects used as property maps
    are modelled as association lists kept in the order in which
    [Object.entries] enumerates them. *)

From Stdlib Require Import List NArith ZArith Arith Lia Bool String Ascii.
From Stdlib Require Import DecimalPos DecimalZ DecimalString.
Import ListNotations.

Set Implicit Arguments.

(** ** Strings *)

Module JsString.

Definition str := list N.

(** An ASCII literal as a JavaScript string. *)
Definition lit (s : string) : str := map N_of_ascii (list_ascii_of_string s).

Fixpoint eqb (a b : str) : bool :=
  match a, b with
  | [], [] => true
  | x :: a', y :: b' => N.eqb x y && eqb a' b'
  | _, _ => false
  end.

(** Truthiness of a string: only the empty string is falsy. *)
Definition truthy (s : str) : bool :=
  match s with [] => false | _ :: _ => true end.

(** The code units removed by [String.prototype.trim]: the WhiteSpace and
    LineTerminator productions of ECMAScript. *)
Definition isWhiteSpace (c : N) : bool :=
  ((9 <=? c) && (c <=? 13) || (c =? 32) || (c =? 160) || (c =? 5760)
   || (8192 <=? c) && (c <=? 8202) || (c =? 8232) || (c =? 8233)
   || (c =? 8239) || (c =? 8287) || (c =? 12288) || (c =? 65279))%N.

Fixpoint trimStart (s : str) : str :=
  match s with
  | c :: s' => if isWhiteSpace c then trimStart s' else s
  | [] => []
  end.

Definition trimEnd (s : str) : str := rev (trimStart (rev s)).

Definition trim (s : str) : str := trimEnd (trimStart s).

(** [s.indexOf(c)] for a one-character needle; [None] stands for -1. *)
Fixpoint indexOf (c : N) (s : str) : option nat :=
  match s with
  | [] => None
  | x :: s' => if N.eqb x c then Some 0
               else match indexOf c s' with
                    | Some i => Some (S i)
                    | None => None
                    end
  end.

(** [s.substring(a, b)] for [a <= b]; [s.substring(a)] is [skipn a s]. *)
Definition substring (a b : nat) (s : str) : str := firstn (b - a) (skipn a s).

(** [s.split(sep)] for a one-character separator: the empty string splits
    into one empty fragment. *)
Fixpoint split (sep : N) (s : str) : list str :=
  match s with
  | [] => [[]]
  | c :: s' =>
      if N.eqb c sep then [] :: split sep s'
      else match split sep s' with
           | f :: fs => (c :: f) :: fs
           | [] => [[c]]
           end
  end.

(** [parts.join(sep)]. *)
Fixpoint join (sep : str) (parts : list str) : str :=
  match parts with
  | [] => []
  | [p] => p
  | p :: ps => p ++ sep ++ join sep ps
  end.

End JsString.

Import JsString.

(** ** Property maps

    [const styles = {}] is an ordinary object.  Its own string-valued
    properties are listed the way [Object.entries] and object spread see
    them: array-index keys first, in ascending numeric order, then every
    other key in the order of its creation. *)

Module JsObject.

Definition t := list (str * str).

(** [{}]. *)
Definition empty : t := [].

(** [Object.keys(o)]. *)
Definition keys (o : t) : list str := map fst o.

Definition isDigit (c : N) : bool := ((48 <=? c) && (c <=? 57))%N.

Fixpoint digitsValue (acc : N) (s : str) : N :=
  match s with
  | [] => acc
  | c :: s' => digitsValue (acc * 10 + (c - 48))%N s'
  end.

(** A key is an array index when it is the canonical decimal form of an
    integer in [0, 2^32 - 2]. *)
Definition arrayIndex (k : str) : option N :=
  match k with
  | [] => None
  | c :: rest =>
      if forallb isDigit k
         && (negb (N.eqb c 48) || negb (truthy rest))
         && (digitsValue 0 k <? 4294967295)%N
      then Some (digitsValue 0 k) else None
  end.

(** Is a property created now under key [k] enumerated before the existing
    key [k']? *)
Definition comesBefore (k k' : str) : bool :=
  match arrayIndex k, arrayIndex k' with
  | Some i, Some j => (i <? j)%N
  | Some _, None => true
  | None, _ => false
  end.

Definition hasOwn (k : str) (o : t) : bool :=
  existsb (fun e => eqb (fst e) k) o.

Fixpoint get (k : str) (o : t) : option str :=
  match o with
  | [] => None
  | (k', v) :: o' => if eqb k' k then Some v else get k o'
  end.

Fixpoint replaceValue (k v : str) (o : t) : t :=
  match o with
  | [] => []
  | (k', v') :: o' =>
      if eqb k' k then (k', v) :: o' else (k', v') :: replaceValue k v o'
  end.

Fixpoint insertKey (k v : str) (o : t) : t :=
  match o with
  | [] => [(k, v)]
  | (k', v') :: o' =>
      if comesBefore k k' then (k, v) :: (k', v') :: o'
      else (k', v') :: insertKey k v o'
  end.

(** CreateDataProperty: an existing key keeps its place and takes the new
    value, a new key is created. *)
Definition defineOwn (k v : str) (o : t) : t :=
  if hasOwn k o then replaceValue k v o else insertKey k v o.

Definition protoKey : str := lit "__proto__".

(** [o[k] = v] on an object whose prototype is [Object.prototype]: the key
    [__proto__] reaches the inherited setter, which ignores a string value
    and creates nothing; every other key is created or overwritten. *)
Definition assign (k v : str) (o : t) : t :=
  if eqb k protoKey then o else defineOwn k v o.

(** [{ ...a, ...b }]: own properties of [a], then of [b], are copied with
    CreateDataProperty into a fresh object. *)
Definition spread (a b : t) : t :=
  fold_left (fun o e => defineOwn (fst e) (snd e) o) b
    (fold_left (fun o e => defineOwn (fst e) (snd e) o) a empty).

End JsObject.

(** ** The declaration parser *)

Definition colon : N := 58.
Definition semicolon : N := 59.

(** One iteration of the [forEach] body shared by [parseStyleDeclarations]
    and [parseInlineStyle]. *)
Definition declarationStep (styles : JsObject.t) (declaration : str) : JsObject.t :=
  match indexOf colon declaration with
  | Some colonIndex =>
      if 0 <? colonIndex then
        let property := trim (substring 0 colonIndex declaration) in
        let value := trim (skipn (colonIndex + 1) declaration) in
        if truthy property && truthy value
        then JsObject.assign property value styles
        else styles
      else styles
  | None => styles
  end.

Definition parseStyleDeclarations (declarations : str) : JsObject.t :=
  let declarationsArray := split semicolon declarations in
  fold_left declarationStep declarationsArray [].

Definition parseInlineStyle (styleString : str) : JsObject.t :=
  if negb (truthy styleString) then []
  else
    let declarations := split semicolon styleString in
    fold_left declarationStep declarations [].

(** ** The rule parser *)

Record rule := mkRule { selector : str; styles : JsObject.t }.

Definition openBrace : N := 123.
Definition closeBrace : N := 125.

Definition notBrace (c : N) : bool :=
  negb (N.eqb c openBrace) && negb (N.eqb c closeBrace).

(** The longest prefix whose code units satisfy [p], and what follows it. *)
Fixpoint span (p : N -> bool) (s : str) : str * str :=
  match s with
  | c :: s' => if p c then let (a, b) := span p s' in (c :: a, b) else ([], s)
  | [] => ([], [])
  end.

(** A match of [ruleRegex] starting at the head of [s]: a non-empty run of
    non-brace characters, an opening brace, a run of non-brace characters
    and a closing brace.  The result holds the two captured groups (the
    runs) and the length of the match.  Both groups are
    greedy and each is followed by a character outside its class, so the
    longest run is the only candidate. *)
Definition ruleMatch (s : str) : option (str * str * nat) :=
  let (g1, r) := span notBrace s in
  match g1, r with
  | _ :: _, c :: r' =>
      if N.eqb c openBrace then
        let (g2, r'') := span notBrace r' in
        match r'' with
        | d :: _ =>
            if N.eqb d closeBrace
            then Some (g1, g2, List.length g1 + List.length g2 + 2)
            else None
        | [] => None
        end
      else None
  | _, _ => None
  end.

(** The [while ((match = ruleRegex.exec(cssText)) !== null)] loop of a
    global regular expression: the leftmost match at or after [lastIndex]
    is taken and [lastIndex] moves to its end.  [skip] counts the code
    units still in front of [lastIndex]. *)
Fixpoint execAll (skip : nat) (s : str) : list (str * str) :=
  match s with
  | [] => []
  | _ :: s' =>
      match skip with
      | S k => execAll k s'
      | O =>
          match ruleMatch s with
          | Some (g1, g2, len) => (g1, g2) :: execAll (len - 1) s'
          | None => execAll 0 s'
          end
      end
  end.

Definition ruleOfMatch (m : str * str) : list rule :=
  let selector := trim (fst m) in
  let declarations := trim (snd m) in
  if truthy selector && truthy declarations
  then [mkRule selector (parseStyleDeclarations declarations)]
  else [].

Definition parseCSS (cssText : str) : list rule :=
  flat_map ruleOfMatch (execAll 0 cssText).

(** ** The document tree

    Every element carries an identity [nodeId]: a JavaScript reference to
    the element, which stays the same while its attributes change and
    while other nodes are detached. *)

Module Dom.

#[local] Set Warnings "-register-all".

Definition attrs := list (str * str).

Inductive node :=
| Element (nodeId : nat) (localName : str) (attributes : attrs)
          (childNodes : list node)
| Text (data : str)
| Comment (data : str).

Definition isElement (n : node) : bool :=
  match n with Element _ _ _ _ => true | _ => false end.

Definition idOf (n : node) : nat :=
  match n with Element i _ _ _ => i | _ => 0 end.

Definition hasId (i : nat) (n : node) : bool :=
  match n with Element j _ _ _ => Nat.eqb j i | _ => false end.

Definition nameOf (n : node) : str :=
  match n with Element _ t _ _ => t | _ => [] end.

Definition attributesOf (n : node) : attrs :=
  match n with Element _ _ a _ => a | _ => [] end.

(** [element.getAttribute(name)]; [None] stands for null. *)
Fixpoint getAttribute (name : str) (a : attrs) : option str :=
  match a with
  | [] => None
  | (k, v) :: a' => if eqb k name then Some v else getAttribute name a'
  end.

(** [element.setAttribute(name, value)]: an attribute that exists keeps
    its place, a new one goes last. *)
Fixpoint setAttribute (name value : str) (a : attrs) : attrs :=
  match a with
  | [] => [(name, value)]
  | (k, v) :: a' =>
      if eqb k name then (k, value) :: a'
      else (k, v) :: setAttribute name value a'
  end.

(** [element.removeAttribute(name)]. *)
Definition removeAttribute (name : str) (a : attrs) : attrs :=
  filter (fun e => negb (eqb (fst e) name)) a.

(** [node.textContent]: the text of all text descendants, comments left
    out. *)
Fixpoint textContent (n : node) : str :=
  match n with
  | Element _ _ _ kids => flat_map textContent kids
  | Text d => d
  | Comment _ => []
  end.

(** The element descendants of a node in document order, the node itself
    excluded: what [querySelectorAll] ranges over. *)
Fixpoint descendants (n : node) : list node :=
  match n with
  | Element _ _ _ kids =>
      flat_map (fun k => if isElement k then k :: descendants k else []) kids
  | _ => []
  end.

(** The node itself, when it is an element, and its element descendants:
    what [document.querySelector] ranges over from the root. *)
Definition elements (n : node) : list node :=
  if isElement n then n :: descendants n else [].

(** [root.querySelectorAll(name)] for a type selector, in an XML
    document (names compared exactly). *)
Definition byName (name : str) (root : node) : list node :=
  filter (fun e => eqb (nameOf e) name) (descendants root).

(** [root.querySelectorAll('[' + name + ']')]. *)
Definition byAttribute (name : str) (root : node) : list node :=
  filter (fun e => match getAttribute name (attributesOf e) with
                   | Some _ => true
                   | None => false
                   end) (descendants root).

(** The element with identity [i] in the tree, if it is there. *)
Definition find (i : nat) (root : node) : option node :=
  List.find (hasId i) (elements root).

(** Change the attributes of the element with identity [i]. *)
Fixpoint updateAttributes (i : nat) (f : attrs -> attrs) (n : node) : node :=
  match n with
  | Element j t a kids =>
      Element j t (if Nat.eqb j i then f a else a)
              (map (updateAttributes i f) kids)
  | _ => n
  end.

(** [parent.removeChild(child)] for the element with identity [i],
    wherever its parent is below [n]. *)
Fixpoint removeChild (i : nat) (n : node) : node :=
  match n with
  | Element j t a kids =>
      Element j t a (filter (fun k => negb (hasId i k)) (map (removeChild i) kids))
  | _ => n
  end.

End Dom.

Import Dom.

(** ** The inline style merger *)

Definition styleAttr : str := lit "style".
Definition classAttr : str := lit "class".

(** [a || b] on a string that may be null. *)
Definition orElse (a : option str) (b : str) : str :=
  match a with
  | Some s => if truthy s then s else b
  | None => b
  end.

Definition renderDeclaration (e : str * str) : str :=
  fst e ++ [colon] ++ snd e.

(** [Object.entries(o).map(...).join(';')]. *)
Definition styleStringOf (o : JsObject.t) : str :=
  join [semicolon] (map renderDeclaration o).

(** The body of [applyStylesToElement], on the attributes of the element. *)
Definition applyStyles (newStyles : JsObject.t) (a : attrs) : attrs :=
  let existingStyle := orElse (getAttribute styleAttr a) [] in
  let existingStyles := parseInlineStyle existingStyle in
  let mergedStyles := JsObject.spread existingStyles newStyles in
  let styleString := styleStringOf mergedStyles in
  setAttribute styleAttr styleString a.

Definition applyStylesToElement (element : nat) (newStyles : JsObject.t)
  (root : node) : node :=
  updateAttributes element (applyStyles newStyles) root.

(** The identities of the elements of a tree, in document order. *)
Definition ids (root : node) : list nat := map idOf (elements root).

(** The attributes of the element with identity [i], when it is in the
    tree. *)
Definition attributesAt (i : nat) (root : node) : option attrs :=
  option_map attributesOf (find i root).

(** [element.getAttribute('class')] for the element with identity [i]. *)
Definition classAt (i : nat) (root : node) : option str :=
  match attributesAt i root with
  | Some a => getAttribute classAttr a
  | None => None
  end.

(** ** The pretty printer *)

Definition lessThan : N := 60.
Definition greaterThan : N := 62.
Definition slash : N := 47.
Definition space : N := 32.
Definition newline : N := 10.

Definition isAlnum (c : N) : bool :=
  ((48 <=? c) && (c <=? 57) || (65 <=? c) && (c <=? 90)
   || (97 <=? c) && (c <=? 122))%N.

Definition notGreaterThan (c : N) : bool := negb (N.eqb c greaterThan).

(** [s.replace(re, ...)] with a global regular expression: scanning from
    the left, the leftmost match is replaced and scanning resumes at its
    end.  [m] tells whether [re] matches at the head of the text, and gives
    the replacement and the length of the match; [skip] counts the code
    units of the last match still to be passed. *)
Fixpoint replaceAll (m : str -> option (str * nat)) (skip : nat) (s : str) : str :=
  match s with
  | [] => []
  | c :: s' =>
      match skip with
      | S k => replaceAll m k s'
      | O =>
          match m s with
          | Some (replacement, len) => replacement ++ replaceAll m (len - 1) s'
          | None => c :: replaceAll m 0 s'
          end
      end
  end.

(** A closing tag at the head of [s]: less-than, slash, one or more
    alphanumerics, greater-than.  The tag and what follows it. *)
Definition closingTag (s : str) : option (str * str) :=
  match s with
  | a :: b :: r =>
      if N.eqb a lessThan && N.eqb b slash then
        let (name, r') := span isAlnum r in
        match name, r' with
        | _ :: _, c :: r'' =>
            if N.eqb c greaterThan then Some (a :: b :: name ++ [c], r'') else None
        | _, _ => None
        end
      else None
  | _ => None
  end.

(** An opening tag at the head of [s]: less-than, one alphanumeric, any
    run without greater-than, greater-than. *)
Definition openingTag (s : str) : option (str * str) :=
  match s with
  | a :: b :: r =>
      if N.eqb a lessThan && isAlnum b then
        let (body, r') := span notGreaterThan r in
        match r' with
        | c :: r'' => Some (a :: b :: body ++ [c], r'')
        | [] => None
        end
      else None
  | _ => None
  end.

(** First replacement: a greater-than directly followed by a less-than
    gets a newline in between. *)
Definition matchBoundary (s : str) : option (str * nat) :=
  match s with
  | a :: b :: _ =>
      if N.eqb a greaterThan && N.eqb b lessThan
      then Some ([greaterThan; newline; lessThan], 2) else None
  | _ => None
  end.

(** Second replacement: two adjacent closing tags, [$1\n$2]. *)
Definition matchClosingPair (s : str) : option (str * nat) :=
  match closingTag s with
  | Some (t1, r) =>
      match closingTag r with
      | Some (t2, _) =>
          Some (t1 ++ [newline] ++ t2, List.length t1 + List.length t2)
      | None => None
      end
  | None => None
  end.

(** Third replacement: two adjacent opening tags, [$1\n  $2]. *)
Definition matchOpeningPair (s : str) : option (str * nat) :=
  match openingTag s with
  | Some (t1, r) =>
      match openingTag r with
      | Some (t2, _) =>
          Some (t1 ++ [newline; space; space] ++ t2,
                List.length t1 + List.length t2)
      | None => None
      end
  | None => None
  end.

(** Fourth replacement: two spaces in front of a closing tag are dropped. *)
Definition matchIndentedClosing (s : str) : option (str * nat) :=
  match s with
  | a :: b :: r =>
      if N.eqb a space && N.eqb b space then
        match closingTag r with
        | Some (t, _) => Some (t, 2 + List.length t)
        | None => None
        end
      else None
  | _ => None
  end.

Definition formatXML (xmlString : str) : str :=
  replaceAll matchIndentedClosing 0
    (replaceAll matchOpeningPair 0
       (replaceAll matchClosingPair 0
          (replaceAll matchBoundary 0 xmlString))).

(** ** The size change shown after a conversion *)

(** A number in a template literal: an integer is written in decimal
    digits, with a minus sign when it is negative. *)
Definition showInteger (z : Z) : str := lit (NilZero.string_of_int (Z.to_int z)).

(** The text [updateConversionStats] writes: the difference of the two
    lengths, with a plus sign when it is positive, followed by the
    unit. *)
Definition sizeChangeLabel (inputSize outputSize : nat) : str :=
  let sizeChange := (Z.of_nat outputSize - Z.of_nat inputSize)%Z in
  let sizeChangeText :=
    if (0 <? sizeChange)%Z then lit "+" ++ showInteger sizeChange
    else showInteger sizeChange in
  sizeChangeText ++ lit " bytes".

(** The output editor keeps its content as lines: [setValue] breaks
    the text at every line break, a carriage return with or without a
    line feed behind it or a line feed alone, and [getValue] joins the
    lines with a line feed.  [editorContent text] is what [getValue]
    returns once [setValue(text)] was called. *)
Definition carriageReturn : N := 13.

Fixpoint editorContent (text : str) : str :=
  match text with
  | [] => []
  | c :: rest =>
      if N.eqb c carriageReturn then
        newline :: match rest with
                   | d :: rest' =>
                       if N.eqb d newline then editorContent rest'
                       else editorContent rest
                   | [] => []
                   end
      else c :: editorContent rest
  end.

(** ** The conversion *)

Inductive error :=
| InvalidSVGFormat
| NoSVGElementFound
| SelectorSyntaxError (selector : str).

(** The tree being rewritten together with the counters and the rule
    list: the state of [convertEmbeddedCSSToInline] and, at its end, its
    result. *)
Record conversion := mkConversion {
  svg : node;
  convertedStyles : nat;
  processedElements : nat;
  cssRules : list rule
}.

(** What a successful call of [convertSVG] leaves on the page besides
    the counters of the result: the text given to the output editor and
    the size change written by [updateConversionStats]. *)
Record display := mkDisplay { outputValue : str; sizeChange : str }.

Inductive outcome :=
| Ready
| Converted (output : display) (result : conversion)
| Failed (e : error).

Definition doubleQuote : N := 34.

(** [rule.selector === `.${className}` ||
     rule.selector === `*[class~=...]`] with [className] between double
    quotes. *)
Definition classSelectorMatches (r : rule) (className : str) : bool :=
  eqb (selector r) (lit "." ++ className)
  || eqb (selector r)
       (lit "*[class~=" ++ [doubleQuote] ++ className ++ [doubleQuote] ++ lit "]").

(** [applyStylesToElement(element, rule.styles); processedElements++]. *)
Definition mergeInto (r : rule) (c : conversion) (element : nat) : conversion :=
  mkConversion (applyStylesToElement element (styles r) (svg c))
    (convertedStyles c) (S (processedElements c)) (cssRules c).

Definition countRule (c : conversion) : conversion :=
  mkConversion (svg c) (S (convertedStyles c)) (processedElements c) (cssRules c).

Definition withSvg (root : node) (c : conversion) : conversion :=
  mkConversion root (convertedStyles c) (processedElements c) (cssRules c).

Section Converter.

(** What the browser provides: the XML parser (its result is the
    document element), the selector engine for arbitrary selector text
    ([None] when it throws a syntax error, otherwise the identities of the
    matching descendants in document order) and the serializer. *)
Variable parseFromString : str -> node.
Variable querySelectorAll : str -> node -> option (list nat).
Variable innerHTML : node -> str.
Variable serializeToString : node -> str.

(** [styleEl.textContent || styleEl.innerHTML]. *)
Definition cssTextOf (styleEl : node) : str :=
  let t := textContent styleEl in
  if truthy t then t else innerHTML styleEl.

(** One iteration of the extraction loop.  [styleEl] is the element as the
    static node list holds it; its content is still what it was when the
    list was built, since only style elements before it in document order
    have been detached, and none of those lies below it. *)
Definition extractStep (acc : node * list rule) (styleEl : node) : node * list rule :=
  let rules := parseCSS (cssTextOf styleEl) in
  (removeChild (idOf styleEl) (fst acc), snd acc ++ rules).

Definition extractRules (root : node) : node * list rule :=
  fold_left extractStep (byName (lit "style") root) (root, []).

(** The structural pass: [cssRules.forEach(rule => ...)]. *)
Fixpoint applyRules (rules : list rule) (c : conversion) : error + conversion :=
  match rules with
  | [] => inr c
  | r :: rest =>
      match querySelectorAll (selector r) (svg c) with
      | None => inl (SelectorSyntaxError (selector r))
      | Some elements =>
          applyRules rest (countRule (fold_left (mergeInto r) elements c))
      end
  end.

(** One iteration of the class pass, for the element with identity
    [element] of the static list [elementsWithClass]. *)
Definition classStep (c : conversion) (element : nat) : conversion :=
  match classAt element (svg c) with
  | Some className =>
      if truthy className then
        let c' :=
          fold_left
            (fun c r => if classSelectorMatches r className
                        then mergeInto r c element else c)
            (cssRules c) c in
        withSvg (updateAttributes element (removeAttribute classAttr) (svg c')) c'
      else c
  | None => c
  end.

Definition convertEmbeddedCSSToInline (root : node) : error + conversion :=
  let (root1, rules) := extractRules root in
  match applyRules rules (mkConversion root1 0 0 rules) with
  | inl e => inl e
  | inr c =>
      let elementsWithClass := map idOf (byAttribute classAttr (svg c)) in
      inr (fold_left classStep elementsWithClass c)
  end.

Definition querySelector (name : str) (doc : node) : option node :=
  List.find (fun e => eqb (nameOf e) name) (elements doc).

(** [convertSVG]: [editorValue] is what the input editor returns.  A
    conversion that succeeds gives the formatted text to the output
    editor and calls [updateConversionStats], which reads the input
    editor again, untrimmed, and the output editor. *)
Definition convertSVG (editorValue : str) : outcome :=
  let svgContent := trim editorValue in
  if negb (truthy svgContent) then Ready
  else
    let doc := parseFromString svgContent in
    match querySelector (lit "parsererror") doc with
    | Some _ => Failed InvalidSVGFormat
    | None =>
        match querySelector (lit "svg") doc with
        | None => Failed NoSVGElementFound
        | Some root =>
            match convertEmbeddedCSSToInline root with
            | inl e => Failed e
            | inr result =>
                let convertedSVG := serializeToString (svg result) in
                let formatted := formatXML convertedSVG in
                let inputSize := List.length editorValue in
                let outputSize := List.length (editorContent formatted) in
                Converted
                  (mkDisplay formatted (sizeChangeLabel inputSize outputSize))
                  result
            end
        end
    end.

End Converter.

(** ** A sample selector engine

    A small engine in the shape of the browser's, used to run the
    conversion on concrete documents: [.name] selects the descendants
    whose class list holds [name], a bare name selects by element name,
    and any other selector text is rejected as a syntax error. *)

Module Sample.

Definition isNameChar (c : N) : bool :=
  isAlnum c || N.eqb c 45 || N.eqb c 95.

Definition hasClassToken (name : str) (e : node) : bool :=
  match getAttribute classAttr (attributesOf e) with
  | Some v => existsb (eqb name) (split space v)
  | None => false
  end.

Definition querySelectorAll (sel : str) (root : node) : option (list nat) :=
  match sel with
  | c :: name =>
      if N.eqb c 46 && truthy name && forallb isNameChar name
      then Some (map idOf (filter (hasClassToken name) (descendants root)))
      else if forallb isNameChar sel
      then Some (map idOf (byName sel root))
      else None
  | [] => None
  end.

(** The sample documents keep their style sheets in text nodes and their
    serialized form is not looked at, so the serializer may return
    anything. *)
Definition innerHTML (n : node) : str := [].

Definition serializeToString (n : node) : str := [].

Definition convert (root : node) : error + conversion :=
  convertEmbeddedCSSToInline querySelectorAll innerHTML root.

(** [<svg><style>.c{fill:red;}</style><rect class="c"/></svg>] *)
Definition styledRect : node :=
  Element 0 (lit "svg") []
    [Element 1 (lit "style") [] [Text (lit ".c{fill:red;}")];
     Element 2 (lit "rect") [(classAttr, lit "c")] []].

(** The [rect] of [styledRect] before and after the conversion. *)
Definition rectBefore : node :=
  Element 2 (lit "rect") [(classAttr, lit "c")] [].

Definition rectAfter : node :=
  Element 2 (lit "rect") [(styleAttr, lit "fill:red")] [].

Definition styledRectResult : conversion :=
  mkConversion (Element 0 (lit "svg") [] [rectAfter]) 1 2
    [mkRule (lit ".c") [(lit "fill", lit "red")]].

(** [<svg class="a"><rect class=""/><circle class="c"/></svg>] *)
Definition emptyClass : node :=
  Element 0 (lit "svg") [(classAttr, lit "a")]
    [Element 1 (lit "rect") [(classAttr, [])] [];
     Element 2 (lit "circle") [(classAttr, lit "c")] []].

(** [<g><svg/></g>] *)
Definition nestedSvg : node :=
  Element 0 (lit "g") [] [Element 1 (lit "svg") [] []].

(** [<svg><style>@font-face{font-family:x}</style></svg>] *)
Definition fontFace : node :=
  Element 0 (lit "svg") []
    [Element 1 (lit "style") [] [Text (lit "@font-face{font-family:x}")]].

End Sample.

(** ** Specification vocabulary *)

(** The fragment [frag] declares property [p] with value [v]: it has a
    colon, the text before the first colon is not empty, and that text and
    the text after it, trimmed, are the non-empty [p] and [v]. *)
Definition Declares (frag p v : str) : Prop :=
  exists a b, frag = a ++ colon :: b /\ ~ In colon a /\ a <> [] /\
              p = trim a /\ v = trim b /\ p <> [] /\ v <> [].

(** The declaration a fragment stands for, computed. *)
Definition declarationOf (frag : str) : option (str * str) :=
  match indexOf colon frag with
  | Some i =>
      if (0 <? i) && truthy (trim (firstn i frag))
         && truthy (trim (skipn (S i) frag))
      then Some (trim (firstn i frag), trim (skipn (S i) frag))
      else None
  | None => None
  end.

(** Among the fragments [frags], in order, the last one that declares
    property [p] gives it the value [v]. *)
Definition LastDeclared (frags : list str) (p v : str) : Prop :=
  exists l1 f l2, frags = l1 ++ f :: l2 /\ Declares f p v /\
                  forall f' v', In f' l2 -> ~ Declares f' p v'.

(** The inline style of an element, read back from its attributes the
    way [applyStylesToElement] reads it. *)
Definition inlineStyles (a : attrs) : JsObject.t :=
  parseInlineStyle (orElse (getAttribute styleAttr a) []).

(** The merged map as the specification describes it: the existing
    entries in their order, each with the incoming value when the incoming
    map has one, then the incoming entries whose property is new, in the
    order of the incoming map. *)
Definition mergedEntries (existing incoming : JsObject.t) : JsObject.t :=
  map (fun e => (fst e, match JsObject.get (fst e) incoming with
                        | Some v => v
                        | None => snd e
                        end)) existing
  ++ filter (fun e => negb (JsObject.hasOwn (fst e) existing)) incoming.

(** An entry as the declaration parser produces them: property and value
    are trimmed and not empty, neither holds a semicolon, the property
    holds no colon and is not [__proto__]. *)
Definition ParsedEntry (e : str * str) : Prop :=
  fst e <> [] /\ trim (fst e) = fst e /\ ~ In colon (fst e) /\
  ~ In semicolon (fst e) /\ fst e <> JsObject.protoKey /\
  snd e <> [] /\ trim (snd e) = snd e /\ ~ In semicolon (snd e).

Definition defineEntry (o : JsObject.t) (e : str * str) : JsObject.t :=
  JsObject.defineOwn (fst e) (snd e) o.

(** Induction on trees, with the induction hypothesis for every child. *)
Section NodeInduction.

Variable P : node -> Prop.
Hypothesis HElement :
  forall i t a kids, Forall P kids -> P (Element i t a kids).
Hypothesis HText : forall d, P (Text d).
Hypothesis HComment : forall d, P (Comment d).

Fixpoint node_induction (n : node) : P n :=
  match n with
  | Element i t a kids =>
      HElement i t a
        ((fix all (l : list node) : Forall P l :=
            match l with
            | [] => Forall_nil P
            | k :: l' => Forall_cons k (node_induction k) (all l')
            end) kids)
  | Text d => HText d
  | Comment d => HComment d
  end.

End NodeInduction.

(** The tree after one style element was detached. *)
Definition detach (tree : node) (styleEl : node) : node :=
  removeChild (idOf styleEl) tree.

(** The text of a rule block with selector text [fst b] and declaration
    text [snd b]. *)
Definition blockText (b : str * str) : str :=
  fst b ++ [openBrace] ++ snd b ++ [closeBrace].

(** A well-formed block: no brace inside the selector or the declarations,
    and neither is blank. *)
Definition WellFormedBlock (b : str * str) : Prop :=
  forallb notBrace (fst b) = true /\ forallb notBrace (snd b) = true /\
  trim (fst b) <> [] /\ trim (snd b) <> [].

Definition ruleOfBlock (b : str * str) : rule :=
  mkRule (trim (fst b)) (parseStyleDeclarations (trim (snd b))).

(** ** The merges a conversion performs *)

(** A merge is a rule together with the element it is merged into. *)
Definition merge := (rule * nat)%type.

(** The tree after the merges [ms], performed in order. *)
Definition replay (tree : node) (ms : list merge) : node :=
  fold_left (fun t m => applyStylesToElement (snd m) (styles (fst m)) t) ms tree.

Section Merges.

Variable querySelectorAll : str -> node -> option (list nat).

(** The merges of the structural pass: rule after rule, one merge for each
    element the selector engine returns for the rule's selector on the
    tree as the earlier rules left it. *)
Fixpoint structuralMerges (rules : list rule) (tree : node) : list merge :=
  match rules with
  | [] => []
  | r :: rest =>
      match querySelectorAll (selector r) tree with
      | None => []
      | Some elements =>
          let ms := map (pair r) elements in
          ms ++ structuralMerges rest (replay tree ms)
      end
  end.

End Merges.

(** The merges of the class pass over the elements [els]: for each element
    whose class attribute is a non-empty string, one merge for each rule
    whose selector is that string after a dot, or the attribute selector
    for it. *)
Fixpoint fallbackMerges (rules : list rule) (els : list nat) (tree : node)
  : list merge :=
  match els with
  | [] => []
  | e :: rest =>
      match classAt e tree with
      | Some className =>
          if truthy className then
            let ms :=
              map (fun r => (r, e))
                (filter (fun r => classSelectorMatches r className) rules) in
            ms ++ fallbackMerges rules rest
                    (updateAttributes e (removeAttribute classAttr)
                       (replay tree ms))
          else fallbackMerges rules rest tree
      | None => fallbackMerges rules rest tree
      end
  end.

(** [Sub l l']: the list [l] is [l'] with some members left out. *)
Inductive Sub (A : Type) : list A -> list A -> Prop :=
| Sub_nil : Sub [] []
| Sub_skip (x : A) (l l' : list A) : Sub l l' -> Sub l (x :: l')
| Sub_keep (x : A) (l l' : list A) : Sub l l' -> Sub (x :: l) (x :: l').

Definition truthyOpt (s : option str) : bool :=
  match s with Some v => truthy v | None => false end.

(** The document holds an element with this name, the document element
    included. *)
Definition hasElementNamed (name : str) (doc : node) : Prop :=
  exists e, In e (elements doc) /\ nameOf e = name.

(** The text has a greater-than sign directly followed by a less-than
    sign. *)
Fixpoint hasBoundary (s : str) : bool :=
  match s with
  | a :: s' =>
      match s' with
      | b :: _ => (N.eqb a greaterThan && N.eqb b lessThan) || hasBoundary s'
      | [] => false
      end
  | [] => false
  end.

(** ** Vocabulary for the further properties *)

(** Key [k] is enumerated no later than key [k']: an array index comes
    before a larger index and before every other key. *)
Definition precedes (k k' : str) : Prop :=
  match JsObject.arrayIndex k, JsObject.arrayIndex k' with
  | Some i, Some j => (i <= j)%N
  | Some _, None => True
  | None, Some _ => False
  | None, None => True
  end.

(** A list of keys in the order of [Object.keys]: array indices first, in
    ascending order. *)
Fixpoint EnumerationOrder (ks : list str) : Prop :=
  match ks with
  | [] => True
  | k :: rest => Forall (precedes k) rest /\ EnumerationOrder rest
  end.

(** The attributes other than [style] and [class], in their order. *)
Definition otherAttributes (a : attrs) : attrs :=
  removeAttribute classAttr (removeAttribute styleAttr a).

(** Number of occurrences of a code unit. *)
Definition countOf (c : N) (s : str) : nat :=
  List.length (filter (N.eqb c) s).

(** A code unit other than the space and the newline. *)
Definition notBlank (c : N) : bool := negb (N.eqb c space || N.eqb c newline).

(** The text ends with a closing brace. *)
Fixpoint endsWithClose (s : str) : bool :=
  match s with
  | [] => false
  | c :: s' =>
      match s' with
      | [] => N.eqb c closeBrace
      | _ :: _ => endsWithClose s'
      end
  end.

(** Every element of the tree [after] was an element of the tree
    [before], with the same identity, the same name and the same
    attributes other than [style] and [class]. *)
Definition KeepsElements (before after : node) : Prop :=
  forall e, In e (elements after) ->
  exists e0, In e0 (elements before) /\ idOf e = idOf e0 /\
             nameOf e = nameOf e0 /\
             otherAttributes (attributesOf e) = otherAttributes (attributesOf e0).

(** ** The document statistics *)

(** The three numbers [updateStats] shows. *)
Record stats := mkStats {
  cssRulesCount : nat;
  elementsCount : nat;
  classesCount : nat
}.

Section Stats.

Variable parseFromString : str -> node.
Variable innerHTML : node -> str.

(** The counts for the [svg] element: the matches of the rule pattern in
    the text of every style element, the elements selected by [*] and
    those selected by [[class]]. *)
Definition statsOf (root : node) : stats :=
  mkStats
    (fold_left
       (fun cssRulesCount style =>
          cssRulesCount + List.length (execAll 0 (cssTextOf innerHTML style)))
       (byName (lit "style") root) 0)
    (List.length (descendants root))
    (List.length (byAttribute classAttr root)).

(** [updateStats]: [shown] holds the numbers on display before the call,
    the result those on display after it.  The editor content is parsed
    as it is, untrimmed, and is not checked for a parser error. *)
Definition updateStats (shown : stats) (content : str) : stats :=
  if negb (truthy (trim content)) then mkStats 0 0 0
  else
    match querySelector (lit "svg") (parseFromString content) with
    | Some root => statsOf root
    | None => shown
    end.

End Stats.

(** [<svg><style>.none{fill:red}</style><rect id="r"/></svg>]: the only
    rule selects nothing. *)
Definition unmatchedRule : node :=
  Element 0 (lit "svg") []
    [Element 1 (lit "style") [] [Text (lit ".none{fill:red}")];
     Element 2 (lit "rect") [(lit "id", lit "r")] []].

(** ** Blocks of a style sheet *)








(** * Properties *)

(** ** Strings *)

Lemma eqb_eq (a b : str) : eqb a b = true <-> a = b.
Proof.
  revert b; induction a as [|x a IH]; intros [|y b]; simpl; split;
    try congruence; try reflexivity.
  - intros H. apply andb_true_iff in H as [H1 H2].
    apply N.eqb_eq in H1. apply IH in H2. congruence.
  - intros H. injection H as -> ->. rewrite N.eqb_refl. simpl. now apply IH.
Qed.

Lemma eqb_refl (a : str) : eqb a a = true.
Proof. now apply eqb_eq. Qed.

Lemma eqb_neq (a b : str) : eqb a b = false <-> a <> b.
Proof.
  split.
  - intros H E. apply eqb_eq in E. congruence.
  - intros H. destruct (eqb a b) eqn:E; [|reflexivity].
    apply eqb_eq in E. contradiction.
Qed.

Lemma eqb_sym (a b : str) : eqb a b = eqb b a.
Proof.
  destruct (eqb a b) eqn:E.
  - apply eqb_eq in E. subst. symmetry. apply eqb_refl.
  - symmetry. apply eqb_neq. apply eqb_neq in E. congruence.
Qed.

Lemma truthy_true (s : str) : truthy s = true <-> s <> [].
Proof. destruct s; simpl; split; congruence. Qed.

Lemma truthy_false (s : str) : truthy s = false <-> s = [].
Proof. destruct s; simpl; split; congruence. Qed.

Lemma trimStart_blank (s : str) :
  Forall (fun c => isWhiteSpace c = true) s -> trimStart s = [].
Proof.
  induction 1 as [|c s Hc _ IH]; simpl; [reflexivity|]. now rewrite Hc.
Qed.

Lemma trim_blank (s : str) :
  Forall (fun c => isWhiteSpace c = true) s -> trim s = [].
Proof.
  intros H. unfold trim, trimEnd. now rewrite (trimStart_blank H).
Qed.

(** What [trimStart] returns is a suffix that does not start with
    white space. *)
Lemma trimStart_head (s : str) :
  match trimStart s with
  | c :: _ => isWhiteSpace c = false
  | [] => True
  end.
Proof.
  induction s as [|c s IH]; simpl; [exact I|].
  destruct (isWhiteSpace c) eqn:E; [exact IH | exact E].
Qed.

Lemma trimStart_fixed (s : str) :
  match s with c :: _ => isWhiteSpace c = false | [] => True end ->
  trimStart s = s.
Proof. destruct s as [|c s]; simpl; [reflexivity|]. now intros ->. Qed.

Lemma trimStart_idem (s : str) : trimStart (trimStart s) = trimStart s.
Proof. apply trimStart_fixed, trimStart_head. Qed.

Lemma trimStart_suffix (s : str) : exists w, s = w ++ trimStart s.
Proof.
  induction s as [|c s [w IH]]; simpl.
  - now exists [].
  - destruct (isWhiteSpace c).
    + exists (c :: w). simpl. now f_equal.
    + now exists [].
Qed.

Lemma trimStart_app_keep (s t : str) :
  trimStart s <> [] -> trimStart (s ++ t) = trimStart s ++ t.
Proof.
  induction s as [|c s IH]; simpl; [congruence|].
  destruct (isWhiteSpace c); [exact IH | reflexivity].
Qed.

Lemma trimEnd_prefix (s : str) : exists w, s = trimEnd s ++ w.
Proof.
  unfold trimEnd. destruct (trimStart_suffix (rev s)) as [w Hw].
  exists (rev w). rewrite <- rev_app_distr, <- Hw. now rewrite rev_involutive.
Qed.

(** The first character of a non-empty [trim s] is not white space. *)
Lemma trim_head (s : str) :
  match trim s with c :: _ => isWhiteSpace c = false | [] => True end.
Proof.
  unfold trim. destruct (trimEnd_prefix (trimStart s)) as [w Hw].
  pose proof (trimStart_head s) as H.
  destruct (trimEnd (trimStart s)) as [|c r]; [exact I|].
  rewrite Hw in H. exact H.
Qed.

Lemma trimEnd_idem (s : str) : trimEnd (trimEnd s) = trimEnd s.
Proof.
  unfold trimEnd. rewrite rev_involutive. now rewrite trimStart_idem.
Qed.

Lemma trim_idem (s : str) : trim (trim s) = trim s.
Proof.
  unfold trim at 1. rewrite trimStart_fixed by apply trim_head.
  unfold trim. apply trimEnd_idem.
Qed.

Lemma trimStart_In (c : N) (s : str) : In c (trimStart s) -> In c s.
Proof.
  destruct (trimStart_suffix s) as [w Hw]. intros H. rewrite Hw.
  apply in_or_app. now right.
Qed.

Lemma trim_In (c : N) (s : str) : In c (trim s) -> In c s.
Proof.
  unfold trim, trimEnd. intros H. apply in_rev in H.
  apply trimStart_In in H. apply in_rev in H. now apply trimStart_In.
Qed.

Lemma indexOf_None (c : N) (s : str) : indexOf c s = None <-> ~ In c s.
Proof.
  induction s as [|x s IH]; simpl.
  - tauto.
  - destruct (N.eqb_spec x c) as [->|Hne].
    + split; [discriminate | intros H; exfalso; apply H; now left].
    + destruct (indexOf c s); split; try discriminate; try reflexivity.
      * intros H. exfalso. apply H. right.
        destruct (in_dec N.eq_dec c s) as [Hin|Hn]; [exact Hin|].
        apply IH in Hn. discriminate.
      * intros _ [E|Hin]; [congruence|]. now apply IH in Hin.
Qed.

Lemma indexOf_Some (c : N) (s : str) (i : nat) :
  indexOf c s = Some i ->
  s = firstn i s ++ c :: skipn (S i) s /\ ~ In c (firstn i s).
Proof.
  revert i; induction s as [|x s IH]; simpl; intros i H; [discriminate|].
  destruct (N.eqb_spec x c) as [->|Hne].
  - injection H as <-. simpl. tauto.
  - destruct (indexOf c s) as [j|]; [|discriminate]. injection H as <-.
    destruct (IH j eq_refl) as [E Hn]. split.
    + change (x :: s = x :: (firstn j s ++ c :: skipn (S j) s)).
      f_equal. exact E.
    + simpl. intros [E'|Hin]; [congruence | contradiction].
Qed.

Lemma indexOf_app (c : N) (a b : str) :
  ~ In c a -> indexOf c (a ++ c :: b) = Some (List.length a).
Proof.
  induction a as [|x a IH]; simpl; intros Hn.
  - now rewrite N.eqb_refl.
  - destruct (N.eqb_spec x c) as [->|Hne]; [exfalso; apply Hn; now left|].
    rewrite IH; [reflexivity|]. intros Hin. apply Hn. now right.
Qed.

Lemma firstn_length_app (A : Type) (a b : list A) :
  firstn (List.length a) (a ++ b) = a.
Proof. induction a; simpl; [reflexivity | now f_equal]. Qed.

Lemma skipn_length_app (A : Type) (a b : list A) :
  skipn (List.length a) (a ++ b) = b.
Proof. induction a; simpl; [reflexivity | assumption]. Qed.

(** ** The declaration parser *)

Lemma declarationStep_declarationOf (o : JsObject.t) (frag : str) :
  declarationStep o frag =
  match declarationOf frag with
  | Some (p, v) => JsObject.assign p v o
  | None => o
  end.
Proof.
  unfold declarationStep, declarationOf, substring.
  destruct (indexOf colon frag) as [i|]; [|reflexivity].
  rewrite Nat.sub_0_r, Nat.add_1_r. simpl skipn at 1.
  destruct (0 <? i); [|reflexivity].
  rewrite andb_true_l.
  now destruct (truthy (trim (firstn i frag)) && truthy (trim (skipn (S i) frag))).
Qed.

Lemma declarationOf_Declares (frag p v : str) :
  declarationOf frag = Some (p, v) <-> Declares frag p v.
Proof.
  unfold declarationOf, Declares. split.
  - destruct (indexOf colon frag) as [i|] eqn:Hi; [|discriminate].
    destruct (indexOf_Some _ _ Hi) as [E Hn].
    destruct (0 <? i) eqn:Hpos; cbn [andb]; [|discriminate].
    destruct (truthy (trim (firstn i frag))) eqn:Hp; cbn [andb]; [|discriminate].
    destruct (truthy (trim (skipn (S i) frag))) eqn:Hv; [|discriminate].
    intros H. injection H as <- <-.
    exists (firstn i frag), (skipn (S i) frag).
    apply truthy_true in Hp, Hv. repeat split; try assumption.
    intros E0. apply Nat.ltb_lt in Hpos. destruct i; [lia|].
    destruct frag; simpl in E0; discriminate.
  - intros (a & b & -> & Hn & Ha & -> & -> & Hp & Hv).
    rewrite indexOf_app by assumption.
    rewrite firstn_length_app.
    replace (skipn (S (List.length a)) (a ++ colon :: b)) with b.
    2:{ change (a ++ colon :: b) with (a ++ [colon] ++ b).
        rewrite app_assoc.
        replace (S (List.length a)) with (List.length (a ++ [colon]))
          by (rewrite length_app; simpl; lia).
        now rewrite skipn_length_app. }
    apply truthy_true in Hp, Hv. rewrite Hp, Hv.
    destruct a; [congruence|]. reflexivity.
Qed.

Lemma Declares_functional (frag p v p' v' : str) :
  Declares frag p v -> Declares frag p' v' -> p = p' /\ v = v'.
Proof.
  intros H H'. apply declarationOf_Declares in H, H'.
  rewrite H in H'. now injection H' as -> ->.
Qed.

(** ** Property maps *)

Module JsObjectFacts.
Import JsObject.

Lemma hasOwn_In (k : str) (o : t) : hasOwn k o = true <-> In k (keys o).
Proof.
  unfold hasOwn, keys. rewrite existsb_exists, in_map_iff. split.
  - intros (e & He & E). apply eqb_eq in E. now exists e.
  - intros (e & E & He). exists e. split; [exact He|]. now apply eqb_eq.
Qed.

Lemma hasOwn_false (k : str) (o : t) : hasOwn k o = false <-> ~ In k (keys o).
Proof.
  rewrite <- hasOwn_In. destruct (hasOwn k o); split; congruence.
Qed.

Lemma get_None (k : str) (o : t) : get k o = None <-> ~ In k (keys o).
Proof.
  induction o as [|[k' v] o IH]; simpl; [tauto|].
  destruct (eqb k' k) eqn:E.
  - apply eqb_eq in E. split; [discriminate|]. intros H. exfalso. now apply H; left.
  - apply eqb_neq in E. rewrite IH. tauto.
Qed.

Lemma keys_replaceValue (k v : str) (o : t) : keys (replaceValue k v o) = keys o.
Proof.
  induction o as [|[k' v'] o IH]; simpl; [reflexivity|].
  destruct (eqb k' k); simpl; [reflexivity | now f_equal].
Qed.

Lemma get_replaceValue (k v p : str) (o : t) :
  hasOwn k o = true ->
  get p (replaceValue k v o) = if eqb k p then Some v else get p o.
Proof.
  induction o as [|[k' v'] o IH]; simpl; [discriminate|].
  destruct (eqb k' k) eqn:E; simpl.
  - intros _. apply eqb_eq in E. subst k'. now destruct (eqb k p).
  - intros H. destruct (eqb k' p) eqn:E'.
    + apply eqb_eq in E'. subst k'. rewrite eqb_sym, E. reflexivity.
    + now apply IH.
Qed.

Lemma keys_insertKey (k v k' : str) (o : t) :
  In k' (keys (insertKey k v o)) <-> k' = k \/ In k' (keys o).
Proof.
  induction o as [|[k0 v0] o IH]; simpl.
  - intuition congruence.
  - destruct (comesBefore k k0); simpl; [intuition congruence|].
    rewrite IH. intuition congruence.
Qed.

Lemma NoDup_insertKey (k v : str) (o : t) :
  ~ In k (keys o) -> NoDup (keys o) -> NoDup (keys (insertKey k v o)).
Proof.
  induction o as [|[k0 v0] o IH]; simpl; intros Hn Hd.
  - constructor; [tauto | constructor].
  - destruct (comesBefore k k0); simpl.
    + constructor; [exact Hn | exact Hd].
    + inversion Hd as [|? ? Hk0 Hd']; subst. constructor.
      * rewrite keys_insertKey. intros [->|H]; [apply Hn; now left | contradiction].
      * apply IH; [tauto | exact Hd'].
Qed.

Lemma get_insertKey (k v p : str) (o : t) :
  hasOwn k o = false ->
  get p (insertKey k v o) = if eqb k p then Some v else get p o.
Proof.
  induction o as [|[k' v'] o IH]; simpl; [reflexivity|].
  destruct (eqb k' k) eqn:E; simpl; [discriminate|]. intros H.
  destruct (comesBefore k k'); simpl; [reflexivity|].
  destruct (eqb k' p) eqn:E'.
  - apply eqb_eq in E'. subst k'. rewrite eqb_sym, E. reflexivity.
  - now apply IH.
Qed.

Lemma get_defineOwn (k v p : str) (o : t) :
  get p (defineOwn k v o) = if eqb k p then Some v else get p o.
Proof.
  unfold defineOwn. destruct (hasOwn k o) eqn:E.
  - now apply get_replaceValue.
  - now apply get_insertKey.
Qed.

Lemma NoDup_defineOwn (k v : str) (o : t) :
  NoDup (keys o) -> NoDup (keys (defineOwn k v o)).
Proof.
  unfold defineOwn. destruct (hasOwn k o) eqn:E; intros H.
  - now rewrite keys_replaceValue.
  - apply NoDup_insertKey; [now apply hasOwn_false | exact H].
Qed.

Lemma Forall_replaceValue (P : str * str -> Prop) (k v : str) (o : t) :
  P (k, v) -> Forall P o -> Forall P (replaceValue k v o).
Proof.
  intros HP. induction 1 as [|[k' v'] o Hx Ho IH]; simpl; [constructor|].
  destruct (eqb k' k) eqn:E.
  - apply eqb_eq in E. subst. now constructor.
  - now constructor.
Qed.

Lemma Forall_insertKey (P : str * str -> Prop) (k v : str) (o : t) :
  P (k, v) -> Forall P o -> Forall P (insertKey k v o).
Proof.
  intros HP. induction 1 as [|[k' v'] o Hx Ho IH]; simpl.
  - now repeat constructor.
  - destruct (comesBefore k k'); now repeat constructor.
Qed.

Lemma Forall_defineOwn (P : str * str -> Prop) (k v : str) (o : t) :
  P (k, v) -> Forall P o -> Forall P (defineOwn k v o).
Proof.
  unfold defineOwn. intros HP Ho. destruct (hasOwn k o).
  - now apply Forall_replaceValue.
  - now apply Forall_insertKey.
Qed.

Lemma get_assign (k v p : str) (o : t) :
  p <> protoKey ->
  get p (assign k v o) = if eqb k p then Some v else get p o.
Proof.
  unfold assign. intros Hp. destruct (eqb k protoKey) eqn:E.
  - apply eqb_eq in E. subst k.
    destruct (eqb protoKey p) eqn:E'; [|reflexivity].
    apply eqb_eq in E'. congruence.
  - apply get_defineOwn.
Qed.

Lemma NoDup_assign (k v : str) (o : t) :
  NoDup (keys o) -> NoDup (keys (assign k v o)).
Proof.
  unfold assign. destruct (eqb k protoKey); [tauto | apply NoDup_defineOwn].
Qed.

Lemma keys_assign_proto (k v : str) (o : t) :
  ~ In protoKey (keys o) -> ~ In protoKey (keys (assign k v o)).
Proof.
  unfold assign. destruct (eqb k protoKey) eqn:E; [tauto|].
  apply eqb_neq in E. intros Hn. unfold defineOwn.
  destruct (hasOwn k o).
  - now rewrite keys_replaceValue.
  - rewrite keys_insertKey. intros [H|H]; [congruence | contradiction].
Qed.

End JsObjectFacts.

(** ** Splitting and joining *)

Lemma split_nonempty (sep : N) (s : str) : split sep s <> [].
Proof.
  destruct s as [|c s]; simpl; [discriminate|].
  destruct (N.eqb c sep); [discriminate|].
  destruct (split sep s); discriminate.
Qed.

Lemma split_no_sep (sep : N) (s : str) :
  Forall (fun f => ~ In sep f) (split sep s).
Proof.
  induction s as [|c s IH]; simpl.
  - constructor; [tauto | constructor].
  - destruct (N.eqb_spec c sep) as [->|Hne].
    + constructor; [tauto | exact IH].
    + destruct (split sep s) as [|f fs].
      * constructor; [|constructor]. simpl. intuition congruence.
      * inversion IH; subst. constructor; [|assumption].
        simpl. intuition congruence.
Qed.

Lemma join_split (sep : N) (s : str) : join [sep] (split sep s) = s.
Proof.
  induction s as [|c s IH]; simpl; [reflexivity|].
  destruct (N.eqb_spec c sep) as [->|Hne].
  - pose proof (split_nonempty sep s) as Hne.
    destruct (split sep s) as [|f fs]; [congruence|].
    simpl in *. now f_equal.
  - pose proof (split_nonempty sep s) as Hne'.
    destruct (split sep s) as [|f fs]; [congruence|].
    simpl in *. destruct fs; simpl in *; now f_equal.
Qed.

Lemma split_fragment (sep : N) (f : str) : ~ In sep f -> split sep f = [f].
Proof.
  induction f as [|c f IH]; simpl; intros Hn; [reflexivity|].
  destruct (N.eqb_spec c sep) as [->|Hne]; [exfalso; apply Hn; now left|].
  rewrite IH; [reflexivity|]. intros H. apply Hn. now right.
Qed.

Lemma split_app (sep : N) (f s : str) :
  ~ In sep f -> split sep (f ++ sep :: s) = f :: split sep s.
Proof.
  induction f as [|c f IH]; simpl; intros Hn.
  - now rewrite N.eqb_refl.
  - destruct (N.eqb_spec c sep) as [->|Hne]; [exfalso; apply Hn; now left|].
    rewrite IH; [reflexivity|]. intros H. apply Hn. now right.
Qed.

Lemma split_join (sep : N) (fs : list str) :
  fs <> [] -> Forall (fun f => ~ In sep f) fs ->
  split sep (join [sep] fs) = fs.
Proof.
  induction fs as [|f fs IH]; [congruence|]. intros _ H.
  inversion H as [|? ? Hf Hfs]; subst.
  destruct fs as [|g fs].
  - simpl. now apply split_fragment.
  - change (join [sep] (f :: g :: fs)) with (f ++ sep :: join [sep] (g :: fs)).
    rewrite split_app by assumption. f_equal. apply IH; [discriminate | assumption].
Qed.

(** ** Claims about the declaration parser *)

Lemma get_fold_declarationStep (p v : str) :
  p <> JsObject.protoKey ->
  forall (frags : list str) (o : JsObject.t),
    JsObject.get p (fold_left declarationStep frags o) = Some v <->
    LastDeclared frags p v \/
    ((forall f v', In f frags -> ~ Declares f p v') /\ JsObject.get p o = Some v).
Proof.
  intros Hp. induction frags as [|x l IH]; intros o.
  - simpl. split.
    + intros H. right. split; [tauto | exact H].
    + intros [(l1 & f & l2 & E & _)|[_ H]]; [|exact H].
      destruct l1; discriminate.
  - simpl. rewrite IH. rewrite declarationStep_declarationOf.
    destruct (declarationOf x) as [[k w]|] eqn:Hx.
    + apply declarationOf_Declares in Hx.
      rewrite JsObjectFacts.get_assign by assumption.
      destruct (eqb k p) eqn:Hk.
      * apply eqb_eq in Hk. subst k. split.
        -- intros [(l1 & f & l2 & -> & Hf & Hl)|[Hnone H]].
           ++ left. now exists (x :: l1), f, l2.
           ++ injection H as <-. left. exists [], x, l.
              split; [reflexivity | split; [exact Hx | exact Hnone]].
        -- intros [(l1 & f & l2 & E & Hf & Hl)|[Hnone _]].
           ++ destruct l1 as [|y l1]; simpl in E; injection E as -> ->.
              ** right. split; [|f_equal; eapply Declares_functional; eauto].
                 intros f' v' Hin. now apply Hl.
              ** left. now exists l1, f, l2.
           ++ exfalso. apply (Hnone x w); [now left | exact Hx].
      * apply eqb_neq in Hk.
        assert (Hnx : forall v', ~ Declares x p v').
        { intros v' H'. destruct (Declares_functional Hx H'). congruence. }
        split.
        -- intros [(l1 & f & l2 & -> & Hf & Hl)|[Hnone H]].
           ++ left. now exists (x :: l1), f, l2.
           ++ right. split; [|exact H].
              intros f' v' [<-|Hin]; [apply Hnx | now apply Hnone].
        -- intros [(l1 & f & l2 & E & Hf & Hl)|[Hnone H]].
           ++ destruct l1 as [|y l1]; simpl in E; injection E as -> ->.
              ** exfalso. now apply (Hnx v).
              ** left. now exists l1, f, l2.
           ++ right. split; [|exact H].
              intros f' v' Hin. apply Hnone. now right.
    + assert (Hnx : forall v', ~ Declares x p v').
      { intros v' H'. apply declarationOf_Declares in H'. congruence. }
      split.
      * intros [(l1 & f & l2 & -> & Hf & Hl)|[Hnone H]].
        -- left. now exists (x :: l1), f, l2.
        -- right. split; [|exact H].
           intros f' v' [<-|Hin]; [apply Hnx | now apply Hnone].
      * intros [(l1 & f & l2 & E & Hf & Hl)|[Hnone H]].
        -- destruct l1 as [|y l1]; simpl in E; injection E as -> ->.
           ++ exfalso. now apply (Hnx v).
           ++ left. now exists l1, f, l2.
        -- right. split; [|exact H].
           intros f' v' Hin. apply Hnone. now right.
Qed.

Lemma NoDup_fold_declarationStep (frags : list str) (o : JsObject.t) :
  NoDup (JsObject.keys o) ->
  NoDup (JsObject.keys (fold_left declarationStep frags o)).
Proof.
  revert o; induction frags as [|x l IH]; intros o Ho; simpl; [exact Ho|].
  apply IH. rewrite declarationStep_declarationOf.
  destruct (declarationOf x) as [[k w]|]; [|exact Ho].
  now apply JsObjectFacts.NoDup_assign.
Qed.

(** C5, as amended.  The fragments of the declaration text are its pieces
    between semicolons.  For every property name other than [__proto__],
    the parsed map gives the property the value [v] exactly when the last
    fragment that has a colon after a non-empty prefix, with non-empty
    trimmed property and value, and whose property is that name, has the
    value [v]; every other fragment contributes nothing.  No property
    occurs twice in the map, and [color:red;;invalid;fill:green] parses to
    the two entries color:red and fill:green. *)
Theorem parseStyleDeclarations_keeps (declarations p v : str) :
  p <> JsObject.protoKey ->
  (join [semicolon] (split semicolon declarations) = declarations /\
   Forall (fun f => ~ In semicolon f) (split semicolon declarations)) /\
  (JsObject.get p (parseStyleDeclarations declarations) = Some v <->
   LastDeclared (split semicolon declarations) p v) /\
  NoDup (JsObject.keys (parseStyleDeclarations declarations)) /\
  parseStyleDeclarations (lit "color:red;;invalid;fill:green") =
    [(lit "color", lit "red"); (lit "fill", lit "green")].
Proof.
  intros Hp. split; [|split; [|split]].
  - split; [apply join_split | apply split_no_sep].
  - unfold parseStyleDeclarations.
    rewrite (get_fold_declarationStep v Hp). simpl. split.
    + intros [H|[_ H]]; [exact H | discriminate].
    + intros H. now left.
  - apply NoDup_fold_declarationStep. constructor.
  - reflexivity.
Qed.

Lemma parseStyleDeclarations_keeps_witness :
  JsObject.get (lit "fill")
    (parseStyleDeclarations (lit "fill:red;stroke:none;fill:green")) =
    Some (lit "green") <->
  LastDeclared (split semicolon (lit "fill:red;stroke:none;fill:green"))
    (lit "fill") (lit "green").
Proof.
  apply (@parseStyleDeclarations_keeps
           (lit "fill:red;stroke:none;fill:green") (lit "fill") (lit "green")).
  vm_compute. discriminate.
Defined.

(** C5, as stated, fails: the fragment [__proto__:x] has a colon after a
    non-empty property and a non-empty value, yet the parsed map has no
    entry for it. *)
Lemma parseStyleDeclarations_proto_not_kept :
  parseStyleDeclarations (lit "__proto__:x") = [] /\
  Declares (lit "__proto__:x") (lit "__proto__") (lit "x") /\
  ~ (forall declarations p v,
       JsObject.get p (parseStyleDeclarations declarations) = Some v <->
       LastDeclared (split semicolon declarations) p v).
Proof.
  assert (D : Declares (lit "__proto__:x") (lit "__proto__") (lit "x"))
    by (apply declarationOf_Declares; reflexivity).
  split; [reflexivity|]. split; [exact D|].
  intros H.
  specialize (H (lit "__proto__:x") (lit "__proto__") (lit "x")).
  destruct H as [_ H].
  assert (L : LastDeclared (split semicolon (lit "__proto__:x"))
                (lit "__proto__") (lit "x")).
  { exists [], (lit "__proto__:x"), []. repeat split.
    - exact D.
    - intros f' v' []. }
  specialize (H L). discriminate.
Qed.

(** C8.  The parser of rule declarations and the parser of an inline
    style text return the same property map on every string. *)
Theorem parseInlineStyle_same (s : str) :
  parseStyleDeclarations s = parseInlineStyle s.
Proof.
  unfold parseInlineStyle, parseStyleDeclarations.
  destruct s as [|c s]; reflexivity.
Qed.

(** ** The merger *)

Lemma parseInlineStyle_fold (s : str) :
  parseInlineStyle s = fold_left declarationStep (split semicolon s) [].
Proof. destruct s; reflexivity. Qed.

Lemma ParsedEntry_declared (frag p v : str) :
  ~ In semicolon frag -> Declares frag p v -> p <> JsObject.protoKey ->
  ParsedEntry (p, v).
Proof.
  intros Hs (a & b & -> & Hc & Ha & -> & -> & Hp & Hv) Hproto.
  unfold ParsedEntry; simpl. repeat split; try assumption.
  - apply trim_idem.
  - intros H. apply trim_In in H. contradiction.
  - intros H. apply trim_In in H. apply Hs. apply in_or_app. now left.
  - apply trim_idem.
  - intros H. apply trim_In in H. apply Hs. apply in_or_app. right. now right.
Qed.

Lemma ParsedEntry_fold (frags : list str) (o : JsObject.t) :
  Forall (fun f => ~ In semicolon f) frags ->
  Forall ParsedEntry o ->
  Forall ParsedEntry (fold_left declarationStep frags o).
Proof.
  intros H; revert o; induction H as [|x l Hx Hl IH]; intros o Ho; simpl;
    [exact Ho|].
  apply IH. rewrite declarationStep_declarationOf.
  destruct (declarationOf x) as [[k w]|] eqn:E; [|exact Ho].
  apply declarationOf_Declares in E. unfold JsObject.assign.
  destruct (eqb k JsObject.protoKey) eqn:Hk; [exact Ho|].
  apply eqb_neq in Hk. apply JsObjectFacts.Forall_defineOwn; [|exact Ho].
  eapply ParsedEntry_declared; eauto.
Qed.

Lemma parseInlineStyle_parsed (s : str) :
  Forall ParsedEntry (parseInlineStyle s) /\
  NoDup (JsObject.keys (parseInlineStyle s)).
Proof.
  rewrite parseInlineStyle_fold. split.
  - apply ParsedEntry_fold; [apply split_no_sep | constructor].
  - apply NoDup_fold_declarationStep. constructor.
Qed.

Lemma parseStyleDeclarations_parsed (s : str) :
  Forall ParsedEntry (parseStyleDeclarations s) /\
  NoDup (JsObject.keys (parseStyleDeclarations s)).
Proof.
  unfold parseStyleDeclarations. split.
  - apply ParsedEntry_fold; [apply split_no_sep | constructor].
  - apply NoDup_fold_declarationStep. constructor.
Qed.

Lemma declarationOf_render (e : str * str) :
  ParsedEntry e -> declarationOf (renderDeclaration e) = Some e.
Proof.
  destruct e as [k v]. intros (Hk & Tk & Ck & _ & _ & Hv & Tv & _).
  simpl in *. apply declarationOf_Declares.
  exists k, v. unfold renderDeclaration. simpl. repeat split; auto.
Qed.

Lemma render_no_semicolon (e : str * str) :
  ParsedEntry e -> ~ In semicolon (renderDeclaration e).
Proof.
  destruct e as [k v]. intros (_ & _ & _ & Sk & _ & _ & _ & Sv).
  simpl in *. unfold renderDeclaration. simpl. intros H.
  apply in_app_or in H as [H|[H|H]]; try contradiction. discriminate.
Qed.

Lemma fold_declarationStep_render (m o : JsObject.t) :
  Forall ParsedEntry m ->
  fold_left declarationStep (map renderDeclaration m) o =
  fold_left defineEntry m o.
Proof.
  intros H; revert o; induction H as [|e m He Hm IH]; intros o; simpl;
    [reflexivity|].
  rewrite declarationStep_declarationOf, (declarationOf_render He).
  destruct e as [k v]. unfold JsObject.assign.
  destruct He as (_ & _ & _ & _ & Hp & _). simpl in Hp.
  apply eqb_neq in Hp. rewrite Hp. apply IH.
Qed.

Lemma get_fold_defineEntry (p : str) (m o : JsObject.t) :
  NoDup (JsObject.keys m) ->
  JsObject.get p (fold_left defineEntry m o) =
  match JsObject.get p m with
  | Some v => Some v
  | None => JsObject.get p o
  end.
Proof.
  revert o; induction m as [|[k v] m IH]; intros o Hd; simpl; [reflexivity|].
  inversion Hd as [|? ? Hk Hd']; subst.
  rewrite IH by assumption. unfold defineEntry at 1. simpl.
  rewrite JsObjectFacts.get_defineOwn.
  destruct (eqb k p) eqn:E; [|reflexivity].
  apply eqb_eq in E. subst k.
  apply JsObjectFacts.get_None in Hk. now rewrite Hk.
Qed.

Lemma NoDup_fold_defineEntry (m o : JsObject.t) :
  NoDup (JsObject.keys o) -> NoDup (JsObject.keys (fold_left defineEntry m o)).
Proof.
  revert o; induction m as [|e m IH]; intros o Ho; simpl; [exact Ho|].
  apply IH. now apply JsObjectFacts.NoDup_defineOwn.
Qed.

Lemma ParsedEntry_fold_defineEntry (m o : JsObject.t) :
  Forall ParsedEntry m -> Forall ParsedEntry o ->
  Forall ParsedEntry (fold_left defineEntry m o).
Proof.
  intros H; revert o; induction H as [|[k v] m He Hm IH]; intros o Ho; simpl;
    [exact Ho|].
  apply IH. now apply JsObjectFacts.Forall_defineOwn.
Qed.

Lemma spread_fold (a b : JsObject.t) :
  JsObject.spread a b = fold_left defineEntry b (fold_left defineEntry a []).
Proof. reflexivity. Qed.

Lemma get_spread (p : str) (a b : JsObject.t) :
  NoDup (JsObject.keys a) -> NoDup (JsObject.keys b) ->
  JsObject.get p (JsObject.spread a b) =
  match JsObject.get p b with
  | Some v => Some v
  | None => JsObject.get p a
  end.
Proof.
  intros Ha Hb. rewrite spread_fold.
  rewrite get_fold_defineEntry by assumption.
  rewrite get_fold_defineEntry by assumption.
  simpl. now destruct (JsObject.get p b), (JsObject.get p a).
Qed.

Lemma spread_parsed (a b : JsObject.t) :
  Forall ParsedEntry a -> Forall ParsedEntry b ->
  Forall ParsedEntry (JsObject.spread a b) /\
  NoDup (JsObject.keys (JsObject.spread a b)).
Proof.
  intros Ha Hb. rewrite spread_fold. split.
  - apply ParsedEntry_fold_defineEntry; [exact Hb|].
    apply ParsedEntry_fold_defineEntry; [exact Ha | constructor].
  - apply NoDup_fold_defineEntry, NoDup_fold_defineEntry. constructor.
Qed.

(** Reading back a style string written from a parsed map gives the map's
    values. *)
Lemma get_parse_styleStringOf (p : str) (m : JsObject.t) :
  Forall ParsedEntry m -> NoDup (JsObject.keys m) ->
  JsObject.get p (parseInlineStyle (styleStringOf m)) = JsObject.get p m.
Proof.
  intros Hm Hd. rewrite parseInlineStyle_fold. unfold styleStringOf.
  destruct m as [|e m]; [reflexivity|].
  rewrite split_join.
  - rewrite fold_declarationStep_render by assumption.
    rewrite get_fold_defineEntry by assumption.
    now destruct (JsObject.get p (e :: m)).
  - discriminate.
  - apply Forall_forall. intros f Hf. apply in_map_iff in Hf as (x & <- & Hx).
    apply render_no_semicolon. rewrite Forall_forall in Hm. now apply Hm.
Qed.

Lemma getAttribute_setAttribute (name value : str) (a : attrs) :
  getAttribute name (setAttribute name value a) = Some value.
Proof.
  induction a as [|[k v] a IH]; simpl.
  - now rewrite eqb_refl.
  - destruct (eqb k name) eqn:E; simpl; rewrite E; [reflexivity | exact IH].
Qed.

Lemma getAttribute_setAttribute_other (name name' value : str) (a : attrs) :
  name' <> name ->
  getAttribute name' (setAttribute name value a) = getAttribute name' a.
Proof.
  intros Hne. induction a as [|[k v] a IH]; simpl.
  - apply eqb_neq in Hne. rewrite eqb_sym in Hne. now rewrite Hne.
  - destruct (eqb k name) eqn:E; simpl.
    + apply eqb_eq in E. subst k. apply eqb_neq in Hne.
      rewrite eqb_sym in Hne. now rewrite Hne.
    + now rewrite IH.
Qed.

Lemma orElse_empty (a : option str) :
  orElse a [] = match a with Some s => s | None => [] end.
Proof. destruct a as [[|c s]|]; reflexivity. Qed.

(** The merge law: after [applyStyles], the inline style gives each
    property the incoming value when there is one, and its former value
    otherwise. *)
Lemma inlineStyles_applyStyles (p : str) (incoming : JsObject.t) (a : attrs) :
  Forall ParsedEntry incoming -> NoDup (JsObject.keys incoming) ->
  JsObject.get p (inlineStyles (applyStyles incoming a)) =
  match JsObject.get p incoming with
  | Some v => Some v
  | None => JsObject.get p (inlineStyles a)
  end.
Proof.
  intros Hi Hd. unfold inlineStyles at 1, applyStyles.
  rewrite getAttribute_setAttribute, orElse_empty.
  fold (inlineStyles a).
  destruct (parseInlineStyle_parsed (orElse (getAttribute styleAttr a) []))
    as [He Hde]. fold (inlineStyles a) in He, Hde.
  destruct (spread_parsed He Hi) as [Hm Hdm].
  rewrite get_parse_styleStringOf by assumption.
  now apply get_spread.
Qed.

(** *** The order of the merged entries *)

Lemma insertKey_append (k v : str) (o : JsObject.t) :
  JsObject.arrayIndex k = None -> JsObject.insertKey k v o = o ++ [(k, v)].
Proof.
  intros Hk. induction o as [|[k' v'] o IH]; simpl; [reflexivity|].
  unfold JsObject.comesBefore. rewrite Hk. now rewrite IH.
Qed.

Lemma hasOwn_replaceValue (k v k' : str) (o : JsObject.t) :
  JsObject.hasOwn k' (JsObject.replaceValue k v o) = JsObject.hasOwn k' o.
Proof.
  induction o as [|[k0 v0] o IH]; simpl; [reflexivity|].
  destruct (eqb k0 k); simpl; [reflexivity | now rewrite IH].
Qed.

Lemma hasOwn_app (k : str) (a b : JsObject.t) :
  JsObject.hasOwn k (a ++ b) = JsObject.hasOwn k a || JsObject.hasOwn k b.
Proof. unfold JsObject.hasOwn. apply existsb_app. Qed.

Lemma mergedEntries_nil_r (acc : JsObject.t) : mergedEntries acc [] = acc.
Proof.
  unfold mergedEntries. simpl. rewrite app_nil_r.
  induction acc as [|[k v] acc IH]; simpl; [reflexivity | now rewrite IH].
Qed.

Lemma mergedEntries_nil_l (inc : JsObject.t) : mergedEntries [] inc = inc.
Proof.
  unfold mergedEntries. simpl.
  induction inc as [|e inc IH]; simpl; [reflexivity | now rewrite IH].
Qed.

Lemma map_update_replaceValue (k v : str) (inc acc : JsObject.t) :
  ~ In k (JsObject.keys inc) -> NoDup (JsObject.keys acc) ->
  JsObject.hasOwn k acc = true ->
  map (fun e => (fst e, match JsObject.get (fst e) inc with
                        | Some w => w
                        | None => snd e
                        end)) (JsObject.replaceValue k v acc) =
  map (fun e => (fst e, match JsObject.get (fst e) ((k, v) :: inc) with
                        | Some w => w
                        | None => snd e
                        end)) acc.
Proof.
  intros Hk. apply JsObjectFacts.get_None in Hk.
  induction acc as [|[k0 v0] acc IH]; intros Hd Hown; [discriminate|].
  inversion Hd as [|? ? Hk0 Hd']; subst.
  cbn [JsObject.replaceValue]. destruct (eqb k0 k) eqn:E.
  - apply eqb_eq in E. subst k0. cbn [map fst snd JsObject.get].
    rewrite eqb_refl, Hk. f_equal.
    apply map_ext_in. intros [k1 v1] Hin. cbn [fst snd].
    destruct (eqb k k1) eqn:E1; [|reflexivity].
    apply eqb_eq in E1. subst k1. exfalso. apply Hk0.
    apply in_map_iff. now exists (k, v1).
  - cbn [map fst snd JsObject.get]. rewrite eqb_sym, E. f_equal.
    apply IH; [exact Hd'|]. simpl in Hown. now rewrite E in Hown.
Qed.

Lemma fold_defineEntry_merged (inc acc : JsObject.t) :
  NoDup (JsObject.keys inc) -> NoDup (JsObject.keys acc) ->
  (forall k, In k (JsObject.keys inc) -> JsObject.arrayIndex k = None) ->
  fold_left defineEntry inc acc = mergedEntries acc inc.
Proof.
  revert acc; induction inc as [|[k v] inc IH]; intros acc Hd Ha Hidx.
  - simpl. now rewrite mergedEntries_nil_r.
  - inversion Hd as [|? ? Hk Hd']; subst. simpl fold_left.
    rewrite IH; [|exact Hd' | now apply JsObjectFacts.NoDup_defineOwn
                 | intros k' Hk'; apply Hidx; now right].
    unfold defineEntry, JsObject.defineOwn. cbn [fst snd].
    destruct (JsObject.hasOwn k acc) eqn:Hown; unfold mergedEntries.
    + rewrite map_update_replaceValue by assumption. f_equal.
      cbn [filter fst]. rewrite Hown. cbn [negb].
      apply filter_ext. intros e. now rewrite hasOwn_replaceValue.
    + rewrite insertKey_append by (apply Hidx; now left).
      rewrite map_app. cbn [map fst snd filter]. rewrite Hown. cbn [negb].
      apply JsObjectFacts.get_None in Hk. rewrite Hk.
      rewrite <- app_assoc. cbn [app]. f_equal.
      * apply map_ext_in. intros [k1 v1] Hin. cbn [fst snd JsObject.get].
        destruct (eqb k k1) eqn:E1; [|reflexivity].
        apply eqb_eq in E1. subst k1. exfalso.
        apply JsObjectFacts.hasOwn_false in Hown. apply Hown.
        apply in_map_iff. now exists (k, v1).
      * f_equal. apply filter_ext_in. intros [k1 v1] Hin. cbn [fst].
        rewrite hasOwn_app. simpl. rewrite orb_false_r.
        destruct (eqb k k1) eqn:E1; [|now rewrite orb_false_r].
        apply eqb_eq in E1. subst k1. exfalso.
        apply JsObjectFacts.get_None in Hk. apply Hk.
        apply in_map_iff. now exists (k, v1).
Qed.

Lemma spread_merged (existing incoming : JsObject.t) :
  NoDup (JsObject.keys existing) -> NoDup (JsObject.keys incoming) ->
  (forall k, In k (JsObject.keys existing) -> JsObject.arrayIndex k = None) ->
  (forall k, In k (JsObject.keys incoming) -> JsObject.arrayIndex k = None) ->
  JsObject.spread existing incoming = mergedEntries existing incoming.
Proof.
  intros He Hi Xe Xi. rewrite spread_fold.
  rewrite (@fold_defineEntry_merged existing []) by (constructor || assumption).
  rewrite mergedEntries_nil_l. now apply fold_defineEntry_merged.
Qed.

(** ** The document tree *)

Lemma elements_isElement (root e : node) :
  In e (elements root) -> isElement e = true.
Proof.
  assert (D : forall n e, In e (descendants n) -> isElement e = true).
  { induction n as [i t a kids IH| |] using node_induction; simpl;
      try contradiction.
    intros e' H. apply in_flat_map in H as (k & Hk & He).
    rewrite Forall_forall in IH. specialize (IH k Hk).
    destruct (isElement k) eqn:Ek; [|contradiction].
    destruct He as [<-|He]; [exact Ek | now apply IH]. }
  unfold elements. destruct (isElement root) eqn:E; [|contradiction].
  intros [<-|H]; [exact E | now apply (D root)].
Qed.

Lemma descendants_elements (root e : node) :
  In e (descendants root) -> In e (elements root).
Proof.
  unfold elements. destruct root; simpl; try contradiction. now right.
Qed.

Lemma hasId_idOf (i : nat) (e : node) :
  isElement e = true -> (hasId i e = true <-> idOf e = i).
Proof.
  destruct e; simpl; try discriminate. intros _. apply Nat.eqb_eq.
Qed.

Lemma isElement_updateAttributes (i : nat) (f : attrs -> attrs) (n : node) :
  isElement (updateAttributes i f n) = isElement n.
Proof. now destruct n. Qed.

Lemma idOf_updateAttributes (i : nat) (f : attrs -> attrs) (n : node) :
  idOf (updateAttributes i f n) = idOf n.
Proof. now destruct n. Qed.

Lemma nameOf_updateAttributes (i : nat) (f : attrs -> attrs) (n : node) :
  nameOf (updateAttributes i f n) = nameOf n.
Proof. now destruct n. Qed.

Lemma hasId_updateAttributes (j i : nat) (f : attrs -> attrs) (n : node) :
  hasId j (updateAttributes i f n) = hasId j n.
Proof. now destruct n. Qed.

Lemma attributesOf_updateAttributes (i : nat) (f : attrs -> attrs) (n : node) :
  isElement n = true ->
  attributesOf (updateAttributes i f n) =
  if Nat.eqb (idOf n) i then f (attributesOf n) else attributesOf n.
Proof. destruct n; simpl; [reflexivity | discriminate | discriminate]. Qed.

Lemma descendants_updateAttributes (i : nat) (f : attrs -> attrs) (n : node) :
  descendants (updateAttributes i f n) =
  map (updateAttributes i f) (descendants n).
Proof.
  induction n as [j t a kids IH| |] using node_induction; try reflexivity.
  cbn [updateAttributes descendants].
  induction IH as [|k kids Hk _ IHk]; [reflexivity|].
  cbn [map flat_map]. rewrite map_app, <- IHk. f_equal.
  rewrite isElement_updateAttributes.
  destruct (isElement k); [|reflexivity]. cbn [map]. now rewrite Hk.
Qed.

Lemma elements_updateAttributes (i : nat) (f : attrs -> attrs) (n : node) :
  elements (updateAttributes i f n) = map (updateAttributes i f) (elements n).
Proof.
  unfold elements. rewrite isElement_updateAttributes.
  destruct (isElement n); [|reflexivity].
  cbn [map]. now rewrite descendants_updateAttributes.
Qed.

Lemma ids_updateAttributes (i : nat) (f : attrs -> attrs) (n : node) :
  ids (updateAttributes i f n) = ids n.
Proof.
  unfold ids. rewrite elements_updateAttributes, map_map.
  apply map_ext. intros e. apply idOf_updateAttributes.
Qed.

Lemma find_map (A B : Type) (p : B -> bool) (g : A -> B) (l : list A) :
  List.find p (map g l) = option_map g (List.find (fun x => p (g x)) l).
Proof.
  induction l as [|x l IH]; simpl; [reflexivity|].
  destruct (p (g x)); [reflexivity | exact IH].
Qed.

Lemma find_extensional (A : Type) (p q : A -> bool) (l : list A) :
  (forall x, p x = q x) -> List.find p l = List.find q l.
Proof.
  intros H. induction l as [|x l IH]; simpl; [reflexivity|].
  rewrite H. now rewrite IH.
Qed.

Lemma find_updateAttributes (j i : nat) (f : attrs -> attrs) (root : node) :
  find j (updateAttributes i f root) =
  option_map (updateAttributes i f) (find j root).
Proof.
  unfold find. rewrite elements_updateAttributes, find_map. f_equal.
  apply find_extensional. intros e. apply hasId_updateAttributes.
Qed.

Lemma find_Some (j : nat) (root e : node) :
  find j root = Some e -> In e (elements root) /\ idOf e = j.
Proof.
  unfold find. intros H. apply find_some in H as [Hin Hid].
  split; [exact Hin|]. apply hasId_idOf; [|exact Hid].
  eapply elements_isElement; eauto.
Qed.

Lemma attributesAt_updateAttributes (j i : nat) (f : attrs -> attrs) (root : node) :
  attributesAt j (updateAttributes i f root) =
  if Nat.eqb j i then option_map f (attributesAt j root)
  else attributesAt j root.
Proof.
  unfold attributesAt. rewrite find_updateAttributes.
  destruct (find j root) as [e|] eqn:E; [|now destruct (Nat.eqb j i)].
  apply find_Some in E as [Hin <-].
  cbn [option_map]. rewrite attributesOf_updateAttributes
    by (eapply elements_isElement; eauto).
  now destruct (Nat.eqb (idOf e) i).
Qed.

(** With distinct identities, an element of the tree is the one found
    under its identity. *)
Lemma find_unique (root e : node) :
  NoDup (ids root) -> In e (elements root) -> find (idOf e) root = Some e.
Proof.
  unfold ids, find. intros Hd Hin.
  assert (He : forall x, In x (elements root) -> isElement x = true)
    by (intros x; apply elements_isElement).
  induction (elements root) as [|x l IH]; [contradiction|].
  cbn [map] in Hd. inversion Hd as [|? ? Hx Hd']; subst.
  cbn [List.find]. destruct Hin as [->|Hin].
  - replace (hasId (idOf e) e) with true; [reflexivity|].
    symmetry. apply hasId_idOf; [apply He; now left | reflexivity].
  - destruct (hasId (idOf e) x) eqn:E.
    + exfalso. apply hasId_idOf in E; [|apply He; now left].
      apply Hx. rewrite E. now apply in_map.
    + apply IH; [exact Hd' | exact Hin |]. intros y Hy. apply He. now right.
Qed.

(** ** Claims about the merger *)

(** C3.  The merge is last write wins.  Reading an element's inline style
    back after a rule was merged into it gives, for every property, the
    rule's value when the rule sets the property (whatever the inline
    style held before) and the former value otherwise; after merging rule
    R1 and then rule R2, R2's value stands wherever R2 sets the property,
    else R1's, else the original one.  On the tree, merging into the
    element with identity [i] rewrites exactly that element's attributes
    in this way, and the selector text of a rule plays no part.  The
    inline style [fill:red] merged with the rule [{fill:blue}] becomes
    [fill:blue]; the rules [{x:1}] then [{x:2}] leave [x:2]. *)
Theorem applyStyles_last_write_wins
  (a : attrs) (d1 d2 p : str) (root : node) (i : nat) (sel1 sel2 : str)
  (c : conversion) :
  let R1 := parseStyleDeclarations d1 in
  let R2 := parseStyleDeclarations d2 in
  JsObject.get p (inlineStyles (applyStyles R1 a)) =
    match JsObject.get p R1 with
    | Some v => Some v
    | None => JsObject.get p (inlineStyles a)
    end
  /\ JsObject.get p (inlineStyles (applyStyles R2 (applyStyles R1 a))) =
    match JsObject.get p R2 with
    | Some v => Some v
    | None => match JsObject.get p R1 with
              | Some v => Some v
              | None => JsObject.get p (inlineStyles a)
              end
    end
  /\ attributesAt i (applyStylesToElement i R2 (applyStylesToElement i R1 root)) =
     option_map (fun a0 => applyStyles R2 (applyStyles R1 a0)) (attributesAt i root)
  /\ svg (mergeInto (mkRule sel1 R1) c i) = svg (mergeInto (mkRule sel2 R1) c i)
  /\ applyStyles (parseStyleDeclarations (lit "fill:blue"))
       [(styleAttr, lit "fill:red")] = [(styleAttr, lit "fill:blue")]
  /\ applyStyles (parseStyleDeclarations (lit "x:2"))
       (applyStyles (parseStyleDeclarations (lit "x:1")) []) =
     [(styleAttr, lit "x:2")].
Proof.
  intros R1 R2.
  destruct (parseStyleDeclarations_parsed d1) as [H1 D1].
  destruct (parseStyleDeclarations_parsed d2) as [H2 D2].
  fold R1 in H1, D1. fold R2 in H2, D2.
  split; [|split; [|split; [|split; [|split]]]].
  - now apply inlineStyles_applyStyles.
  - rewrite inlineStyles_applyStyles by assumption.
    now rewrite inlineStyles_applyStyles by assumption.
  - unfold applyStylesToElement.
    rewrite !attributesAt_updateAttributes, Nat.eqb_refl.
    now destruct (attributesAt i root).
  - reflexivity.
  - reflexivity.
  - reflexivity.
Qed.

(** C9, as amended.  When no property name of the element's inline style
    or of the incoming map is an array index, the style attribute written
    by the merger is the [prop:value] pairs joined by semicolons of: the
    former entries in their order, each with the incoming value when there
    is one, followed by the new properties in the order of the incoming
    map. *)
Theorem applyStyles_order (a : attrs) (incoming : JsObject.t) :
  NoDup (JsObject.keys incoming) ->
  (forall k, In k (JsObject.keys (inlineStyles a)) -> JsObject.arrayIndex k = None) ->
  (forall k, In k (JsObject.keys incoming) -> JsObject.arrayIndex k = None) ->
  getAttribute styleAttr (applyStyles incoming a) =
  Some (join [semicolon]
          (map renderDeclaration (mergedEntries (inlineStyles a) incoming))).
Proof.
  intros Hd Xe Xi. unfold applyStyles.
  rewrite getAttribute_setAttribute. f_equal. unfold styleStringOf.
  fold (inlineStyles a). rewrite spread_merged; try assumption; [reflexivity|].
  apply parseInlineStyle_parsed.
Qed.

Lemma applyStyles_order_witness :
  getAttribute styleAttr
    (applyStyles (parseStyleDeclarations (lit "stroke:none;fill:blue"))
       [(lit "id", lit "r"); (styleAttr, lit "fill:red;opacity:1")]) =
  Some (lit "fill:blue;opacity:1;stroke:none").
Proof.
  rewrite (@applyStyles_order
             [(lit "id", lit "r"); (styleAttr, lit "fill:red;opacity:1")]
             (parseStyleDeclarations (lit "stroke:none;fill:blue"))).
  - vm_compute. reflexivity.
  - vm_compute. repeat constructor; simpl; intuition discriminate.
  - intros k Hk. vm_compute in Hk. destruct Hk as [<-|[<-|[]]]; reflexivity.
  - intros k Hk. vm_compute in Hk. destruct Hk as [<-|[<-|[]]]; reflexivity.
Defined.

(** C9, as stated, fails: a property whose name is an array index is
    listed before the entries that were there first. *)
Lemma applyStyles_order_array_index :
  getAttribute styleAttr
    (applyStyles (parseStyleDeclarations (lit "1:y")) [(styleAttr, lit "a:x")]) =
    Some (lit "1:y;a:x") /\
  ~ (forall (a : attrs) (incoming : JsObject.t),
       NoDup (JsObject.keys incoming) ->
       getAttribute styleAttr (applyStyles incoming a) =
       Some (join [semicolon]
               (map renderDeclaration (mergedEntries (inlineStyles a) incoming)))).
Proof.
  split; [reflexivity|]. intros H.
  specialize (H [(styleAttr, lit "a:x")] (parseStyleDeclarations (lit "1:y"))).
  assert (Hd : NoDup (JsObject.keys (parseStyleDeclarations (lit "1:y"))))
    by apply parseStyleDeclarations_parsed.
  specialize (H Hd). vm_compute in H. discriminate.
Qed.

(** *** Detaching elements *)

Lemma isElement_removeChild (i : nat) (n : node) :
  isElement (removeChild i n) = isElement n.
Proof. now destruct n. Qed.

Lemma idOf_removeChild (i : nat) (n : node) : idOf (removeChild i n) = idOf n.
Proof. now destruct n. Qed.

Lemma nameOf_removeChild (i : nat) (n : node) :
  nameOf (removeChild i n) = nameOf n.
Proof. now destruct n. Qed.

Lemma attributesOf_removeChild (i : nat) (n : node) :
  attributesOf (removeChild i n) = attributesOf n.
Proof. now destruct n. Qed.

Lemma hasId_removeChild (j i : nat) (n : node) :
  hasId j (removeChild i n) = hasId j n.
Proof. now destruct n. Qed.

(** What is left below a node after [removeChild i] was there before and
    does not have identity [i]. *)
Lemma descendants_removeChild (i : nat) (n e : node) :
  In e (descendants (removeChild i n)) ->
  exists e0, In e0 (descendants n) /\ e = removeChild i e0 /\ idOf e0 <> i.
Proof.
  revert e.
  induction n as [j t a kids IH| |] using node_induction; simpl;
    try contradiction.
  intros e H. apply in_flat_map in H as (k' & Hk' & He).
  apply filter_In in Hk' as [Hk' Hid].
  apply in_map_iff in Hk' as (k & <- & Hk).
  rewrite Forall_forall in IH. specialize (IH k Hk).
  rewrite isElement_removeChild in He.
  destruct (isElement k) eqn:Ek; [|contradiction].
  destruct He as [<-|He].
  - exists k. split; [|split; [reflexivity|]].
    + apply in_flat_map. exists k. split; [exact Hk|]. rewrite Ek. now left.
    + rewrite hasId_removeChild in Hid. intros E.
      apply (@hasId_idOf i k Ek) in E. rewrite E in Hid. discriminate.
  - destruct (IH e He) as (e0 & H0 & E0 & N0). exists e0.
    split; [|split; assumption].
    apply in_flat_map. exists k. split; [exact Hk|]. rewrite Ek. now right.
Qed.

Lemma descendants_detach_all (l : list node) (tree e : node) :
  In e (descendants (fold_left detach l tree)) ->
  exists e0, In e0 (descendants tree) /\ idOf e = idOf e0 /\
             nameOf e = nameOf e0 /\ attributesOf e = attributesOf e0 /\
             forall s, In s l -> idOf e0 <> idOf s.
Proof.
  revert tree e; induction l as [|s l IH]; intros tree e H; simpl in H.
  - exists e. repeat split; auto.
  - destruct (IH _ _ H) as (e1 & H1 & I1 & N1 & A1 & F1).
    apply descendants_removeChild in H1 as (e0 & H0 & -> & Hne).
    exists e0. rewrite idOf_removeChild in I1, F1.
    rewrite nameOf_removeChild in N1. rewrite attributesOf_removeChild in A1.
    repeat split; try assumption.
    intros s' [<-|Hs']; [exact Hne | now apply F1].
Qed.

Section Extraction.

Variable innerHTML : node -> str.

Lemma fold_extractStep (l : list node) (tree : node) (rules : list rule) :
  fold_left (extractStep innerHTML) l (tree, rules) =
  (fold_left detach l tree,
   rules ++ flat_map (fun s => parseCSS (cssTextOf innerHTML s)) l).
Proof.
  revert tree rules; induction l as [|s l IH]; intros tree rules; simpl.
  - now rewrite app_nil_r.
  - unfold extractStep at 2. cbn [fst snd]. rewrite IH.
    now rewrite <- app_assoc.
Qed.

Lemma extractRules_spec (root : node) :
  extractRules innerHTML root =
  (fold_left detach (byName (lit "style") root) root,
   flat_map (fun s => parseCSS (cssTextOf innerHTML s))
     (byName (lit "style") root)).
Proof. unfold extractRules. now rewrite fold_extractStep. Qed.

Lemma extractRules_no_style (root : node) :
  byName (lit "style") (fst (extractRules innerHTML root)) = [].
Proof.
  rewrite extractRules_spec. cbn [fst].
  destruct (byName (lit "style")
              (fold_left detach (byName (lit "style") root) root))
    as [|e l] eqn:E; [reflexivity|].
  assert (He : In e (e :: l)) by now left.
  rewrite <- E in He. unfold byName at 1 in He.
  apply filter_In in He as [He Hn].
  apply descendants_detach_all in He as (e0 & H0 & _ & N0 & _ & F0).
  exfalso. apply (F0 e0); [|reflexivity].
  unfold byName. apply filter_In. split; [exact H0|]. now rewrite <- N0.
Qed.

End Extraction.

(** ** The rule parser *)

Lemma span_app (p : N -> bool) (a r : str) :
  forallb p a = true ->
  match r with c :: _ => p c = false | [] => True end ->
  span p (a ++ r) = (a, r).
Proof.
  intros Ha Hr. induction a as [|x a IH]; simpl in *.
  - destruct r as [|c r]; [reflexivity|]. simpl. now rewrite Hr.
  - apply andb_true_iff in Ha as [Hx Ha]. rewrite Hx, IH by assumption.
    reflexivity.
Qed.

Lemma span_append (p : N -> bool) (s a b : str) :
  span p s = (a, b) -> s = a ++ b.
Proof.
  revert a b; induction s as [|c s IH]; simpl; intros a b H.
  - now injection H as <- <-.
  - destruct (p c).
    + destruct (span p s) as [a' b']. injection H as <- <-.
      simpl. f_equal. now apply IH.
    + now injection H as <- <-.
Qed.

Lemma span_forallb (p : N -> bool) (s a b : str) :
  span p s = (a, b) -> forallb p a = true.
Proof.
  revert a b; induction s as [|c s IH]; simpl; intros a b H.
  - now injection H as <- <-.
  - destruct (p c) eqn:Hc.
    + destruct (span p s) as [a' b']. injection H as <- <-.
      simpl. rewrite Hc. now apply (IH a' b').
    + now injection H as <- <-.
Qed.

(** What a match of the rule pattern looks like. *)
Lemma ruleMatch_Some (s g1 g2 : str) (len : nat) :
  ruleMatch s = Some (g1, g2, len) ->
  g1 <> [] /\ forallb notBrace g1 = true /\ forallb notBrace g2 = true /\
  len = List.length g1 + List.length g2 + 2 /\
  exists rest, s = g1 ++ openBrace :: g2 ++ closeBrace :: rest.
Proof.
  unfold ruleMatch.
  destruct (span notBrace s) as [a r] eqn:E1.
  pose proof (span_forallb _ _ E1) as F1. apply span_append in E1. subst s.
  destruct a as [|x a]; [discriminate|].
  destruct r as [|c r']; [discriminate|].
  destruct (N.eqb_spec c openBrace) as [->|]; [|discriminate].
  destruct (span notBrace r') as [b r''] eqn:E2.
  pose proof (span_forallb _ _ E2) as F2. apply span_append in E2. subst r'.
  destruct r'' as [|d rest]; [discriminate|].
  destruct (N.eqb_spec d closeBrace) as [->|]; [|discriminate].
  intros H. injection H as <- <- <-.
  repeat split; try assumption; try discriminate. now exists rest.
Qed.

Lemma span_app_rest (p : N -> bool) (s t a b : str) :
  span p s = (a, b) -> b <> [] -> span p (s ++ t) = (a, b ++ t).
Proof.
  revert a b; induction s as [|c s IH]; simpl; intros a b E Hb.
  - injection E as <- <-. congruence.
  - destruct (p c).
    + destruct (span p s) as [a' b'] eqn:E'. injection E as <- <-.
      now rewrite (IH a' b' eq_refl Hb).
    + now injection E as <- <-.
Qed.

Lemma ruleMatch_block (g1 g2 rest : str) :
  g1 <> [] -> forallb notBrace g1 = true -> forallb notBrace g2 = true ->
  ruleMatch (g1 ++ openBrace :: g2 ++ closeBrace :: rest) =
  Some (g1, g2, List.length g1 + List.length g2 + 2).
Proof.
  intros Hne H1 H2. unfold ruleMatch.
  rewrite span_app by (assumption || reflexivity).
  destruct g1 as [|x g1]; [congruence|].
  rewrite N.eqb_refl.
  rewrite span_app by (assumption || reflexivity).
  now rewrite N.eqb_refl.
Qed.

Lemma execAll_skip (a r : str) (n : nat) :
  execAll (List.length a + n) (a ++ r) = execAll n r.
Proof. induction a as [|x a IH]; simpl; [reflexivity | exact IH]. Qed.

Lemma execAll_overrun (s : str) (n : nat) :
  List.length s <= n -> execAll n s = [].
Proof.
  revert n; induction s as [|x s IH]; intros n H; simpl; [reflexivity|].
  simpl in H. destruct n; [lia|]. apply IH. lia.
Qed.

Lemma execAll_braceless (t : str) (n : nat) :
  forallb notBrace t = true -> execAll n t = [].
Proof.
  revert n; induction t as [|c t IH]; intros n H; simpl; [reflexivity|].
  simpl in H. apply andb_true_iff in H as [Hc Ht].
  destruct n; [|now apply IH].
  unfold ruleMatch.
  replace (c :: t) with ((c :: t) ++ []) by apply app_nil_r.
  rewrite span_app; [now apply IH | | exact I].
  simpl. now rewrite Hc, Ht.
Qed.

Lemma trim_nonempty (s : str) : trim s <> [] -> s <> [].
Proof. intros H ->. now apply H. Qed.

Lemma execAll_blocks (blocks : list (str * str)) (tail : str) :
  Forall WellFormedBlock blocks -> forallb notBrace tail = true ->
  execAll 0 (List.concat (map blockText blocks) ++ tail) = blocks.
Proof.
  intros H Ht. induction H as [|[g1 g2] bs (H1 & H2 & T1 & T2) Hbs IH].
  - simpl. now apply execAll_braceless.
  - cbn [map List.concat]. unfold blockText at 1. cbn [fst snd] in *.
    apply trim_nonempty in T1.
    destruct g1 as [|x g1]; [congruence|].
    rewrite <- !app_assoc. cbn [app execAll].
    change (x :: g1 ++ openBrace :: g2 ++ closeBrace ::
              (List.concat (map blockText bs) ++ tail))
      with ((x :: g1) ++ openBrace :: g2 ++ closeBrace ::
              (List.concat (map blockText bs) ++ tail)).
    rewrite ruleMatch_block by (assumption || discriminate). f_equal.
    replace (g1 ++ openBrace :: g2 ++ closeBrace ::
               (List.concat (map blockText bs) ++ tail))
      with ((g1 ++ openBrace :: g2 ++ [closeBrace]) ++
               (List.concat (map blockText bs) ++ tail)).
    2:{ rewrite <- app_assoc. cbn [app]. now rewrite <- app_assoc. }
    replace (List.length (x :: g1) + List.length g2 + 2 - 1)
      with (List.length (g1 ++ openBrace :: g2 ++ [closeBrace]) + 0).
    2:{ rewrite length_app. cbn [List.length]. rewrite length_app.
        cbn [List.length]. lia. }
    rewrite execAll_skip. exact IH.
Qed.

Lemma ruleOfMatch_block (b : str * str) :
  WellFormedBlock b -> ruleOfMatch b = [ruleOfBlock b].
Proof.
  intros (_ & _ & T1 & T2). unfold ruleOfMatch.
  apply truthy_true in T1, T2. now rewrite T1, T2.
Qed.

Lemma parseCSS_blocks (blocks : list (str * str)) (tail : str) :
  Forall WellFormedBlock blocks -> forallb notBrace tail = true ->
  parseCSS (List.concat (map blockText blocks) ++ tail) = map ruleOfBlock blocks.
Proof.
  intros H Ht. unfold parseCSS. rewrite execAll_blocks by assumption.
  induction H as [|b bs Hb Hbs IH]; [reflexivity|].
  cbn [flat_map map]. rewrite ruleOfMatch_block by assumption.
  now rewrite IH.
Qed.

(** ** Blocks in their context *)









(** ** Style elements and the style sheet text *)



(** ** Sub-lists *)

Lemma Sub_refl (A : Type) (l : list A) : Sub l l.
Proof. induction l; [apply Sub_nil | now apply Sub_keep]. Qed.

Lemma Sub_nil_l (A : Type) (l : list A) : Sub [] l.
Proof. induction l; [apply Sub_nil | now apply Sub_skip]. Qed.

Lemma Sub_app (A : Type) (a a' b b' : list A) :
  Sub a a' -> Sub b b' -> Sub (a ++ b) (a' ++ b').
Proof.
  induction 1 as [|x l l' H IH|x l l' H IH]; intros Hb; simpl.
  - exact Hb.
  - apply Sub_skip. now apply IH.
  - apply Sub_keep. now apply IH.
Qed.

Lemma Sub_In (A : Type) (l l' : list A) (x : A) : Sub l l' -> In x l -> In x l'.
Proof.
  induction 1 as [|y l l' H IH|y l l' H IH]; simpl; intros Hin.
  - exact Hin.
  - right. now apply IH.
  - destruct Hin as [E|Hin]; [now left | right; now apply IH].
Qed.

Lemma Sub_trans (A : Type) (a b c : list A) : Sub a b -> Sub b c -> Sub a c.
Proof.
  intros Hab Hbc. revert a Hab.
  induction Hbc as [|x l l' H IH|x l l' H IH]; intros a Hab.
  - exact Hab.
  - apply Sub_skip. now apply IH.
  - inversion Hab; subst; [apply Sub_skip | apply Sub_keep]; now apply IH.
Qed.

Lemma Sub_NoDup (A : Type) (l l' : list A) : Sub l l' -> NoDup l' -> NoDup l.
Proof.
  induction 1 as [|x l l' H IH|x l l' H IH]; intros Hd.
  - constructor.
  - inversion Hd; subst. auto.
  - inversion Hd as [|? ? Hx Hd']; subst. constructor; [|auto].
    intros Hin. apply Hx. eapply Sub_In; eauto.
Qed.

Lemma NoDup_map_injective (A B : Type) (f : A -> B) (l : list A) (x y : A) :
  NoDup (map f l) -> In x l -> In y l -> f x = f y -> x = y.
Proof.
  induction l as [|z l IH]; simpl; [contradiction|].
  intros Hd Hx Hy E. inversion Hd as [|? ? Hz Hd']; subst.
  destruct Hx as [->|Hx], Hy as [->|Hy]; try reflexivity.
  - exfalso. apply Hz. rewrite E. now apply in_map.
  - exfalso. apply Hz. rewrite <- E. now apply in_map.
  - now apply IH.
Qed.

(** ** Identities are kept *)

Lemma descendants_ids_removeChild (i : nat) (n : node) :
  Sub (map idOf (descendants (removeChild i n))) (map idOf (descendants n)).
Proof.
  induction n as [j t a kids IH| |] using node_induction; simpl;
    try apply Sub_nil.
  induction IH as [|k kids Hk _ IHk]; simpl; [apply Sub_nil|].
  rewrite hasId_removeChild.
  destruct (hasId i k) eqn:Ei; simpl.
  - rewrite map_app. change (map idOf (flat_map _ (filter _ (map _ kids))))
      with ([] ++ map idOf
              (flat_map (fun k0 => if isElement k0 then k0 :: descendants k0 else [])
                 (filter (fun k0 => negb (hasId i k0)) (map (removeChild i) kids)))).
    apply Sub_app; [apply Sub_nil_l | exact IHk].
  - rewrite !map_app. apply Sub_app; [|exact IHk].
    rewrite isElement_removeChild. destruct (isElement k); [|apply Sub_nil].
    simpl. rewrite idOf_removeChild. now apply Sub_keep.
Qed.

Lemma ids_removeChild (i : nat) (n : node) : Sub (ids (removeChild i n)) (ids n).
Proof.
  unfold ids, elements. rewrite isElement_removeChild.
  destruct (isElement n); [|apply Sub_nil].
  simpl. rewrite idOf_removeChild. apply Sub_keep.
  apply descendants_ids_removeChild.
Qed.

Lemma ids_detach_all (l : list node) (tree : node) :
  Sub (ids (fold_left detach l tree)) (ids tree).
Proof.
  revert tree; induction l as [|s l IH]; intros tree; simpl.
  - apply Sub_refl.
  - eapply Sub_trans; [apply IH | apply ids_removeChild].
Qed.

Lemma descendants_ids_updateAttributes (i : nat) (f : attrs -> attrs) (n : node) :
  map idOf (descendants (updateAttributes i f n)) = map idOf (descendants n).
Proof.
  rewrite descendants_updateAttributes, map_map.
  apply map_ext. intros e. apply idOf_updateAttributes.
Qed.

Lemma descendants_names_updateAttributes (i : nat) (f : attrs -> attrs) (n : node) :
  map nameOf (descendants (updateAttributes i f n)) = map nameOf (descendants n).
Proof.
  rewrite descendants_updateAttributes, map_map.
  apply map_ext. intros e. apply nameOf_updateAttributes.
Qed.

Lemma ids_replay (ms : list merge) (tree : node) :
  ids (replay tree ms) = ids tree /\
  map idOf (descendants (replay tree ms)) = map idOf (descendants tree) /\
  map nameOf (descendants (replay tree ms)) = map nameOf (descendants tree).
Proof.
  unfold replay. revert tree; induction ms as [|m ms IH]; intros tree; simpl.
  - auto.
  - destruct (IH (applyStylesToElement (snd m) (styles (fst m)) tree))
      as (I1 & I2 & I3).
    unfold applyStylesToElement in *.
    rewrite I1, I2, I3, ids_updateAttributes,
      descendants_ids_updateAttributes, descendants_names_updateAttributes.
    auto.
Qed.

(** ** The class attribute under merges *)

Lemma classAttr_not_style : classAttr <> styleAttr.
Proof. discriminate. Qed.

Lemma getAttribute_class_applyStyles (newStyles : JsObject.t) (a : attrs) :
  getAttribute classAttr (applyStyles newStyles a) = getAttribute classAttr a.
Proof.
  unfold applyStyles. apply getAttribute_setAttribute_other.
  apply classAttr_not_style.
Qed.

Lemma getAttribute_removeAttribute (name : str) (a : attrs) :
  getAttribute name (removeAttribute name a) = None.
Proof.
  unfold removeAttribute. induction a as [|[k v] a IH]; simpl; [reflexivity|].
  destruct (eqb k name) eqn:E; simpl; [exact IH|]. now rewrite E.
Qed.

Lemma classAt_updateAttributes (j i : nat) (f : attrs -> attrs) (tree : node) :
  classAt j (updateAttributes i f tree) =
  if Nat.eqb j i
  then match attributesAt j tree with
       | Some a => getAttribute classAttr (f a)
       | None => None
       end
  else classAt j tree.
Proof.
  unfold classAt. rewrite attributesAt_updateAttributes.
  destruct (Nat.eqb j i); [|reflexivity].
  now destruct (attributesAt j tree).
Qed.

Lemma classAt_applyStylesToElement (j i : nat) (r : JsObject.t) (tree : node) :
  classAt j (applyStylesToElement i r tree) = classAt j tree.
Proof.
  unfold applyStylesToElement. rewrite classAt_updateAttributes.
  destruct (Nat.eqb j i); [|reflexivity]. unfold classAt.
  destruct (attributesAt j tree); [|reflexivity].
  apply getAttribute_class_applyStyles.
Qed.

Lemma classAt_replay (j : nat) (ms : list merge) (tree : node) :
  classAt j (replay tree ms) = classAt j tree.
Proof.
  unfold replay. revert tree; induction ms as [|m ms IH]; intros tree; simpl;
    [reflexivity|].
  now rewrite IH, classAt_applyStylesToElement.
Qed.

Lemma classAt_removed (j i : nat) (tree : node) :
  classAt j (updateAttributes i (removeAttribute classAttr) tree) =
  if Nat.eqb j i then None else classAt j tree.
Proof.
  rewrite classAt_updateAttributes. destruct (Nat.eqb j i); [|reflexivity].
  destruct (attributesAt j tree); [|reflexivity].
  apply getAttribute_removeAttribute.
Qed.

(** ** The two passes *)

Lemma replay_app (tree : node) (a b : list merge) :
  replay tree (a ++ b) = replay (replay tree a) b.
Proof. unfold replay. apply fold_left_app. Qed.

Lemma fold_mergeInto (r : rule) (els : list nat) (c : conversion) :
  fold_left (mergeInto r) els c =
  mkConversion (replay (svg c) (map (pair r) els)) (convertedStyles c)
    (processedElements c + List.length els) (cssRules c).
Proof.
  revert c; induction els as [|e els IH]; intros c; simpl.
  - destruct c. simpl. now rewrite Nat.add_0_r.
  - rewrite IH. unfold mergeInto at 1 2 3 4. simpl. f_equal. lia.
Qed.

Lemma fold_mergeInto_if (m : rule -> bool) (e : nat) (rules : list rule)
  (c : conversion) :
  fold_left (fun c r => if m r then mergeInto r c e else c) rules c =
  mkConversion (replay (svg c) (map (fun r => (r, e)) (filter m rules)))
    (convertedStyles c)
    (processedElements c + List.length (filter m rules)) (cssRules c).
Proof.
  revert c; induction rules as [|r rules IH]; intros c; simpl.
  - destruct c. simpl. now rewrite Nat.add_0_r.
  - rewrite IH. destruct (m r); [|reflexivity].
    unfold mergeInto. simpl. f_equal. lia.
Qed.

Section Passes.

Variable querySelectorAll : str -> node -> option (list nat).

Lemma applyRules_spec (rules : list rule) (c c' : conversion) :
  applyRules querySelectorAll rules c = inr c' ->
  svg c' = replay (svg c) (structuralMerges querySelectorAll rules (svg c)) /\
  convertedStyles c' = convertedStyles c + List.length rules /\
  processedElements c' =
    processedElements c +
    List.length (structuralMerges querySelectorAll rules (svg c)) /\
  cssRules c' = cssRules c.
Proof.
  revert c; induction rules as [|r rules IH]; intros c H; simpl in *.
  - injection H as <-. repeat split; lia.
  - destruct (querySelectorAll (selector r) (svg c)) as [els|]; [|discriminate].
    apply IH in H. rewrite fold_mergeInto in H. simpl in H.
    destruct H as (H1 & H2 & H3 & H4).
    rewrite replay_app, length_app, length_map.
    split; [exact H1|]. split; [rewrite H2; lia|].
    split; [rewrite H3; symmetry; apply Nat.add_assoc | exact H4].
Qed.

Lemma applyRules_total (rules : list rule) (c : conversion) :
  (forall r tree, In r rules -> querySelectorAll (selector r) tree <> None) ->
  exists c', applyRules querySelectorAll rules c = inr c'.
Proof.
  revert c; induction rules as [|r rules IH]; intros c Hq; simpl.
  - now exists c.
  - destruct (querySelectorAll (selector r) (svg c)) as [els|] eqn:E.
    + apply IH. intros r' tree Hin. apply Hq. now right.
    + exfalso. apply (Hq r (svg c)); [now left | exact E].
Qed.

Lemma applyRules_error (rules : list rule) (c : conversion) (e : error) :
  applyRules querySelectorAll rules c = inl e ->
  exists r tree, In r rules /\ e = SelectorSyntaxError (selector r) /\
                 querySelectorAll (selector r) tree = None.
Proof.
  revert c; induction rules as [|r rules IH]; intros c H; simpl in *;
    [discriminate|].
  destruct (querySelectorAll (selector r) (svg c)) as [els|] eqn:E.
  - apply IH in H as (r' & tree & Hin & He & Hq).
    exists r', tree. auto.
  - injection H as <-. exists r, (svg c). auto.
Qed.

End Passes.

Lemma classStep_spec (c : conversion) (e : nat) :
  classStep c e =
  match classAt e (svg c) with
  | Some className =>
      if truthy className then
        let ms := map (fun r => (r, e))
                    (filter (fun r => classSelectorMatches r className)
                       (cssRules c)) in
        mkConversion
          (updateAttributes e (removeAttribute classAttr) (replay (svg c) ms))
          (convertedStyles c) (processedElements c + List.length ms) (cssRules c)
      else c
  | None => c
  end.
Proof.
  unfold classStep. destruct (classAt e (svg c)) as [cn|]; [|reflexivity].
  destruct (truthy cn); [|reflexivity].
  rewrite fold_mergeInto_if. cbn zeta. unfold withSvg. simpl.
  now rewrite length_map.
Qed.

Lemma classPass_counters (els : list nat) (c : conversion) :
  let c' := fold_left classStep els c in
  cssRules c' = cssRules c /\ convertedStyles c' = convertedStyles c /\
  processedElements c' =
    processedElements c +
    List.length (fallbackMerges (cssRules c) els (svg c)).
Proof.
  revert c; induction els as [|e els IH]; intros c; simpl.
  - repeat split; lia.
  - destruct (IH (classStep c e)) as (H1 & H2 & H3).
    rewrite H1, H2, H3. rewrite classStep_spec.
    destruct (classAt e (svg c)) as [cn|]; [|repeat split; lia].
    destruct (truthy cn); [|repeat split; lia].
    cbv zeta. cbn [svg convertedStyles processedElements cssRules].
    rewrite length_app. split; [reflexivity|]. split; [reflexivity|].
    symmetry. apply Nat.add_assoc.
Qed.

Lemma classStep_ids (c : conversion) (e : nat) :
  ids (svg (classStep c e)) = ids (svg c) /\
  map idOf (descendants (svg (classStep c e))) = map idOf (descendants (svg c)) /\
  map nameOf (descendants (svg (classStep c e))) =
    map nameOf (descendants (svg c)).
Proof.
  rewrite classStep_spec.
  destruct (classAt e (svg c)) as [cn|]; [|auto].
  destruct (truthy cn); [|auto]. cbv zeta. cbn [svg].
  rewrite ids_updateAttributes, descendants_ids_updateAttributes,
    descendants_names_updateAttributes.
  apply ids_replay.
Qed.

Lemma classPass_ids (els : list nat) (c : conversion) :
  ids (svg (fold_left classStep els c)) = ids (svg c) /\
  map idOf (descendants (svg (fold_left classStep els c))) =
    map idOf (descendants (svg c)) /\
  map nameOf (descendants (svg (fold_left classStep els c))) =
    map nameOf (descendants (svg c)).
Proof.
  revert c; induction els as [|e els IH]; intros c; simpl; [auto|].
  destruct (IH (classStep c e)) as (H1 & H2 & H3).
  destruct (classStep_ids c e) as (S1 & S2 & S3).
  rewrite H1, H2, H3. auto.
Qed.

Lemma classAt_classStep (i : nat) (c : conversion) (e : nat) :
  classAt i (svg (classStep c e)) =
  if Nat.eqb i e && truthyOpt (classAt e (svg c)) then None
  else classAt i (svg c).
Proof.
  rewrite classStep_spec.
  destruct (classAt e (svg c)) as [cn|] eqn:E; simpl;
    [|now rewrite andb_false_r].
  destruct (truthy cn); simpl; [|now rewrite andb_false_r].
  cbv zeta. cbn [svg]. rewrite classAt_removed, andb_true_r.
  destruct (Nat.eqb i e); [reflexivity | apply classAt_replay].
Qed.

Lemma classAt_classPass (i : nat) (els : list nat) (c : conversion) :
  classAt i (svg (fold_left classStep els c)) =
  if existsb (Nat.eqb i) els && truthyOpt (classAt i (svg c)) then None
  else classAt i (svg c).
Proof.
  revert c; induction els as [|e els IH]; intros c; simpl; [reflexivity|].
  rewrite IH, classAt_classStep.
  destruct (Nat.eqb i e) eqn:E; simpl.
  - apply Nat.eqb_eq in E. subst e.
    destruct (truthyOpt (classAt i (svg c))) eqn:T; simpl.
    + now rewrite andb_false_r.
    + rewrite T. now rewrite andb_false_r.
  - reflexivity.
Qed.

(** ** Claims about the conversion *)

Section Conversion.

Variable querySelectorAll : str -> node -> option (list nat).
Variable innerHTML : node -> str.

(** The conversion, unfolded into its three phases. *)
Lemma convertEmbeddedCSSToInline_phases (root : node) (c : conversion) :
  convertEmbeddedCSSToInline querySelectorAll innerHTML root = inr c ->
  let tree0 := fst (extractRules innerHTML root) in
  let rules := snd (extractRules innerHTML root) in
  let sm := structuralMerges querySelectorAll rules tree0 in
  let tree1 := replay tree0 sm in
  c = fold_left classStep (map idOf (byAttribute classAttr tree1))
        (mkConversion tree1 (List.length rules) (List.length sm) rules).
Proof.
  unfold convertEmbeddedCSSToInline.
  destruct (extractRules innerHTML root) as [tree0 rules]. cbn [fst snd].
  destruct (applyRules querySelectorAll rules (mkConversion tree0 0 0 rules))
    as [e|c1] eqn:E; [discriminate|].
  intros H. injection H as <-.
  apply applyRules_spec in E. cbn [svg convertedStyles processedElements cssRules] in E.
  destruct E as (E1 & E2 & E3 & E4). destruct c1 as [t1 n1 m1 r1].
  cbn [svg convertedStyles processedElements cssRules] in *. now subst.
Qed.

Lemma convertEmbeddedCSSToInline_total (root : node) :
  (forall r tree, In r (snd (extractRules innerHTML root)) ->
                  querySelectorAll (selector r) tree <> None) ->
  exists c, convertEmbeddedCSSToInline querySelectorAll innerHTML root = inr c.
Proof.
  intros Hq. unfold convertEmbeddedCSSToInline.
  destruct (extractRules innerHTML root) as [tree0 rules]. cbn [snd] in Hq.
  destruct (@applyRules_total querySelectorAll rules
              (mkConversion tree0 0 0 rules) Hq) as [c1 E].
  rewrite E. eauto.
Qed.

Lemma convertEmbeddedCSSToInline_error (root : node) (e : error) :
  convertEmbeddedCSSToInline querySelectorAll innerHTML root = inl e ->
  exists r tree, In r (snd (extractRules innerHTML root)) /\
                 e = SelectorSyntaxError (selector r) /\
                 querySelectorAll (selector r) tree = None.
Proof.
  unfold convertEmbeddedCSSToInline.
  destruct (extractRules innerHTML root) as [tree0 rules]. cbn [snd].
  destruct (applyRules querySelectorAll rules (mkConversion tree0 0 0 rules))
    as [e'|c1] eqn:E; [|discriminate].
  intros H. injection H as <-. eapply applyRules_error; eauto.
Qed.

(** C1, as amended.  In a tree whose elements have distinct identities,
    every element below the root that carries a non-empty class attribute
    has no class attribute after a successful conversion, whether or not
    a rule matched it. *)
Theorem class_stripped (root : node) (c : conversion) (e0 e : node) (cls : str) :
  NoDup (ids root) ->
  convertEmbeddedCSSToInline querySelectorAll innerHTML root = inr c ->
  In e0 (descendants root) ->
  getAttribute classAttr (attributesOf e0) = Some cls -> cls <> [] ->
  In e (descendants (svg c)) -> idOf e = idOf e0 ->
  getAttribute classAttr (attributesOf e) = None.
Proof.
  intros Hd Hc He0 Hcls Hne He Hid.
  apply convertEmbeddedCSSToInline_phases in Hc. cbv zeta in Hc.
  rewrite extractRules_spec in Hc. cbn [fst snd] in Hc.
  set (tree0 := fold_left detach (byName (lit "style") root) root) in *.
  set (rules := flat_map (fun s => parseCSS (cssTextOf innerHTML s))
                  (byName (lit "style") root)) in *.
  set (sm := structuralMerges querySelectorAll rules tree0) in *.
  set (tree1 := replay tree0 sm) in *.
  set (els := map idOf (byAttribute classAttr tree1)) in *.
  set (c1 := mkConversion tree1 (List.length rules) (List.length sm) rules) in *.
  (* identities *)
  assert (D0 : NoDup (ids tree0))
    by (eapply Sub_NoDup; [apply ids_detach_all | exact Hd]).
  destruct (ids_replay sm tree0) as (I1 & I1d & _). fold tree1 in I1, I1d.
  assert (D1 : NoDup (ids tree1)) by now rewrite I1.
  destruct (classPass_ids els c1) as (I2 & I2d & _).
  rewrite <- Hc in I2, I2d. cbn [svg c1] in I2, I2d.
  assert (D2 : NoDup (ids (svg c))) by now rewrite I2.
  (* the element is in the tree after extraction, with its class *)
  assert (Hi1 : In (idOf e) (map idOf (descendants tree1)))
    by (rewrite <- I2d; now apply in_map).
  assert (Hi0 : In (idOf e) (map idOf (descendants tree0)))
    by now rewrite <- I1d.
  apply in_map_iff in Hi0 as (x0 & Hx0 & Hin0).
  destruct (descendants_detach_all _ _ _ Hin0) as (y & Hy & Y1 & _ & Y3 & _).
  assert (y = e0).
  { apply (NoDup_map_injective idOf (elements root)); try assumption.
    - now apply descendants_elements.
    - now apply descendants_elements.
    - congruence. }
  subst y.
  assert (C0 : classAt (idOf e) tree0 = Some cls).
  { unfold classAt, attributesAt. rewrite <- Hx0.
    rewrite find_unique by (assumption || now apply descendants_elements).
    simpl. congruence. }
  assert (C1 : classAt (idOf e) tree1 = Some cls)
    by (unfold tree1; now rewrite classAt_replay).
  (* it is in the list of the class pass *)
  apply in_map_iff in Hi1 as (x1 & Hx1 & Hin1).
  assert (Hels : existsb (Nat.eqb (idOf e)) els = true).
  { apply existsb_exists. exists (idOf e). split; [|apply Nat.eqb_refl].
    unfold els. rewrite <- Hx1. apply in_map. unfold byAttribute.
    apply filter_In. split; [exact Hin1|].
    assert (F : find (idOf x1) tree1 = Some x1)
      by (apply find_unique; [assumption | now apply descendants_elements]).
    unfold classAt, attributesAt in C1. rewrite <- Hx1, F in C1. simpl in C1.
    now rewrite C1. }
  (* and the class pass strips it *)
  assert (C2 : classAt (idOf e) (svg c) = None).
  { rewrite Hc, classAt_classPass. cbn [svg c1]. rewrite Hels, C1. simpl.
    apply truthy_true in Hne. now rewrite Hne. }
  unfold classAt, attributesAt in C2.
  rewrite find_unique in C2 by (assumption || now apply descendants_elements).
  exact C2.
Qed.

Lemma map_nameOf_filter (f : str -> bool) (l : list node) :
  map nameOf (filter (fun e => f (nameOf e)) l) = filter f (map nameOf l).
Proof.
  induction l as [|e l IH]; simpl; [reflexivity|].
  destruct (f (nameOf e)); simpl; now rewrite IH.
Qed.

Lemma byName_same_names (name : str) (tree tree' : node) :
  map nameOf (descendants tree') = map nameOf (descendants tree) ->
  byName name tree = [] -> byName name tree' = [].
Proof.
  unfold byName. intros E H.
  apply (f_equal (map nameOf)) in H.
  rewrite (map_nameOf_filter (fun n => eqb n name)) in H.
  rewrite <- E, <- (map_nameOf_filter (fun n => eqb n name)) in H.
  now apply map_eq_nil in H.
Qed.


(** C4.  When the conversion returns, its rule list is the extracted one,
    [convertedStyles] is the number of extracted rules, whatever they
    matched, and [processedElements] is the number of merges of the
    structural pass plus the number of merges of the class pass, a rule
    and element merged in both passes being counted in both.  It returns
    whenever the selector engine accepts the selector of every extracted
    rule. *)
Theorem counters_correct (root : node) :
  let tree0 := fst (extractRules innerHTML root) in
  let rules := snd (extractRules innerHTML root) in
  let structural := structuralMerges querySelectorAll rules tree0 in
  let tree1 := replay tree0 structural in
  let fallback :=
    fallbackMerges rules (map idOf (byAttribute classAttr tree1)) tree1 in
  (forall c,
     convertEmbeddedCSSToInline querySelectorAll innerHTML root = inr c ->
     cssRules c = rules /\
     convertedStyles c = List.length rules /\
     processedElements c = List.length (structural ++ fallback)) /\
  ((forall r tree, In r rules -> querySelectorAll (selector r) tree <> None) ->
   exists c, convertEmbeddedCSSToInline querySelectorAll innerHTML root = inr c).
Proof.
  cbv zeta. split; [|apply convertEmbeddedCSSToInline_total].
  intros c Hc. apply convertEmbeddedCSSToInline_phases in Hc. cbv zeta in *.
  set (tree0 := fst (extractRules innerHTML root)) in *.
  set (rules := snd (extractRules innerHTML root)) in *.
  set (sm := structuralMerges querySelectorAll rules tree0) in *.
  set (tree1 := replay tree0 sm) in *.
  set (els := map idOf (byAttribute classAttr tree1)) in *.
  destruct (classPass_counters els
              (mkConversion tree1 (List.length rules) (List.length sm) rules))
    as (H1 & H2 & H3).
  cbv zeta in H1, H2, H3. rewrite <- Hc in H1, H2, H3.
  cbn [svg convertedStyles processedElements cssRules] in H1, H2, H3.
  rewrite length_app. repeat split; assumption.
Qed.

End Conversion.

Lemma class_stripped_witness :
  Sample.convert Sample.styledRect = inr Sample.styledRectResult /\
  getAttribute classAttr (attributesOf Sample.rectAfter) = None.
Proof.
  split; [reflexivity|].
  apply (@class_stripped Sample.querySelectorAll Sample.innerHTML
           Sample.styledRect Sample.styledRectResult
           Sample.rectBefore Sample.rectAfter (lit "c")).
  - vm_compute. repeat constructor; simpl; intuition discriminate.
  - reflexivity.
  - right. left. reflexivity.
  - reflexivity.
  - discriminate.
  - left. reflexivity.
  - reflexivity.
Defined.

(** C1, as stated, fails: an empty class attribute stays, and so does the
    class attribute of the root element. *)
Lemma class_kept_when_empty_or_root :
  exists c,
    Sample.convert Sample.emptyClass = inr c /\
    classAt 1 Sample.emptyClass = Some [] /\ classAt 1 (svg c) = Some [] /\
    classAt 0 Sample.emptyClass = Some (lit "a") /\
    classAt 0 (svg c) = Some (lit "a") /\
    classAt 2 Sample.emptyClass = Some (lit "c") /\ classAt 2 (svg c) = None.
Proof.
  eexists. split; [reflexivity|]. repeat split.
Qed.



Lemma counters_correct_witness :
  convertedStyles Sample.styledRectResult = 1 /\
  processedElements Sample.styledRectResult = 2 /\
  exists c, Sample.convert Sample.styledRect = inr c.
Proof.
  destruct (@counters_correct Sample.querySelectorAll Sample.innerHTML
              Sample.styledRect) as [H T].
  destruct (H Sample.styledRectResult eq_refl) as (_ & H2 & H3).
  split; [exact H2|]. split; [exact H3|]. apply T.
  intros r tree [<-|[]]. discriminate.
Defined.

(** ** Claims about the entry point *)

Lemma querySelector_None (name : str) (doc : node) :
  querySelector name doc = None <-> ~ hasElementNamed name doc.
Proof.
  unfold querySelector, hasElementNamed. split.
  - intros H (e & Hin & Hn).
    apply (find_none _ _ H) in Hin. simpl in Hin.
    rewrite <- Hn, eqb_refl in Hin. discriminate.
  - intros H.
    destruct (List.find (fun e => eqb (nameOf e) name) (elements doc))
      as [e|] eqn:E; [|reflexivity].
    apply find_some in E as [Hin Hn]. apply eqb_eq in Hn.
    exfalso. apply H. now exists e.
Qed.

Section EntryPoint.

Variable parseFromString : str -> node.
Variable querySelectorAll : str -> node -> option (list nat).
Variable innerHTML : node -> str.
Variable serializeToString : node -> str.

(** C10.  On an input that is empty or all white space the conversion
    returns at once: it reports neither a converted document nor a
    failure. *)
Theorem convertSVG_blank (input : str) :
  Forall (fun ch => isWhiteSpace ch = true) input ->
  convertSVG parseFromString querySelectorAll innerHTML serializeToString
    input = Ready /\
  (forall output result,
     convertSVG parseFromString querySelectorAll innerHTML serializeToString
       input <> Converted output result) /\
  (forall e,
     convertSVG parseFromString querySelectorAll innerHTML serializeToString
       input <> Failed e).
Proof.
  intros H.
  assert (E : convertSVG parseFromString querySelectorAll innerHTML
                serializeToString input = Ready).
  { unfold convertSVG. now rewrite (trim_blank H). }
  rewrite E. repeat split; discriminate.
Qed.

(** C6, as amended.  The conversion fails with "Invalid SVG format"
    exactly when the input is not blank and the parsed document holds a
    [parsererror] element, and with "No SVG element found" exactly when
    the input is not blank and the document holds neither a [parsererror]
    element nor an [svg] element anywhere, at the root or below it.  A
    failure carries no converted output.  Any other failure is the
    selector engine rejecting the selector of an extracted rule: when it
    accepts them all, a document with an [svg] element and no
    [parsererror] element is converted, whatever its style sheets and
    inline styles hold. *)
Theorem convertSVG_failures (input : str) :
  let doc := parseFromString (trim input) in
  let answer :=
    convertSVG parseFromString querySelectorAll innerHTML serializeToString
      input in
  (answer = Failed InvalidSVGFormat <->
   trim input <> [] /\ hasElementNamed (lit "parsererror") doc) /\
  (answer = Failed NoSVGElementFound <->
   trim input <> [] /\ ~ hasElementNamed (lit "parsererror") doc /\
   ~ hasElementNamed (lit "svg") doc) /\
  (forall e output result,
     answer = Failed e -> answer <> Converted output result) /\
  (forall sel, answer = Failed (SelectorSyntaxError sel) ->
     exists root r tree,
       querySelector (lit "svg") doc = Some root /\
       In r (snd (extractRules innerHTML root)) /\ selector r = sel /\
       querySelectorAll sel tree = None) /\
  (forall root,
     trim input <> [] -> ~ hasElementNamed (lit "parsererror") doc ->
     querySelector (lit "svg") doc = Some root ->
     (forall r tree, In r (snd (extractRules innerHTML root)) ->
                     querySelectorAll (selector r) tree <> None) ->
     exists output result, answer = Converted output result).
Proof.
  intros doc answer. unfold answer, convertSVG. fold doc.
  destruct (truthy (trim input)) eqn:T; cbn [negb].
  2:{ apply truthy_false in T. repeat split; try discriminate; try tauto. }
  apply truthy_true in T.
  destruct (querySelector (lit "parsererror") doc) as [pe|] eqn:P.
  { assert (HP : hasElementNamed (lit "parsererror") doc).
    { unfold hasElementNamed. unfold querySelector in P.
      apply find_some in P as [Hin Hn]. apply eqb_eq in Hn. now exists pe. }
    repeat split; try discriminate; try tauto. }
  apply querySelector_None in P.
  destruct (querySelector (lit "svg") doc) as [root|] eqn:S.
  2:{ apply querySelector_None in S.
      repeat split; try discriminate; try tauto. }
  assert (HS : hasElementNamed (lit "svg") doc).
  { unfold querySelector in S. apply find_some in S as [Hin Hn].
    apply eqb_eq in Hn. now exists root. }
  destruct (convertEmbeddedCSSToInline querySelectorAll innerHTML root)
    as [e|c] eqn:C.
  - apply convertEmbeddedCSSToInline_error in C as (r & tree & Hr & -> & Hq).
    repeat split; try discriminate; try tauto.
    + intros sel H. injection H as <-. now exists root, r, tree.
    + intros root' _ _ E Hall. injection E as <-.
      exfalso. now apply (Hall r tree).
  - repeat split; try discriminate; try tauto.
    intros root' _ _ _ _. eauto.
Qed.

End EntryPoint.

Lemma convertSVG_blank_witness :
  convertSVG (fun _ => Sample.styledRect) Sample.querySelectorAll
    Sample.innerHTML Sample.serializeToString (lit "  " ++ [newline]) = Ready.
Proof.
  apply (@convertSVG_blank (fun _ => Sample.styledRect) Sample.querySelectorAll
           Sample.innerHTML Sample.serializeToString (lit "  " ++ [newline])).
  repeat constructor.
Defined.

Lemma convertSVG_failures_witness :
  exists output result,
    convertSVG (fun _ => Sample.styledRect) Sample.querySelectorAll
      Sample.innerHTML Sample.serializeToString (lit "<svg/>") =
    Converted output result.
Proof.
  destruct (@convertSVG_failures (fun _ => Sample.styledRect)
              Sample.querySelectorAll Sample.innerHTML
              Sample.serializeToString (lit "<svg/>")) as (_ & _ & _ & _ & H).
  apply (H Sample.styledRect).
  - discriminate.
  - apply querySelector_None. reflexivity.
  - reflexivity.
  - intros r tree [<-|[]]. discriminate.
Defined.

(** C6, as stated, fails: a document whose root element is not [svg] but
    which holds an [svg] element further down is converted without
    error; and a well-formed document with an [svg] root fails when its
    style sheet holds a block whose selector text the engine rejects. *)
Lemma nested_svg_is_converted :
  (nameOf Sample.nestedSvg <> lit "svg" /\
   exists output result,
     convertSVG (fun _ => Sample.nestedSvg) Sample.querySelectorAll
       Sample.innerHTML Sample.serializeToString (lit "<g><svg/></g>") =
     Converted output result) /\
  (nameOf Sample.fontFace = lit "svg" /\
   ~ hasElementNamed (lit "parsererror") Sample.fontFace /\
   convertSVG (fun _ => Sample.fontFace) Sample.querySelectorAll
     Sample.innerHTML Sample.serializeToString
     (lit "<svg><style>@font-face{font-family:x}</style></svg>") =
   Failed (SelectorSyntaxError (lit "@font-face"))).
Proof.
  split.
  - split; [discriminate|]. eexists. eexists. reflexivity.
  - split; [reflexivity|]. split; [|reflexivity].
    apply querySelector_None. reflexivity.
Qed.

(** ** The pretty printer *)

Lemma hasBoundary_tail (c : N) (s : str) :
  hasBoundary (c :: s) = false -> hasBoundary s = false.
Proof.
  simpl. destruct s as [|b s]; [reflexivity|].
  intros H. apply orb_false_iff in H. tauto.
Qed.

Lemma hasBoundary_app (a r : str) :
  hasBoundary (a ++ greaterThan :: lessThan :: r) = true.
Proof.
  induction a as [|c a IH]; [reflexivity|].
  change ((c :: a) ++ greaterThan :: lessThan :: r)
    with (c :: (a ++ greaterThan :: lessThan :: r)).
  cbn [hasBoundary]. destruct (a ++ greaterThan :: lessThan :: r) eqn:E.
  - destruct a; discriminate.
  - rewrite IH. apply orb_true_r.
Qed.

Lemma closingTag_shape (s t r : str) :
  closingTag s = Some (t, r) ->
  (exists t', s = t' ++ greaterThan :: r) /\ exists s', s = lessThan :: s'.
Proof.
  unfold closingTag. destruct s as [|a [|b s]]; try discriminate.
  destruct (N.eqb_spec a lessThan) as [->|]; [|discriminate].
  destruct (N.eqb b slash); [|discriminate]. cbn [andb].
  destruct (span isAlnum s) as [name r'] eqn:E.
  apply span_append in E. subst s.
  destruct name as [|x name]; [discriminate|].
  destruct r' as [|c r'']; [discriminate|].
  destruct (N.eqb_spec c greaterThan) as [->|]; [|discriminate].
  intros H. injection H as <- <-. split; [|eauto].
  exists (lessThan :: b :: x :: name). reflexivity.
Qed.

Lemma openingTag_shape (s t r : str) :
  openingTag s = Some (t, r) ->
  (exists t', s = t' ++ greaterThan :: r) /\ exists s', s = lessThan :: s'.
Proof.
  unfold openingTag. destruct s as [|a [|b s]]; try discriminate.
  destruct (N.eqb_spec a lessThan) as [->|]; [|discriminate].
  destruct (isAlnum b); [|discriminate]. cbn [andb].
  destruct (span notGreaterThan s) as [body r'] eqn:E.
  assert (Hr : match r' with c :: _ => notGreaterThan c = false | [] => True end).
  { clear -E. revert body r' E. induction s as [|c s IH]; simpl; intros body r' E.
    - now injection E as <- <-.
    - destruct (notGreaterThan c) eqn:Hc.
      + destruct (span notGreaterThan s) as [a' b'].
        injection E as <- <-. now apply (IH a').
      + injection E as <- <-. exact Hc. }
  apply span_append in E. subst s.
  destruct r' as [|c r'']; [discriminate|].
  unfold notGreaterThan in Hr. apply negb_false_iff, N.eqb_eq in Hr. subst c.
  intros H. injection H as <- <-. split; [|eauto].
  exists (lessThan :: b :: body). reflexivity.
Qed.

Lemma matchClosingPair_boundary (s : str) :
  matchClosingPair s <> None -> hasBoundary s = true.
Proof.
  unfold matchClosingPair.
  destruct (closingTag s) as [[t1 r]|] eqn:E1; [|congruence].
  destruct (closingTag r) as [[t2 r2]|] eqn:E2; [|congruence].
  intros _. apply closingTag_shape in E1 as [(t' & ->) _].
  apply closingTag_shape in E2 as [_ (s' & ->)]. apply hasBoundary_app.
Qed.

Lemma matchOpeningPair_boundary (s : str) :
  matchOpeningPair s <> None -> hasBoundary s = true.
Proof.
  unfold matchOpeningPair.
  destruct (openingTag s) as [[t1 r]|] eqn:E1; [|congruence].
  destruct (openingTag r) as [[t2 r2]|] eqn:E2; [|congruence].
  intros _. apply openingTag_shape in E1 as [(t' & ->) _].
  apply openingTag_shape in E2 as [_ (s' & ->)]. apply hasBoundary_app.
Qed.

(** A replacement whose pattern needs a boundary leaves a text without
    boundaries as it is. *)
Lemma replaceAll_fixed (m : str -> option (str * nat)) :
  (forall s, m s <> None -> hasBoundary s = true) ->
  forall s, hasBoundary s = false -> replaceAll m 0 s = s.
Proof.
  intros Hm. induction s as [|c s IH]; intros H; [reflexivity|].
  cbn [replaceAll]. destruct (m (c :: s)) as [[rep len]|] eqn:E.
  - assert (B : hasBoundary (c :: s) = true) by (apply Hm; congruence).
    congruence.
  - f_equal. apply IH. now apply hasBoundary_tail in H.
Qed.

Lemma replaceAll_cons (m : str -> option (str * nat)) (c : N) (s : str) :
  replaceAll m 0 (c :: s) =
  match m (c :: s) with
  | Some (replacement, len) => replacement ++ replaceAll m (len - 1) s
  | None => c :: replaceAll m 0 s
  end.
Proof. reflexivity. Qed.

(** The first replacement leaves no boundary, and keeps the first
    character. *)
Lemma replaceAll_matchBoundary (n : nat) (s : str) :
  List.length s <= n ->
  hasBoundary (replaceAll matchBoundary 0 s) = false /\
  hd_error (replaceAll matchBoundary 0 s) = hd_error s.
Proof.
  revert s; induction n as [|n IH]; intros s Hlen.
  - destruct s; [now split | simpl in Hlen; lia].
  - destruct s as [|c [|b r]]; [now split | now split |].
    simpl in Hlen. rewrite replaceAll_cons.
    change (matchBoundary (c :: b :: r))
      with (if N.eqb c greaterThan && N.eqb b lessThan
            then Some ([greaterThan; newline; lessThan], 2) else None).
    destruct (N.eqb c greaterThan && N.eqb b lessThan) eqn:E.
    + apply andb_true_iff in E as [Ec Eb].
      apply N.eqb_eq in Ec, Eb. subst c b.
      change (replaceAll matchBoundary (2 - 1) (lessThan :: r))
        with (replaceAll matchBoundary 0 r).
      destruct (IH r) as [H1 H2]; [lia|].
      split; [|reflexivity].
      cbn [app hasBoundary].
      destruct (replaceAll matchBoundary 0 r) as [|d out] eqn:Eo;
        [reflexivity|].
      exact H1.
    + destruct (IH (b :: r)) as [H1 H2]; [simpl; lia|].
      split; [|reflexivity].
      destruct (replaceAll matchBoundary 0 (b :: r)) as [|d out] eqn:Eo;
        [reflexivity|].
      simpl in H2. injection H2 as ->.
      cbn [hasBoundary]. rewrite E. cbn [orb].
      exact H1.
Qed.

Lemma formatXML_two_steps (s : str) :
  formatXML s =
  replaceAll matchIndentedClosing 0 (replaceAll matchBoundary 0 s).
Proof.
  unfold formatXML.
  destruct (@replaceAll_matchBoundary (List.length s) s (le_n _)) as [H _].
  rewrite (@replaceAll_fixed matchClosingPair matchClosingPair_boundary)
    by exact H.
  now rewrite (@replaceAll_fixed matchOpeningPair matchOpeningPair_boundary)
    by exact H.
Qed.

(** C7, at the failing input.  No indent is ever inserted: after the
    first replacement no greater-than sign is directly followed by a
    less-than sign, so the second and third replacements find nothing to
    replace, and the printed text is the input with a newline at each
    boundary and with two spaces removed in front of each closing tag.
    For [<svg><g><rect/></g></svg>] every tag starts its line in the
    first column. *)
Theorem formatXML_inserts_no_indent :
  formatXML (lit "<svg><g><rect/></g></svg>") =
    lit "<svg>" ++ [newline] ++ lit "<g>" ++ [newline] ++ lit "<rect/>"
    ++ [newline] ++ lit "</g>" ++ [newline] ++ lit "</svg>" /\
  (forall s, hasBoundary (replaceAll matchBoundary 0 s) = false) /\
  (forall s, formatXML s =
             replaceAll matchIndentedClosing 0 (replaceAll matchBoundary 0 s)).
Proof.
  split; [reflexivity|]. split.
  - intros s. now apply (@replaceAll_matchBoundary (List.length s) s).
  - apply formatXML_two_steps.
Qed.

(** * Further properties *)

(** ** The enumeration order of property maps *)

Lemma comesBefore_false_precedes (k k' : str) :
  JsObject.comesBefore k k' = false -> precedes k' k.
Proof.
  unfold JsObject.comesBefore, precedes.
  destruct (JsObject.arrayIndex k) as [i|], (JsObject.arrayIndex k') as [j|];
    try discriminate; try tauto.
  intros H. apply N.ltb_ge in H. exact H.
Qed.

Lemma precedes_comesBefore_false (k k' : str) :
  precedes k' k -> JsObject.comesBefore k k' = false.
Proof.
  unfold JsObject.comesBefore, precedes.
  destruct (JsObject.arrayIndex k) as [i|], (JsObject.arrayIndex k') as [j|];
    try tauto.
  intros H. now apply N.ltb_ge.
Qed.

Lemma comesBefore_true_precedes (k k' k'' : str) :
  JsObject.comesBefore k k' = true ->
  precedes k k' /\ (precedes k' k'' -> precedes k k'').
Proof.
  unfold JsObject.comesBefore, precedes.
  destruct (JsObject.arrayIndex k) as [i|], (JsObject.arrayIndex k') as [j|],
    (JsObject.arrayIndex k'') as [l|]; try discriminate; try tauto.
  - intros H. apply N.ltb_lt in H. split; lia.
  - intros H. apply N.ltb_lt in H. split; [lia | tauto].
Qed.

Lemma EnumerationOrder_insertKey (k v : str) (o : JsObject.t) :
  EnumerationOrder (JsObject.keys o) ->
  EnumerationOrder (JsObject.keys (JsObject.insertKey k v o)).
Proof.
  induction o as [|[k' v'] o IH]; simpl; [auto|].
  intros [Hk' Ho]. destruct (JsObject.comesBefore k k') eqn:E; simpl.
  - split; [|split; assumption]. constructor.
    + exact (proj1 (@comesBefore_true_precedes k k' k' E)).
    + rewrite Forall_forall in *. intros x Hx.
      apply (proj2 (@comesBefore_true_precedes k k' x E)). now apply Hk'.
  - split; [|now apply IH].
    rewrite Forall_forall in *. intros x Hx.
    apply JsObjectFacts.keys_insertKey in Hx as [->|Hx].
    + now apply comesBefore_false_precedes.
    + now apply Hk'.
Qed.

Lemma EnumerationOrder_defineOwn (k v : str) (o : JsObject.t) :
  EnumerationOrder (JsObject.keys o) ->
  EnumerationOrder (JsObject.keys (JsObject.defineOwn k v o)).
Proof.
  unfold JsObject.defineOwn. destruct (JsObject.hasOwn k o).
  - now rewrite JsObjectFacts.keys_replaceValue.
  - apply EnumerationOrder_insertKey.
Qed.

Lemma EnumerationOrder_fold_defineEntry (m o : JsObject.t) :
  EnumerationOrder (JsObject.keys o) ->
  EnumerationOrder (JsObject.keys (fold_left defineEntry m o)).
Proof.
  revert o; induction m as [|e m IH]; intros o Ho; simpl; [exact Ho|].
  apply IH. now apply EnumerationOrder_defineOwn.
Qed.

Lemma EnumerationOrder_fold_declarationStep (frags : list str) (o : JsObject.t) :
  EnumerationOrder (JsObject.keys o) ->
  EnumerationOrder (JsObject.keys (fold_left declarationStep frags o)).
Proof.
  revert o; induction frags as [|x l IH]; intros o Ho; simpl; [exact Ho|].
  apply IH. rewrite declarationStep_declarationOf.
  destruct (declarationOf x) as [[k w]|]; [|exact Ho].
  unfold JsObject.assign. destruct (eqb k JsObject.protoKey); [exact Ho|].
  now apply EnumerationOrder_defineOwn.
Qed.

Lemma EnumerationOrder_app (a b : list str) (x y : str) :
  EnumerationOrder (a ++ b) -> In x a -> In y b -> precedes x y.
Proof.
  induction a as [|z a IH]; simpl; [contradiction|].
  intros [Hz Ha] [->|Hx] Hy.
  - rewrite Forall_forall in Hz. apply Hz. apply in_or_app. now right.
  - now apply IH.
Qed.

Lemma insertKey_last (k v : str) (o : JsObject.t) :
  (forall k', In k' (JsObject.keys o) -> precedes k' k) ->
  JsObject.insertKey k v o = o ++ [(k, v)].
Proof.
  induction o as [|[k' v'] o IH]; simpl; intros H; [reflexivity|].
  rewrite precedes_comesBefore_false by (apply H; now left).
  f_equal. apply IH. intros x Hx. apply H. now right.
Qed.

(** Defining the entries of a map one after the other, in its own order,
    builds the same map again. *)
Lemma fold_defineEntry_rebuild (l acc : JsObject.t) :
  NoDup (JsObject.keys (acc ++ l)) ->
  EnumerationOrder (JsObject.keys (acc ++ l)) ->
  fold_left defineEntry l acc = acc ++ l.
Proof.
  revert acc; induction l as [|[k v] l IH]; intros acc Hd Ho; simpl.
  - now rewrite app_nil_r.
  - assert (E : acc ++ (k, v) :: l = (acc ++ [(k, v)]) ++ l)
      by (rewrite <- app_assoc; reflexivity).
    unfold defineEntry at 2. cbn [fst snd]. unfold JsObject.defineOwn.
    unfold JsObject.keys in Hd, Ho. rewrite map_app in Hd, Ho. cbn [map fst] in Hd, Ho.
    assert (Hn : ~ In k (JsObject.keys acc)).
    { apply NoDup_remove_2 in Hd. intros H. apply Hd. apply in_or_app. now left. }
    apply JsObjectFacts.hasOwn_false in Hn. rewrite Hn.
    rewrite insertKey_last.
    + rewrite IH; [now rewrite <- app_assoc | |]; rewrite <- E;
        unfold JsObject.keys; rewrite map_app; assumption.
    + intros k' Hk'. apply (EnumerationOrder_app _ _ _ _ Ho Hk'). now left.
Qed.

Lemma parseStyleDeclarations_order (s : str) :
  EnumerationOrder (JsObject.keys (parseStyleDeclarations s)).
Proof. apply EnumerationOrder_fold_declarationStep. exact I. Qed.

Lemma spread_order (a b : JsObject.t) :
  EnumerationOrder (JsObject.keys (JsObject.spread a b)).
Proof.
  rewrite spread_fold.
  apply EnumerationOrder_fold_defineEntry, EnumerationOrder_fold_defineEntry.
  exact I.
Qed.

(** Writing a parsed map as a style string and parsing it gives the map
    back. *)
Lemma parse_styleStringOf (m : JsObject.t) :
  Forall ParsedEntry m -> NoDup (JsObject.keys m) ->
  EnumerationOrder (JsObject.keys m) ->
  parseInlineStyle (styleStringOf m) = m.
Proof.
  intros Hm Hd Ho. rewrite parseInlineStyle_fold. unfold styleStringOf.
  destruct m as [|e m]; [reflexivity|].
  rewrite split_join.
  - rewrite fold_declarationStep_render by assumption.
    now apply (fold_defineEntry_rebuild (e :: m) []).
  - discriminate.
  - apply Forall_forall. intros f Hf. apply in_map_iff in Hf as (x & <- & Hx).
    apply render_no_semicolon. rewrite Forall_forall in Hm. now apply Hm.
Qed.

(** X1.  Every entry of a parsed declaration text has a non-empty
    property and a non-empty value, both without white space at their
    ends; the property holds no colon and no semicolon and is not
    [__proto__], the value holds no semicolon.  No property occurs twice,
    and the properties whose names are array indices come first, in
    ascending order. *)
Theorem parseStyleDeclarations_entries (declarations : str) :
  Forall ParsedEntry (parseStyleDeclarations declarations) /\
  NoDup (JsObject.keys (parseStyleDeclarations declarations)) /\
  EnumerationOrder (JsObject.keys (parseStyleDeclarations declarations)).
Proof.
  destruct (parseStyleDeclarations_parsed declarations) as [H1 H2].
  split; [exact H1|]. split; [exact H2|]. apply parseStyleDeclarations_order.
Qed.

(** X2.  Round trip: the style string written from a parsed map parses
    back to exactly that map, entries and order, so writing a style
    string is idempotent on what was parsed. *)
Theorem styleString_round_trip (declarations : str) :
  let m := parseStyleDeclarations declarations in
  parseInlineStyle (styleStringOf m) = m /\
  parseStyleDeclarations (styleStringOf m) = m /\
  styleStringOf (parseInlineStyle (styleStringOf m)) = styleStringOf m.
Proof.
  intros m.
  assert (E : parseInlineStyle (styleStringOf m) = m).
  { destruct (parseStyleDeclarations_parsed declarations).
    apply parse_styleStringOf; try assumption.
    apply parseStyleDeclarations_order. }
  split; [exact E|]. split; [|now rewrite E].
  rewrite <- E at 2. now rewrite parseInlineStyle_fold.
Qed.

(** ** Parsing a concatenation *)

Lemma split_app_general (sep : N) (a b : str) :
  split sep (a ++ sep :: b) = split sep a ++ split sep b.
Proof.
  induction a as [|c a IH]; simpl.
  - now rewrite N.eqb_refl.
  - destruct (N.eqb c sep); [now rewrite IH|].
    rewrite IH. pose proof (split_nonempty sep a) as Hne.
    destruct (split sep a) as [|f fs]; [congruence | reflexivity].
Qed.

Lemma get_declarationStep (p : str) (o : JsObject.t) (x : str) :
  JsObject.get p (declarationStep o x) =
  match declarationOf x with
  | Some (k, w) =>
      if negb (eqb k JsObject.protoKey) && eqb k p then Some w
      else JsObject.get p o
  | None => JsObject.get p o
  end.
Proof.
  rewrite declarationStep_declarationOf.
  destruct (declarationOf x) as [[k w]|]; [|reflexivity].
  unfold JsObject.assign. destruct (eqb k JsObject.protoKey); [reflexivity|].
  apply JsObjectFacts.get_defineOwn.
Qed.

Lemma get_fold_declarationStep_from (p : str) (frags : list str) (o : JsObject.t) :
  JsObject.get p (fold_left declarationStep frags o) =
  match JsObject.get p (fold_left declarationStep frags []) with
  | Some v => Some v
  | None => JsObject.get p o
  end.
Proof.
  induction frags as [|x l IH] using rev_ind; [reflexivity|].
  rewrite !fold_left_app. cbn [fold_left]. rewrite !get_declarationStep.
  destruct (declarationOf x) as [[k w]|]; [|exact IH].
  destruct (negb (eqb k JsObject.protoKey) && eqb k p); [reflexivity | exact IH].
Qed.

(** X3.  Parsing two declaration texts joined by a semicolon gives every
    property the value that merging the second parsed map over the first
    gives it: a later declaration overrides an earlier one exactly as an
    incoming rule overrides an inline style. *)
Theorem parse_joined_is_merge (first second p : str) :
  JsObject.get p (parseStyleDeclarations (first ++ [semicolon] ++ second)) =
  JsObject.get p (JsObject.spread (parseStyleDeclarations first)
                    (parseStyleDeclarations second)).
Proof.
  unfold parseStyleDeclarations at 1. cbn [app].
  rewrite split_app_general, fold_left_app.
  rewrite get_fold_declarationStep_from.
  rewrite get_spread by apply parseStyleDeclarations_parsed.
  reflexivity.
Qed.

(** ** The merger, once more *)

Lemma replaceValue_same (k v : str) (o : JsObject.t) :
  JsObject.get k o = Some v -> JsObject.replaceValue k v o = o.
Proof.
  induction o as [|[k' v'] o IH]; simpl; [reflexivity|].
  destruct (eqb k' k) eqn:E.
  - intros H. now injection H as ->.
  - intros H. now rewrite IH.
Qed.

Lemma get_Some_hasOwn (k v : str) (o : JsObject.t) :
  JsObject.get k o = Some v -> JsObject.hasOwn k o = true.
Proof.
  intros H. destruct (JsObject.hasOwn k o) eqn:E; [reflexivity|].
  apply JsObjectFacts.hasOwn_false, JsObjectFacts.get_None in E. congruence.
Qed.

Lemma get_In (k v : str) (o : JsObject.t) :
  NoDup (JsObject.keys o) -> In (k, v) o -> JsObject.get k o = Some v.
Proof.
  induction o as [|[k' v'] o IH]; simpl; [contradiction|].
  intros Hd [E|Hin].
  - injection E as -> ->. now rewrite eqb_refl.
  - inversion Hd as [|? ? Hk Hd']; subst.
    destruct (eqb k' k) eqn:E; [|now apply IH].
    apply eqb_eq in E. subst k'. exfalso. apply Hk.
    apply in_map_iff. now exists (k, v).
Qed.

Lemma fold_defineEntry_present (l m : JsObject.t) :
  (forall k v, In (k, v) l -> JsObject.get k m = Some v) ->
  fold_left defineEntry l m = m.
Proof.
  induction l as [|[k v] l IH]; intros H; simpl; [reflexivity|].
  assert (G : JsObject.get k m = Some v) by (apply H; now left).
  unfold defineEntry at 2. cbn [fst snd]. unfold JsObject.defineOwn.
  rewrite (get_Some_hasOwn _ _ G), (replaceValue_same _ _ G).
  apply IH. intros k' v' Hin. apply H. now right.
Qed.

Lemma setAttribute_twice (name v v' : str) (a : attrs) :
  setAttribute name v (setAttribute name v' a) = setAttribute name v a.
Proof.
  induction a as [|[k w] a IH]; simpl.
  - now rewrite eqb_refl.
  - destruct (eqb k name) eqn:E; simpl; rewrite E; [reflexivity | now rewrite IH].
Qed.

Lemma updateAttributes_twice (i : nat) (f g : attrs -> attrs) (n : node) :
  updateAttributes i g (updateAttributes i f n) =
  updateAttributes i (fun a => g (f a)) n.
Proof.
  induction n as [j t a kids IH| |] using node_induction; try reflexivity.
  cbn [updateAttributes]. f_equal.
  - now destruct (Nat.eqb j i).
  - rewrite map_map. apply map_ext_in. intros k Hk.
    rewrite Forall_forall in IH. now apply IH.
Qed.

Lemma updateAttributes_ext (i : nat) (f g : attrs -> attrs) (n : node) :
  (forall a, f a = g a) -> updateAttributes i f n = updateAttributes i g n.
Proof.
  intros H.
  induction n as [j t a kids IH| |] using node_induction; try reflexivity.
  cbn [updateAttributes]. f_equal.
  - now rewrite H.
  - apply map_ext_in. intros k Hk. rewrite Forall_forall in IH. now apply IH.
Qed.

Lemma applyStyles_twice (incoming : JsObject.t) (a : attrs) :
  Forall ParsedEntry incoming -> NoDup (JsObject.keys incoming) ->
  applyStyles incoming (applyStyles incoming a) = applyStyles incoming a.
Proof.
  intros Hi Hd. unfold applyStyles at 1.
  unfold applyStyles at 1 2.
  rewrite getAttribute_setAttribute, orElse_empty, setAttribute_twice.
  fold (inlineStyles a).
  destruct (parseInlineStyle_parsed (orElse (getAttribute styleAttr a) []))
    as [He Hde]. fold (inlineStyles a) in He, Hde.
  destruct (spread_parsed He Hi) as [Hm Hdm].
  rewrite parse_styleStringOf by (assumption || apply spread_order).
  set (m := JsObject.spread (inlineStyles a) incoming) in *.
  assert (E : JsObject.spread m incoming = m).
  { rewrite spread_fold.
    rewrite (@fold_defineEntry_rebuild m []) by (assumption || apply spread_order).
    cbn [app]. apply fold_defineEntry_present. intros k v Hin.
    unfold m. rewrite get_spread by assumption.
    now rewrite (get_In _ _ _ Hd Hin). }
  now rewrite E.
Qed.

(** X4.  Merging the same rule twice is the same as merging it once, on
    the attributes of an element and on the tree: the second merge of a
    rule and element that both passes select leaves the tree as it was
    right after the first, when nothing else was merged in between. *)
Theorem applyStyles_idempotent
  (declarations : str) (a : attrs) (element : nat) (root : node) :
  let incoming := parseStyleDeclarations declarations in
  applyStyles incoming (applyStyles incoming a) = applyStyles incoming a /\
  applyStylesToElement element incoming
    (applyStylesToElement element incoming root) =
  applyStylesToElement element incoming root.
Proof.
  intros incoming.
  destruct (parseStyleDeclarations_parsed declarations) as [H1 H2].
  split; [now apply applyStyles_twice|].
  unfold applyStylesToElement. rewrite updateAttributes_twice.
  apply updateAttributes_ext. intros a0. now apply applyStyles_twice.
Qed.

Lemma removeAttribute_setAttribute (name value : str) (a : attrs) :
  removeAttribute name (setAttribute name value a) = removeAttribute name a.
Proof.
  unfold removeAttribute. induction a as [|[k v] a IH]; simpl.
  - now rewrite eqb_refl.
  - destruct (eqb k name) eqn:E; simpl; rewrite E; simpl;
      [reflexivity | now rewrite IH].
Qed.

Lemma names_setAttribute (name value : str) (a : attrs) :
  map fst (setAttribute name value a) =
  match getAttribute name a with
  | Some _ => map fst a
  | None => map fst a ++ [name]
  end.
Proof.
  induction a as [|[k v] a IH]; simpl; [reflexivity|].
  destruct (eqb k name) eqn:E; simpl; [reflexivity|].
  rewrite IH. now destruct (getAttribute name a).
Qed.

(** X5.  A merge writes the [style] attribute and nothing else: every
    other attribute keeps its value and the attributes keep their order,
    the [style] attribute staying where it was or, when the element had
    none, going last.  After a merge the element always has a [style]
    attribute. *)
Theorem applyStyles_only_style (incoming : JsObject.t) (a : attrs) :
  removeAttribute styleAttr (applyStyles incoming a) =
    removeAttribute styleAttr a /\
  map fst (applyStyles incoming a) =
    match getAttribute styleAttr a with
    | Some _ => map fst a
    | None => map fst a ++ [styleAttr]
    end /\
  (forall name, name <> styleAttr ->
     getAttribute name (applyStyles incoming a) = getAttribute name a) /\
  getAttribute styleAttr (applyStyles incoming a) <> None.
Proof.
  unfold applyStyles. split; [apply removeAttribute_setAttribute|].
  split; [apply names_setAttribute|]. split.
  - intros name Hne. now apply getAttribute_setAttribute_other.
  - rewrite getAttribute_setAttribute. discriminate.
Qed.

Lemma applyStyles_only_style_witness :
  getAttribute (lit "id")
    (applyStyles [(lit "fill", lit "red")] [(lit "id", lit "r")]) =
  Some (lit "r").
Proof.
  destruct (applyStyles_only_style [(lit "fill", lit "red")]
              [(lit "id", lit "r")]) as (_ & _ & H & _).
  rewrite H; [reflexivity|]. intros E. vm_compute in E. discriminate.
Defined.

(** ** The rule parser, once more *)

Lemma execAll_In (s : str) (k : nat) (m : str * str) :
  In m (execAll k s) ->
  fst m <> [] /\ forallb notBrace (fst m) = true /\
  forallb notBrace (snd m) = true.
Proof.
  revert k; induction s as [|c s IH]; intros k; simpl; [contradiction|].
  destruct k as [|k]; [|apply IH].
  destruct (ruleMatch (c :: s)) as [[[g1 g2] len]|] eqn:E; [|apply IH].
  intros [<-|H]; [|now apply IH in H].
  apply ruleMatch_Some in E. simpl. tauto.
Qed.

Lemma forallb_trim (p : N -> bool) (s : str) :
  forallb p s = true -> forallb p (trim s) = true.
Proof.
  rewrite !forallb_forall. intros H x Hx. apply H. now apply trim_In.
Qed.

(** X6.  Every rule the rule parser returns has a selector that is not
    empty, has no white space at its ends and holds no brace; its
    declarations are a parsed map: well-formed entries, no property
    twice, array indices first. *)
Theorem parseCSS_rules (cssText : str) (r : rule) :
  In r (parseCSS cssText) ->
  selector r <> [] /\ trim (selector r) = selector r /\
  forallb notBrace (selector r) = true /\
  Forall ParsedEntry (styles r) /\ NoDup (JsObject.keys (styles r)) /\
  EnumerationOrder (JsObject.keys (styles r)).
Proof.
  unfold parseCSS. intros H. apply in_flat_map in H as (m & Hm & Hr).
  apply execAll_In in Hm as (_ & B1 & _).
  unfold ruleOfMatch in Hr.
  destruct (truthy (trim (fst m))) eqn:T1; [|contradiction].
  destruct (truthy (trim (snd m))); [|contradiction].
  destruct Hr as [<-|[]]. cbn [selector styles].
  apply truthy_true in T1.
  split; [exact T1|]. split; [apply trim_idem|].
  split; [now apply forallb_trim|]. apply parseStyleDeclarations_entries.
Qed.

Lemma parseCSS_rules_witness :
  selector (mkRule (lit ".c") [(lit "fill", lit "red")]) <> [].
Proof.
  apply (@parseCSS_rules (lit " .c { fill : red ; } ")
           (mkRule (lit ".c") [(lit "fill", lit "red")])).
  left. reflexivity.
Defined.

Lemma countOf_app (c : N) (a b : str) :
  countOf c (a ++ b) = countOf c a + countOf c b.
Proof. unfold countOf. now rewrite filter_app, length_app. Qed.

Lemma countOf_skipn (c : N) (k : nat) (s : str) :
  countOf c (skipn k s) <= countOf c s.
Proof.
  rewrite <- (firstn_skipn k s) at 2. rewrite countOf_app. lia.
Qed.

Lemma execAll_count (s : str) (k : nat) :
  List.length (execAll k s) <= countOf closeBrace (skipn k s) /\
  List.length (execAll k s) <= countOf openBrace (skipn k s).
Proof.
  revert k; induction s as [|c s IH]; intros k.
  - destruct k; simpl; lia.
  - destruct k as [|k]; [|apply IH].
    cbn [execAll skipn].
    destruct (ruleMatch (c :: s)) as [[[g1 g2] len]|] eqn:E.
    + apply ruleMatch_Some in E as (Hne & _ & _ & -> & rest & Es).
      destruct (IH (List.length g1 + List.length g2 + 2 - 1)) as [I1 I2].
      assert (Hs : skipn (List.length g1 + List.length g2 + 2 - 1) s = rest).
      { destruct g1 as [|x g1]; [congruence|].
        injection Es as -> ->. cbn [List.length].
        replace (S (List.length g1) + List.length g2 + 2 - 1)
          with (List.length (g1 ++ openBrace :: g2 ++ [closeBrace]))
          by (rewrite length_app; cbn [List.length]; rewrite length_app;
              cbn [List.length]; lia).
        replace (g1 ++ openBrace :: g2 ++ closeBrace :: rest)
          with ((g1 ++ openBrace :: g2 ++ [closeBrace]) ++ rest)
          by (rewrite <- app_assoc; cbn [app]; now rewrite <- app_assoc).
        apply skipn_length_app. }
      rewrite Hs in I1, I2. rewrite Es. cbn [List.length].
      rewrite !countOf_app.
      change (openBrace :: g2 ++ closeBrace :: rest)
        with ([openBrace] ++ g2 ++ [closeBrace] ++ rest).
      rewrite !countOf_app.
      change (countOf closeBrace [closeBrace]) with 1.
      change (countOf openBrace [openBrace]) with 1.
      lia.
    + destruct (IH 0) as [I1 I2]. cbn [skipn] in I1, I2.
      change (c :: s) with ([c] ++ s). rewrite !countOf_app. lia.
Qed.

Lemma length_parseCSS (t : str) :
  List.length (parseCSS t) <= List.length (execAll 0 t).
Proof.
  unfold parseCSS. induction (execAll 0 t) as [|m l IH]; [reflexivity|].
  cbn [flat_map]. rewrite length_app. cbn [List.length].
  unfold ruleOfMatch at 1.
  destruct (truthy (trim (fst m)) && truthy (trim (snd m)));
    cbn [List.length]; lia.
Qed.

(** X7.  The rule parser returns at most as many rules as the text has
    closing braces, and at most as many as it has opening braces: a text
    without one of them gives no rule. *)
Theorem parseCSS_bounded (cssText : str) :
  List.length (parseCSS cssText) <= countOf closeBrace cssText /\
  List.length (parseCSS cssText) <= countOf openBrace cssText.
Proof.
  pose proof (length_parseCSS cssText) as H.
  destruct (execAll_count cssText 0) as [H1 H2]. cbn [skipn] in H1, H2.
  split; lia.
Qed.

Lemma endsWithClose_In (s : str) : endsWithClose s = true -> In closeBrace s.
Proof.
  induction s as [|c s IH]; simpl; [discriminate|].
  destruct s as [|d s'].
  - intros H. apply N.eqb_eq in H. now left.
  - intros H. right. now apply IH.
Qed.

Lemma endsWithClose_app (a b : str) :
  b <> [] -> endsWithClose (a ++ b) = endsWithClose b.
Proof.
  intros Hb. induction a as [|c a IH]; [reflexivity|].
  cbn [app endsWithClose]. destruct (a ++ b) eqn:E; [|exact IH].
  destruct a, b; try discriminate. congruence.
Qed.

Lemma span_rest_nonempty (s a b : str) :
  span notBrace s = (a, b) -> In closeBrace s -> b <> [].
Proof.
  intros E Hin ->. pose proof (span_forallb _ _ E) as F.
  apply span_append in E. rewrite app_nil_r in E. subst a.
  rewrite forallb_forall in F. specialize (F _ Hin). discriminate.
Qed.

(** A match inside a text that ends with a closing brace does not look
    at what follows the text. *)
Lemma ruleMatch_app (s t : str) :
  endsWithClose s = true -> ruleMatch (s ++ t) = ruleMatch s.
Proof.
  intros He. unfold ruleMatch.
  destruct (span notBrace s) as [a r] eqn:E1.
  pose proof (@span_rest_nonempty s a r E1 (@endsWithClose_In s He)) as Hr.
  rewrite (@span_app_rest notBrace s t a r E1 Hr).
  apply span_append in E1. subst s.
  destruct a as [|x a]; [reflexivity|].
  destruct r as [|c r']; [congruence|]. cbn [app].
  destruct (N.eqb_spec c openBrace) as [->|]; [|reflexivity].
  assert (He' : endsWithClose (openBrace :: r') = true)
    by (rewrite <- He; symmetry; apply endsWithClose_app; discriminate).
  destruct r' as [|y r0]; [discriminate|].
  cbn [endsWithClose] in He'.
  destruct (span notBrace (y :: r0)) as [b r''] eqn:E2.
  pose proof (@span_rest_nonempty (y :: r0) b r'' E2 (@endsWithClose_In (y :: r0) He')) as Hr2.
  rewrite (@span_app_rest notBrace (y :: r0) t b r'' E2 Hr2).
  destruct r'' as [|d rest]; [congruence|]. reflexivity.
Qed.

Lemma execAll_app (s t : str) (k : nat) :
  s = [] \/ endsWithClose s = true -> k <= List.length s ->
  execAll k (s ++ t) = execAll k s ++ execAll 0 t.
Proof.
  revert k; induction s as [|c s IH]; intros k He Hk.
  - simpl in Hk. now replace k with 0 by lia.
  - destruct He as [He|He]; [discriminate|].
    assert (He' : s = [] \/ endsWithClose s = true).
    { destruct s as [|d s']; [now left | right; exact He]. }
    cbn [app execAll]. destruct k as [|k].
    + change (c :: s ++ t) with ((c :: s) ++ t).
      rewrite ruleMatch_app by exact He.
      destruct (ruleMatch (c :: s)) as [[[g1 g2] len]|] eqn:E.
      * apply ruleMatch_Some in E as (_ & _ & _ & -> & rest & Es).
        cbn [app]. f_equal. apply IH; [exact He'|].
        apply (f_equal (@List.length N)) in Es.
        rewrite length_app in Es. cbn [List.length] in Es.
        rewrite length_app in Es. cbn [List.length] in Es. lia.
      * apply IH; [exact He' | lia].
    + apply IH; [exact He' | simpl in Hk; lia].
Qed.

(** X8.  The rules of a text that ends with a closing brace followed by
    another text are the rules of the first followed by the rules of the
    second: style sheets can be concatenated block after block. *)
Theorem parseCSS_concatenation (first second : str) :
  parseCSS ((first ++ [closeBrace]) ++ second) =
  parseCSS (first ++ [closeBrace]) ++ parseCSS second.
Proof.
  unfold parseCSS. rewrite <- flat_map_app. f_equal.
  apply execAll_app; [|lia]. right.
  rewrite endsWithClose_app by discriminate. apply N.eqb_refl.
Qed.

Lemma split_In (sep c : N) (s f : str) :
  In f (split sep s) -> In c f -> In c s.
Proof.
  revert f; induction s as [|x s IH]; simpl; intros f Hf Hc.
  - destruct Hf as [<-|[]]. contradiction.
  - destruct (N.eqb x sep).
    + destruct Hf as [<-|Hf]; [contradiction|]. right. eapply IH; eauto.
    + pose proof (split_nonempty sep s) as Hne.
      destruct (split sep s) as [|g gs]; [congruence|].
      destruct Hf as [<-|Hf].
      * destruct Hc as [->|Hc]; [now left|]. right.
        apply (IH g); [now left | exact Hc].
      * right. apply (IH f); [now right | exact Hc].
Qed.

Lemma parseStyleDeclarations_no_colon (s : str) :
  ~ In colon s -> parseStyleDeclarations s = [].
Proof.
  intros Hn. unfold parseStyleDeclarations.
  assert (H : forall f, In f (split semicolon s) -> declarationOf f = None).
  { intros f Hf. unfold declarationOf.
    replace (indexOf colon f) with (@None nat); [reflexivity|].
    symmetry. apply indexOf_None. intros Hc. apply Hn.
    eapply split_In; eauto. }
  induction (split semicolon s) as [|f l IH]; [reflexivity|].
  cbn [fold_left]. rewrite declarationStep_declarationOf.
  rewrite H by now left. apply IH. intros g Hg. apply H. now right.
Qed.

Lemma setAttribute_absent (name value : str) (a : attrs) :
  getAttribute name a = None -> setAttribute name value a = a ++ [(name, value)].
Proof.
  induction a as [|[k v] a IH]; simpl; [reflexivity|].
  destruct (eqb k name); [discriminate|]. intros H. now rewrite IH.
Qed.

(** X9.  A block whose declaration text holds no colon still gives a
    rule, with no declarations at all; merged into an element that has no
    inline style, that rule leaves it with an empty [style] attribute,
    added after its other attributes. *)
Theorem rule_without_declarations (b : str * str) (a : attrs) :
  WellFormedBlock b -> ~ In colon (snd b) ->
  getAttribute styleAttr a = None ->
  parseCSS (blockText b) = [mkRule (trim (fst b)) []] /\
  applyStyles [] a = a ++ [(styleAttr, [])].
Proof.
  intros Hb Hc Ha. split.
  - pose proof (@parseCSS_blocks [b] [] (Forall_cons b Hb (Forall_nil _)) eq_refl)
      as H.
    cbn [map List.concat] in H. rewrite !app_nil_r in H. rewrite H.
    unfold ruleOfBlock. cbn [map]. rewrite parseStyleDeclarations_no_colon;
      [reflexivity|].
    intros Hin. apply Hc. now apply trim_In.
  - unfold applyStyles. rewrite Ha. cbn. now apply setAttribute_absent.
Qed.

Lemma rule_without_declarations_witness :
  parseCSS (blockText (lit ".a", lit "red")) = [mkRule (lit ".a") []] /\
  applyStyles [] [(lit "id", lit "r")] =
    [(lit "id", lit "r"); (styleAttr, [])].
Proof.
  apply (@rule_without_declarations (lit ".a", lit "red") [(lit "id", lit "r")]).
  - repeat split; vm_compute; discriminate.
  - vm_compute. intuition discriminate.
  - reflexivity.
Defined.

(** ** What the conversion keeps *)

Lemma KeepsElements_refl (t : node) : KeepsElements t t.
Proof. intros e He. exists e. auto. Qed.

Lemma KeepsElements_trans (a b c : node) :
  KeepsElements a b -> KeepsElements b c -> KeepsElements a c.
Proof.
  intros Hab Hbc e He.
  destruct (Hbc e He) as (e1 & H1 & I1 & N1 & A1).
  destruct (Hab e1 H1) as (e0 & H0 & I0 & N0 & A0).
  exists e0. repeat split; congruence.
Qed.

Lemma KeepsElements_removeChild (i : nat) (t : node) :
  KeepsElements t (removeChild i t).
Proof.
  intros e He. unfold elements in He. rewrite isElement_removeChild in He.
  destruct (isElement t) eqn:Et; [|contradiction].
  destruct He as [<-|He].
  - exists t. rewrite idOf_removeChild, nameOf_removeChild,
      attributesOf_removeChild.
    repeat split. unfold elements. rewrite Et. now left.
  - apply descendants_removeChild in He as (e0 & H0 & -> & _).
    exists e0. rewrite idOf_removeChild, nameOf_removeChild,
      attributesOf_removeChild.
    repeat split. now apply descendants_elements.
Qed.

Lemma KeepsElements_detach_all (l : list node) (t : node) :
  KeepsElements t (fold_left detach l t).
Proof.
  revert t; induction l as [|s l IH]; intros t; simpl.
  - apply KeepsElements_refl.
  - eapply KeepsElements_trans; [apply KeepsElements_removeChild | apply IH].
Qed.

Lemma KeepsElements_updateAttributes (i : nat) (f : attrs -> attrs) (t : node) :
  (forall a, otherAttributes (f a) = otherAttributes a) ->
  KeepsElements t (updateAttributes i f t).
Proof.
  intros Hf e He. rewrite elements_updateAttributes in He.
  apply in_map_iff in He as (e0 & <- & H0).
  exists e0. rewrite idOf_updateAttributes, nameOf_updateAttributes.
  repeat split; [exact H0|].
  rewrite attributesOf_updateAttributes by (eapply elements_isElement; eauto).
  destruct (Nat.eqb (idOf e0) i); [apply Hf | reflexivity].
Qed.

Lemma otherAttributes_applyStyles (incoming : JsObject.t) (a : attrs) :
  otherAttributes (applyStyles incoming a) = otherAttributes a.
Proof.
  unfold otherAttributes, applyStyles. now rewrite removeAttribute_setAttribute.
Qed.

Lemma filter_filter_filter (A : Type) (p q : A -> bool) (l : list A) :
  filter p (filter q (filter p l)) = filter p (filter q l).
Proof.
  induction l as [|x l IH]; simpl; [reflexivity|].
  destruct (p x) eqn:Hp; simpl.
  - destruct (q x); simpl; [rewrite Hp|]; now rewrite IH.
  - destruct (q x); simpl; [rewrite Hp|]; exact IH.
Qed.

Lemma otherAttributes_removeClass (a : attrs) :
  otherAttributes (removeAttribute classAttr a) = otherAttributes a.
Proof. unfold otherAttributes, removeAttribute. apply filter_filter_filter. Qed.

Lemma KeepsElements_replay (ms : list merge) (t : node) :
  KeepsElements t (replay t ms).
Proof.
  unfold replay. revert t; induction ms as [|m ms IH]; intros t; simpl.
  - apply KeepsElements_refl.
  - eapply KeepsElements_trans; [|apply IH].
    apply KeepsElements_updateAttributes. intros a.
    apply otherAttributes_applyStyles.
Qed.

Lemma KeepsElements_classStep (c : conversion) (e : nat) :
  KeepsElements (svg c) (svg (classStep c e)).
Proof.
  rewrite classStep_spec.
  destruct (classAt e (svg c)) as [cn|]; [|apply KeepsElements_refl].
  destruct (truthy cn); [|apply KeepsElements_refl].
  cbv zeta. cbn [svg].
  eapply KeepsElements_trans; [apply KeepsElements_replay|].
  apply KeepsElements_updateAttributes. apply otherAttributes_removeClass.
Qed.

Lemma KeepsElements_classPass (els : list nat) (c : conversion) :
  KeepsElements (svg c) (svg (fold_left classStep els c)).
Proof.
  revert c; induction els as [|e els IH]; intros c; simpl.
  - apply KeepsElements_refl.
  - eapply KeepsElements_trans; [apply KeepsElements_classStep | apply IH].
Qed.

Lemma textContent_updateAttributes (i : nat) (f : attrs -> attrs) (n : node) :
  textContent (updateAttributes i f n) = textContent n.
Proof.
  induction n as [j t a kids IH| |] using node_induction; try reflexivity.
  cbn [updateAttributes textContent].
  induction IH as [|k kids Hk _ IHk]; [reflexivity|].
  cbn [map flat_map]. now rewrite Hk, IHk.
Qed.

Lemma textContent_replay (ms : list merge) (t : node) :
  textContent (replay t ms) = textContent t.
Proof.
  unfold replay. revert t; induction ms as [|m ms IH]; intros t; simpl;
    [reflexivity|].
  rewrite IH. apply textContent_updateAttributes.
Qed.

Lemma textContent_classPass (els : list nat) (c : conversion) :
  textContent (svg (fold_left classStep els c)) = textContent (svg c).
Proof.
  revert c; induction els as [|e els IH]; intros c; simpl; [reflexivity|].
  rewrite IH, classStep_spec.
  destruct (classAt e (svg c)) as [cn|]; [|reflexivity].
  destruct (truthy cn); [|reflexivity].
  cbv zeta. cbn [svg].
  now rewrite textContent_updateAttributes, textContent_replay.
Qed.

Section Keeping.

Variable querySelectorAll : str -> node -> option (list nat).
Variable innerHTML : node -> str.

(** X10.  A conversion adds no element and renames none: every element
    of the converted tree was in the input with the same identity and
    name, and with the same attributes other than [style] and [class], in
    the same order; the identities left are those of the input with some
    left out, in the same order; and the text is the text the tree had
    once its style elements were detached. *)
Theorem conversion_keeps_elements (root : node) (c : conversion) :
  convertEmbeddedCSSToInline querySelectorAll innerHTML root = inr c ->
  KeepsElements root (svg c) /\
  Sub (ids (svg c)) (ids root) /\
  textContent (svg c) = textContent (fst (extractRules innerHTML root)).
Proof.
  intros Hc. apply convertEmbeddedCSSToInline_phases in Hc. cbv zeta in Hc.
  rewrite extractRules_spec in *. cbn [fst snd] in *.
  set (tree0 := fold_left detach (byName (lit "style") root) root) in *.
  set (rules := flat_map (fun s => parseCSS (cssTextOf innerHTML s))
                  (byName (lit "style") root)) in *.
  set (sm := structuralMerges querySelectorAll rules tree0) in *.
  set (els := map idOf (byAttribute classAttr (replay tree0 sm))) in *.
  set (c1 := mkConversion (replay tree0 sm) (List.length rules)
               (List.length sm) rules) in *.
  subst c. split; [|split].
  - eapply KeepsElements_trans; [apply KeepsElements_detach_all|].
    eapply KeepsElements_trans; [apply (KeepsElements_replay sm)|].
    apply (KeepsElements_classPass els c1).
  - destruct (classPass_ids els c1) as (I2 & _).
    destruct (ids_replay sm tree0) as (I1 & _).
    rewrite I2. cbn [svg c1]. rewrite I1. apply ids_detach_all.
  - rewrite textContent_classPass. cbn [svg c1]. apply textContent_replay.
Qed.

End Keeping.

Lemma conversion_keeps_elements_witness :
  Sub (ids (svg Sample.styledRectResult)) (ids Sample.styledRect).
Proof.
  apply (@conversion_keeps_elements Sample.querySelectorAll Sample.innerHTML
           Sample.styledRect Sample.styledRectResult).
  reflexivity.
Defined.

(** ** Documents without style sheets, and converting twice *)

Lemma fallbackMerges_no_rules (els : list nat) (t : node) :
  fallbackMerges [] els t = [].
Proof.
  revert t; induction els as [|e els IH]; intros t; simpl; [reflexivity|].
  destruct (classAt e t) as [cn|]; [|apply IH].
  destruct (truthy cn); apply IH.
Qed.

Lemma getAttribute_removeAttribute_other (name name' : str) (a : attrs) :
  name' <> name ->
  getAttribute name' (removeAttribute name a) = getAttribute name' a.
Proof.
  intros Hne. unfold removeAttribute.
  induction a as [|[k v] a IH]; simpl; [reflexivity|].
  destruct (eqb k name) eqn:E; simpl.
  - apply eqb_eq in E. subst k. apply eqb_neq in Hne.
    rewrite eqb_sym in Hne. now rewrite Hne.
  - now rewrite IH.
Qed.

Lemma classPass_no_rules (name : str) (i : nat) (els : list nat) (c : conversion) :
  cssRules c = [] -> name <> classAttr ->
  option_map (getAttribute name) (attributesAt i (svg (fold_left classStep els c))) =
  option_map (getAttribute name) (attributesAt i (svg c)).
Proof.
  intros Hr Hn. revert c Hr; induction els as [|e els IH]; intros c Hr; simpl;
    [reflexivity|].
  assert (Hr' : cssRules (classStep c e) = []).
  { rewrite classStep_spec. destruct (classAt e (svg c)) as [cn|]; [|exact Hr].
    destruct (truthy cn); [exact Hr | exact Hr]. }
  rewrite (IH _ Hr'). rewrite classStep_spec.
  destruct (classAt e (svg c)) as [cn|]; [|reflexivity].
  destruct (truthy cn); [|reflexivity].
  cbv zeta. cbn [svg]. rewrite Hr. cbn [filter map].
  change (replay (svg c) []) with (svg c).
  rewrite attributesAt_updateAttributes.
  destruct (Nat.eqb i e); [|reflexivity].
  destruct (attributesAt i (svg c)) as [a|]; [|reflexivity].
  cbn [option_map]. f_equal. now apply getAttribute_removeAttribute_other.
Qed.

Lemma classStep_fixed (c : conversion) (e : nat) :
  truthyOpt (classAt e (svg c)) = false -> classStep c e = c.
Proof.
  unfold classStep. destruct (classAt e (svg c)) as [cn|]; [|reflexivity].
  simpl. now intros ->.
Qed.

Lemma classPass_fixed (els : list nat) (c : conversion) :
  (forall e, In e els -> truthyOpt (classAt e (svg c)) = false) ->
  fold_left classStep els c = c.
Proof.
  induction els as [|e els IH]; intros H; simpl; [reflexivity|].
  rewrite classStep_fixed by (apply H; now left).
  apply IH. intros x Hx. apply H. now right.
Qed.

Section Twice.

Variable querySelectorAll : str -> node -> option (list nat).
Variable innerHTML : node -> str.

Lemma convert_without_style (root : node) :
  byName (lit "style") root = [] ->
  convertEmbeddedCSSToInline querySelectorAll innerHTML root =
  inr (fold_left classStep (map idOf (byAttribute classAttr root))
         (mkConversion root 0 0 [])).
Proof.
  intros H. unfold convertEmbeddedCSSToInline.
  rewrite extractRules_spec, H. reflexivity.
Qed.

(** X11.  A document without style elements is always converted, whatever
    the selector engine: no rule is extracted, both counters are zero,
    the elements and their order are those of the input, the text is
    unchanged and every attribute other than [class] keeps its value; in
    particular no [style] attribute is written. *)
Theorem conversion_without_style (root : node) :
  byName (lit "style") root = [] ->
  exists c,
    convertEmbeddedCSSToInline querySelectorAll innerHTML root = inr c /\
    cssRules c = [] /\ convertedStyles c = 0 /\ processedElements c = 0 /\
    ids (svg c) = ids root /\ textContent (svg c) = textContent root /\
    forall i name, name <> classAttr ->
      option_map (getAttribute name) (attributesAt i (svg c)) =
      option_map (getAttribute name) (attributesAt i root).
Proof.
  intros H. rewrite (convert_without_style _ H).
  set (els := map idOf (byAttribute classAttr root)).
  set (c0 := mkConversion root 0 0 []).
  exists (fold_left classStep els c0). split; [reflexivity|].
  destruct (classPass_counters els c0) as (H1 & H2 & H3). cbv zeta in H1, H2, H3.
  cbn [cssRules convertedStyles processedElements svg c0] in H1, H2, H3.
  rewrite fallbackMerges_no_rules in H3.
  destruct (classPass_ids els c0) as (I1 & _).
  repeat split; try assumption.
  - apply (textContent_classPass els c0).
  - intros i name Hn. now apply (@classPass_no_rules name i els c0).
Qed.

Lemma no_style_after (root : node) (c : conversion) :
  convertEmbeddedCSSToInline querySelectorAll innerHTML root = inr c ->
  byName (lit "style") (svg c) = [].
Proof.
  intros Hc. apply convertEmbeddedCSSToInline_phases in Hc. cbv zeta in Hc.
  set (tree0 := fst (extractRules innerHTML root)) in *.
  set (rules := snd (extractRules innerHTML root)) in *.
  set (sm := structuralMerges querySelectorAll rules tree0) in *.
  set (els := map idOf (byAttribute classAttr (replay tree0 sm))) in *.
  set (c1 := mkConversion (replay tree0 sm) (List.length rules)
               (List.length sm) rules) in *.
  destruct (classPass_ids els c1) as (_ & _ & N2).
  destruct (ids_replay sm tree0) as (_ & _ & N1).
  rewrite <- Hc in N2.
  apply (@byName_same_names (lit "style") tree0).
  - cbn [svg c1] in N2. now rewrite N2.
  - apply extractRules_no_style.
Qed.

(** After a conversion of a tree with distinct identities, the
    identities are still distinct and no element below the root has a
    non-empty class attribute. *)
Lemma classes_empty_after (root : node) (c : conversion) :
  NoDup (ids root) ->
  convertEmbeddedCSSToInline querySelectorAll innerHTML root = inr c ->
  NoDup (ids (svg c)) /\
  forall e, In e (descendants (svg c)) ->
            truthyOpt (getAttribute classAttr (attributesOf e)) = false.
Proof.
  intros Hd Hc. apply convertEmbeddedCSSToInline_phases in Hc. cbv zeta in Hc.
  rewrite extractRules_spec in Hc. cbn [fst snd] in Hc.
  set (tree0 := fold_left detach (byName (lit "style") root) root) in *.
  set (rules := flat_map (fun s => parseCSS (cssTextOf innerHTML s))
                  (byName (lit "style") root)) in *.
  set (sm := structuralMerges querySelectorAll rules tree0) in *.
  set (tree1 := replay tree0 sm) in *.
  set (els := map idOf (byAttribute classAttr tree1)) in *.
  set (c1 := mkConversion tree1 (List.length rules) (List.length sm) rules) in *.
  assert (D0 : NoDup (ids tree0))
    by (eapply Sub_NoDup; [apply ids_detach_all | exact Hd]).
  destruct (ids_replay sm tree0) as (I1 & I1d & _). fold tree1 in I1, I1d.
  assert (D1 : NoDup (ids tree1)) by now rewrite I1.
  destruct (classPass_ids els c1) as (I2 & I2d & _).
  rewrite <- Hc in I2, I2d. cbn [svg c1] in I2, I2d.
  assert (D2 : NoDup (ids (svg c))) by now rewrite I2.
  split; [exact D2|]. intros e He.
  assert (F : find (idOf e) (svg c) = Some e)
    by (apply find_unique; [assumption | now apply descendants_elements]).
  assert (C : classAt (idOf e) (svg c) = getAttribute classAttr (attributesOf e))
    by (unfold classAt, attributesAt; now rewrite F).
  rewrite <- C, Hc, classAt_classPass. cbn [svg c1].
  destruct (truthyOpt (classAt (idOf e) tree1)) eqn:T;
    [|rewrite andb_false_r; exact T].
  assert (Hi1 : In (idOf e) (map idOf (descendants tree1)))
    by (rewrite <- I2d; now apply in_map).
  apply in_map_iff in Hi1 as (x1 & Hx1 & Hin1).
  assert (F1 : find (idOf x1) tree1 = Some x1)
    by (apply find_unique; [assumption | now apply descendants_elements]).
  assert (Hels : existsb (Nat.eqb (idOf e)) els = true).
  { apply existsb_exists. exists (idOf e). split; [|apply Nat.eqb_refl].
    unfold els. rewrite <- Hx1. apply in_map. unfold byAttribute.
    apply filter_In. split; [exact Hin1|].
    unfold classAt, attributesAt in T. rewrite <- Hx1, F1 in T. simpl in T.
    destruct (getAttribute classAttr (attributesOf x1)); [reflexivity|discriminate]. }
  now rewrite Hels.
Qed.

End Twice.

(** X12.  Converting the result of a conversion changes nothing: for a
    tree with distinct identities, the converted tree is converted to
    itself, with no rule and both counters at zero, whatever the selector
    engine of the second run. *)
Theorem conversion_idempotent
  (querySelectorAll querySelectorAll' : str -> node -> option (list nat))
  (innerHTML innerHTML' : node -> str) (root : node) (c : conversion) :
  NoDup (ids root) ->
  convertEmbeddedCSSToInline querySelectorAll innerHTML root = inr c ->
  convertEmbeddedCSSToInline querySelectorAll' innerHTML' (svg c) =
  inr (mkConversion (svg c) 0 0 []).
Proof.
  intros Hd Hc.
  rewrite convert_without_style by (eapply no_style_after; eauto).
  destruct (classes_empty_after _ _ _ Hd Hc) as [D2 Hcls].
  f_equal. apply classPass_fixed. intros i Hi. cbn [svg].
  apply in_map_iff in Hi as (x & <- & Hx).
  unfold byAttribute in Hx. apply filter_In in Hx as [Hx _].
  unfold classAt, attributesAt.
  rewrite find_unique by (assumption || now apply descendants_elements).
  now apply Hcls.
Qed.

Lemma conversion_without_style_witness :
  exists c, Sample.convert Sample.emptyClass = inr c /\ processedElements c = 0.
Proof.
  destruct (@conversion_without_style Sample.querySelectorAll Sample.innerHTML
              Sample.emptyClass eq_refl) as (c & H & _ & _ & P & _).
  exists c. split; [exact H | exact P].
Defined.

Lemma conversion_idempotent_witness :
  Sample.convert (svg Sample.styledRectResult) =
  inr (mkConversion (svg Sample.styledRectResult) 0 0 []).
Proof.
  apply (@conversion_idempotent Sample.querySelectorAll Sample.querySelectorAll
           Sample.innerHTML Sample.innerHTML Sample.styledRect
           Sample.styledRectResult).
  - vm_compute. repeat constructor; simpl; intuition discriminate.
  - reflexivity.
Defined.

(** ** The statistics *)

Lemma fold_left_count (A : Type) (f : A -> nat) (l : list A) (a : nat) :
  fold_left (fun n x => n + f x) l a = a + fold_left (fun n x => n + f x) l 0.
Proof.
  revert a; induction l as [|x l IH]; intros a; simpl; [lia|].
  rewrite (IH (a + f x)), (IH (f x)). lia.
Qed.

Lemma length_flat_map_le (A B : Type) (g : A -> list B) (f : A -> nat)
  (l : list A) :
  (forall x, List.length (g x) <= f x) ->
  List.length (flat_map g l) <= fold_left (fun n x => n + f x) l 0.
Proof.
  intros H. induction l as [|x l IH]; simpl; [lia|].
  rewrite length_app, fold_left_count. specialize (H x). lia.
Qed.

Lemma length_filter_le (A : Type) (p : A -> bool) (l : list A) :
  List.length (filter p l) <= List.length l.
Proof.
  induction l as [|x l IH]; simpl; [lia|]. destruct (p x); simpl; lia.
Qed.

(** X13.  The rule count shown by the statistics is an upper bound of
    what a conversion of the same element reports as converted styles:
    the statistics count every match of the rule pattern, the conversion
    only those with a non-blank selector and non-blank declarations. *)
Theorem stats_bound_converted
  (querySelectorAll : str -> node -> option (list nat))
  (innerHTML : node -> str) (root : node) (c : conversion) :
  convertEmbeddedCSSToInline querySelectorAll innerHTML root = inr c ->
  convertedStyles c <= cssRulesCount (statsOf innerHTML root) /\
  List.length (cssRules c) <= cssRulesCount (statsOf innerHTML root).
Proof.
  intros Hc. apply convertEmbeddedCSSToInline_phases in Hc. cbv zeta in Hc.
  set (tree0 := fst (extractRules innerHTML root)) in *.
  set (rules := snd (extractRules innerHTML root)) in *.
  set (sm := structuralMerges querySelectorAll rules tree0) in *.
  set (els := map idOf (byAttribute classAttr (replay tree0 sm))) in *.
  destruct (classPass_counters els
              (mkConversion (replay tree0 sm) (List.length rules)
                 (List.length sm) rules)) as (H1 & H2 & _).
  cbv zeta in H1, H2. rewrite <- Hc in H1, H2.
  cbn [cssRules convertedStyles] in H1, H2. rewrite H1, H2.
  assert (B : List.length rules <= cssRulesCount (statsOf innerHTML root)).
  { unfold rules. rewrite extractRules_spec. cbn [snd statsOf cssRulesCount].
    apply (length_flat_map_le
             (fun s => parseCSS (cssTextOf innerHTML s))
             (fun s => List.length (execAll 0 (cssTextOf innerHTML s)))).
    intros x. apply length_parseCSS. }
  split; exact B.
Qed.

Lemma stats_bound_converted_witness :
  convertedStyles Sample.styledRectResult <=
  cssRulesCount (statsOf Sample.innerHTML Sample.styledRect).
Proof.
  apply (@stats_bound_converted Sample.querySelectorAll Sample.innerHTML
           Sample.styledRect Sample.styledRectResult).
  reflexivity.
Defined.

(** X14.  The statistics never show more elements with a class than
    elements: a refresh keeps that, it shows three zeros for a blank
    editor, and it leaves the numbers as they were when the document has
    no [svg] element. *)
Theorem updateStats_consistent
  (parseFromString : str -> node) (innerHTML : node -> str)
  (shown : stats) (content : str) :
  classesCount shown <= elementsCount shown ->
  let after := updateStats parseFromString innerHTML shown content in
  classesCount after <= elementsCount after /\
  (trim content = [] -> after = mkStats 0 0 0) /\
  (trim content <> [] ->
   querySelector (lit "svg") (parseFromString content) = None ->
   after = shown).
Proof.
  intros H after. unfold after, updateStats.
  destruct (truthy (trim content)) eqn:T; cbn [negb].
  - apply truthy_true in T.
    destruct (querySelector (lit "svg") (parseFromString content)) as [root|].
    + split; [|split; [congruence | discriminate]].
      unfold statsOf, byAttribute. cbn [classesCount elementsCount].
      apply length_filter_le.
    + split; [exact H|]. split; [congruence | reflexivity].
  - apply truthy_false in T. split; [cbn; lia|].
    split; [reflexivity | congruence].
Qed.

Lemma updateStats_consistent_witness :
  classesCount
    (updateStats (fun _ => Sample.emptyClass) Sample.innerHTML
       (mkStats 0 0 0) (lit "<svg/>")) <=
  elementsCount
    (updateStats (fun _ => Sample.emptyClass) Sample.innerHTML
       (mkStats 0 0 0) (lit "<svg/>")).
Proof.
  apply (@updateStats_consistent (fun _ => Sample.emptyClass) Sample.innerHTML
           (mkStats 0 0 0) (lit "<svg/>")).
  cbn. lia.
Defined.

(** ** The pretty printer keeps the text *)

Lemma replaceAll_skipn (m : str -> option (str * nat)) (k : nat) (s : str) :
  replaceAll m k s = replaceAll m 0 (skipn k s).
Proof.
  revert k; induction s as [|c s IH]; intros k.
  - now destruct k.
  - destruct k as [|k]; [reflexivity|]. cbn [replaceAll skipn]. apply IH.
Qed.

(** A replacement whose matches and replacements agree outside spaces and
    newlines changes nothing else. *)
Lemma replaceAll_content (m : str -> option (str * nat)) :
  (forall s rep len, m s = Some (rep, len) ->
     1 <= len /\ filter notBlank rep = filter notBlank (firstn len s)) ->
  forall n s, List.length s <= n ->
    filter notBlank (replaceAll m 0 s) = filter notBlank s.
Proof.
  intros Hm. induction n as [|n IH]; intros s Hlen.
  - destruct s; [reflexivity | simpl in Hlen; lia].
  - destruct s as [|c s]; [reflexivity|].
    rewrite replaceAll_cons.
    destruct (m (c :: s)) as [[rep len]|] eqn:E.
    + destruct (Hm _ _ _ E) as [Hl Hrep].
      rewrite replaceAll_skipn, filter_app, Hrep.
      rewrite IH by (rewrite length_skipn; simpl in Hlen; lia).
      rewrite <- filter_app.
      replace (skipn (len - 1) s) with (skipn len (c :: s))
        by (destruct len; [lia | cbn [skipn]; f_equal; lia]).
      now rewrite firstn_skipn.
    + cbn [filter]. rewrite IH by (simpl in Hlen; lia). reflexivity.
Qed.

Lemma closingTag_exact (s t r : str) :
  closingTag s = Some (t, r) -> s = t ++ r /\ t <> [].
Proof.
  unfold closingTag. destruct s as [|a [|b s]]; try discriminate.
  destruct (N.eqb a lessThan && N.eqb b slash); [|discriminate].
  destruct (span isAlnum s) as [name r'] eqn:E.
  apply span_append in E. subst s.
  destruct name as [|x name]; [discriminate|].
  destruct r' as [|c r'']; [discriminate|].
  destruct (N.eqb c greaterThan); [|discriminate].
  intros H. injection H as <- <-. split; [|discriminate].
  cbn [app]. now rewrite <- app_assoc.
Qed.

Lemma openingTag_exact (s t r : str) :
  openingTag s = Some (t, r) -> s = t ++ r /\ t <> [].
Proof.
  unfold openingTag. destruct s as [|a [|b s]]; try discriminate.
  destruct (N.eqb a lessThan && isAlnum b); [|discriminate].
  destruct (span notGreaterThan s) as [body r'] eqn:E.
  apply span_append in E. subst s.
  destruct r' as [|c r'']; [discriminate|].
  intros H. injection H as <- <-. split; [|discriminate].
  cbn [app]. now rewrite <- app_assoc.
Qed.

Lemma firstn_app_exact (A : Type) (a b : list A) :
  firstn (List.length a) (a ++ b) = a.
Proof. apply firstn_length_app. Qed.

Lemma matchBoundary_content (s rep : str) (len : nat) :
  matchBoundary s = Some (rep, len) ->
  1 <= len /\ filter notBlank rep = filter notBlank (firstn len s).
Proof.
  unfold matchBoundary. destruct s as [|a [|b r]]; try discriminate.
  destruct (N.eqb_spec a greaterThan) as [->|]; [|discriminate].
  destruct (N.eqb_spec b lessThan) as [->|]; [|discriminate].
  intros H. injection H as <- <-. split; [lia | reflexivity].
Qed.

Lemma matchClosingPair_content (s rep : str) (len : nat) :
  matchClosingPair s = Some (rep, len) ->
  1 <= len /\ filter notBlank rep = filter notBlank (firstn len s).
Proof.
  unfold matchClosingPair.
  destruct (closingTag s) as [[t1 r]|] eqn:E1; [|discriminate].
  destruct (closingTag r) as [[t2 r2]|] eqn:E2; [|discriminate].
  intros H. injection H as <- <-.
  apply closingTag_exact in E1 as [-> N1]. apply closingTag_exact in E2 as [-> N2].
  split.
  - destruct t1; [congruence | simpl; lia].
  - rewrite app_assoc, <- length_app, firstn_app_exact.
    rewrite !filter_app. reflexivity.
Qed.

Lemma matchOpeningPair_content (s rep : str) (len : nat) :
  matchOpeningPair s = Some (rep, len) ->
  1 <= len /\ filter notBlank rep = filter notBlank (firstn len s).
Proof.
  unfold matchOpeningPair.
  destruct (openingTag s) as [[t1 r]|] eqn:E1; [|discriminate].
  destruct (openingTag r) as [[t2 r2]|] eqn:E2; [|discriminate].
  intros H. injection H as <- <-.
  apply openingTag_exact in E1 as [-> N1]. apply openingTag_exact in E2 as [-> N2].
  split.
  - destruct t1; [congruence | simpl; lia].
  - rewrite app_assoc, <- length_app, firstn_app_exact.
    rewrite !filter_app. reflexivity.
Qed.

Lemma matchIndentedClosing_content (s rep : str) (len : nat) :
  matchIndentedClosing s = Some (rep, len) ->
  1 <= len /\ filter notBlank rep = filter notBlank (firstn len s).
Proof.
  unfold matchIndentedClosing. destruct s as [|a [|b r]]; try discriminate.
  destruct (N.eqb_spec a space) as [->|]; [|discriminate].
  destruct (N.eqb_spec b space) as [->|]; [|discriminate]. cbn [andb].
  destruct (closingTag r) as [[t r']|] eqn:E; [|discriminate].
  intros H. injection H as <- <-. apply closingTag_exact in E as [-> _].
  split; [lia|]. cbn [plus firstn]. rewrite firstn_app_exact. reflexivity.
Qed.

(** X15.  The pretty printer only inserts newlines and removes spaces:
    with spaces and newlines left out, its result is its input.  It
    never adds, drops or reorders any other character. *)
Theorem formatXML_keeps_content (xmlString : str) :
  filter notBlank (formatXML xmlString) = filter notBlank xmlString.
Proof.
  unfold formatXML.
  rewrite (@replaceAll_content _ matchIndentedClosing_content _ _ (le_n _)).
  rewrite (@replaceAll_content _ matchOpeningPair_content _ _ (le_n _)).
  rewrite (@replaceAll_content _ matchClosingPair_content _ _ (le_n _)).
  apply (@replaceAll_content _ matchBoundary_content _ _ (le_n _)).
Qed.

(** ** The entry point and white space *)

Lemma trimStart_pad (w s : str) :
  Forall (fun c => isWhiteSpace c = true) w -> trimStart (w ++ s) = trimStart s.
Proof. induction 1 as [|c w Hc _ IH]; simpl; [reflexivity|]. now rewrite Hc. Qed.

Lemma trimEnd_pad (s w : str) :
  Forall (fun c => isWhiteSpace c = true) w -> trimEnd (s ++ w) = trimEnd s.
Proof.
  intros H. unfold trimEnd. rewrite rev_app_distr.
  rewrite trimStart_pad; [reflexivity|]. now apply Forall_rev.
Qed.

Lemma trimStart_nil (s : str) :
  trimStart s = [] -> Forall (fun c => isWhiteSpace c = true) s.
Proof.
  induction s as [|c s IH]; simpl; [constructor|].
  destruct (isWhiteSpace c) eqn:E; [|discriminate].
  intros H. constructor; [exact E | now apply IH].
Qed.

Lemma trim_pad (w s w' : str) :
  Forall (fun c => isWhiteSpace c = true) w ->
  Forall (fun c => isWhiteSpace c = true) w' ->
  trim (w ++ s ++ w') = trim s.
Proof.
  intros Hw Hw'. unfold trim. rewrite trimStart_pad by exact Hw.
  destruct (trimStart s) as [|c r] eqn:E.
  - apply trimStart_nil in E.
    rewrite trimStart_blank by (apply Forall_app; split; assumption).
    reflexivity.
  - rewrite trimStart_app_keep by congruence. rewrite E.
    now apply trimEnd_pad.
Qed.

(** X17.  Reading the [style] attribute back after a merge gives exactly
    the merged map, entries and order: the inline style of the element
    with the incoming declarations spread over it. *)
Theorem inlineStyles_after_merge (declarations : str) (a : attrs) :
  inlineStyles (applyStyles (parseStyleDeclarations declarations) a) =
  JsObject.spread (inlineStyles a) (parseStyleDeclarations declarations).
Proof.
  unfold inlineStyles at 1, applyStyles.
  rewrite getAttribute_setAttribute, orElse_empty.
  fold (inlineStyles a).
  destruct (parseInlineStyle_parsed (orElse (getAttribute styleAttr a) []))
    as [He Hde]. fold (inlineStyles a) in He, Hde.
  destruct (parseStyleDeclarations_parsed declarations) as [Hi Hdi].
  destruct (spread_parsed He Hi) as [Hm Hdm].
  apply parse_styleStringOf; try assumption. apply spread_order.
Qed.

(** ** Rules that select nothing *)

Lemma structuralMerges_none
  (querySelectorAll : str -> node -> option (list nat))
  (rules : list rule) (tree : node) :
  (forall r, In r rules -> querySelectorAll (selector r) tree = Some []) ->
  structuralMerges querySelectorAll rules tree = [].
Proof.
  induction rules as [|r rules IH]; intros H; simpl; [reflexivity|].
  rewrite H by now left. cbn [map app]. change (replay tree []) with tree.
  apply IH. intros r' Hr'. apply H. now right.
Qed.

Lemma applyRules_none
  (querySelectorAll : str -> node -> option (list nat))
  (rules : list rule) (c : conversion) :
  (forall r, In r rules -> querySelectorAll (selector r) (svg c) = Some []) ->
  applyRules querySelectorAll rules c =
  inr (mkConversion (svg c) (convertedStyles c + List.length rules)
         (processedElements c) (cssRules c)).
Proof.
  revert c; induction rules as [|r rules IH]; intros c H; simpl.
  - destruct c. simpl. now rewrite Nat.add_0_r.
  - rewrite H by now left. cbn [fold_left].
    rewrite IH by (intros r' Hr'; cbn [svg countRule]; apply H; now right).
    cbn [svg convertedStyles processedElements cssRules countRule].
    f_equal. f_equal. lia.
Qed.

(** X18.  When no rule selects anything and no element below the root
    has a class attribute, the conversion only detaches the style
    elements: it returns the tree without them, counts every extracted
    rule as converted and no element as processed. *)
Theorem conversion_matching_nothing
  (querySelectorAll : str -> node -> option (list nat))
  (innerHTML : node -> str) (root : node) :
  let tree := fst (extractRules innerHTML root) in
  let rules := snd (extractRules innerHTML root) in
  (forall r, In r rules -> querySelectorAll (selector r) tree = Some []) ->
  byAttribute classAttr root = [] ->
  convertEmbeddedCSSToInline querySelectorAll innerHTML root =
  inr (mkConversion tree (List.length rules) 0 rules).
Proof.
  intros tree rules Hq Hc. unfold convertEmbeddedCSSToInline.
  unfold tree, rules in *.
  destruct (extractRules innerHTML root) as [tree0 rules0] eqn:E.
  cbn [fst snd] in *.
  rewrite applyRules_none by exact Hq.
  cbn [svg convertedStyles processedElements cssRules].
  replace (byAttribute classAttr tree0) with (@nil node); [reflexivity|].
  symmetry. destruct (byAttribute classAttr tree0) as [|e l] eqn:B;
    [reflexivity|].
  assert (He : In e (byAttribute classAttr tree0)) by (rewrite B; now left).
  unfold byAttribute in He. apply filter_In in He as [He Ha].
  assert (T : tree0 = fold_left detach (byName (lit "style") root) root)
    by (rewrite extractRules_spec in E; now injection E as <- _).
  rewrite T in He.
  apply descendants_detach_all in He as (e0 & H0 & _ & _ & A0 & _).
  assert (Hin : In e0 (byAttribute classAttr root)).
  { unfold byAttribute. apply filter_In. split; [exact H0|]. now rewrite <- A0. }
  rewrite Hc in Hin. contradiction.
Qed.

Lemma conversion_matching_nothing_witness :
  Sample.convert unmatchedRule =
  inr (mkConversion
         (Element 0 (lit "svg") [] [Element 2 (lit "rect") [(lit "id", lit "r")] []])
         1 0 [mkRule (lit ".none") [(lit "fill", lit "red")]]).
Proof.
  apply (@conversion_matching_nothing Sample.querySelectorAll Sample.innerHTML
           unmatchedRule).
  - intros r [<-|[]]. reflexivity.
  - reflexivity.
Defined.

(** ** The size change label *)

Lemma lit_injective (s t : string) : lit s = lit t -> s = t.
Proof.
  unfold lit. intros H.
  assert (E : list_ascii_of_string s = list_ascii_of_string t).
  { revert H. generalize (list_ascii_of_string s) (list_ascii_of_string t).
    induction l as [|a l IH]; intros [|b l'] H; simpl in H; try discriminate;
      [reflexivity|].
    injection H as Hab Hl. f_equal; [|now apply IH].
    rewrite <- (ascii_N_embedding a), <- (ascii_N_embedding b). now rewrite Hab. }
  rewrite <- (string_of_list_ascii_of_string s),
          <- (string_of_list_ascii_of_string t). now rewrite E.
Qed.

Lemma showInteger_injective (z z' : Z) :
  showInteger z = showInteger z' -> z = z'.
Proof.
  unfold showInteger. intros H. apply lit_injective in H.
  apply DecimalZ.to_int_inj.
  assert (N : forall x, Z.to_int x <> Decimal.Pos Decimal.Nil /\
                        Z.to_int x <> Decimal.Neg Decimal.Nil).
  { intros [|p|p]; simpl; split; try discriminate; intros E; injection E as E;
      now apply DecimalPos.Unsigned.to_uint_nonnil in E. }
  assert (S : Some (Z.to_int z) = Some (Z.to_int z')).
  { rewrite <- (NilZero.isi (Z.to_int z)) by apply N.
    rewrite <- (NilZero.isi (Z.to_int z')) by apply N.
    now rewrite H. }
  now injection S.
Qed.

Lemma showInteger_head (z : Z) :
  (z <= 0)%Z ->
  hd_error (showInteger z) = Some (if (z <? 0)%Z then 45%N else 48%N).
Proof.
  destruct z as [|p|p]; intros H; [reflexivity | lia | reflexivity].
Qed.

(** X19.  The size change label starts with a plus sign exactly when the
    output is longer than the input and with a minus sign exactly when it
    is shorter, it is [0 bytes] exactly when both have the same length,
    and two labels are equal only for equal size changes. *)
Theorem sizeChangeLabel_sign (inputSize outputSize inputSize' outputSize' : nat) :
  (hd_error (sizeChangeLabel inputSize outputSize) = Some 43%N <->
   inputSize < outputSize) /\
  (hd_error (sizeChangeLabel inputSize outputSize) = Some 45%N <->
   outputSize < inputSize) /\
  (sizeChangeLabel inputSize outputSize = lit "0 bytes" <->
   inputSize = outputSize) /\
  (sizeChangeLabel inputSize outputSize =
   sizeChangeLabel inputSize' outputSize' ->
   (Z.of_nat outputSize - Z.of_nat inputSize =
    Z.of_nat outputSize' - Z.of_nat inputSize')%Z).
Proof.
  unfold sizeChangeLabel. cbv zeta.
  set (d := (Z.of_nat outputSize - Z.of_nat inputSize)%Z).
  set (d' := (Z.of_nat outputSize' - Z.of_nat inputSize')%Z).
  assert (Hd : (0 < d)%Z <-> inputSize < outputSize) by (unfold d; lia).
  assert (Hd0 : d = 0%Z <-> inputSize = outputSize) by (unfold d; lia).
  assert (Hdn : (d < 0)%Z <-> outputSize < inputSize) by (unfold d; lia).
  clearbody d d'.
  assert (Head : forall z,
            hd_error ((if (0 <? z)%Z then lit "+" ++ showInteger z
                       else showInteger z) ++ lit " bytes") =
            Some (if (0 <? z)%Z then 43%N
                  else if (z <? 0)%Z then 45%N else 48%N)).
  { intros z. destruct (0 <? z)%Z eqn:P; [reflexivity|].
    apply Z.ltb_ge in P. pose proof (showInteger_head P) as H.
    destruct (showInteger z); [discriminate | exact H]. }
  split; [|split; [|split]].
  - rewrite Head, <- Hd. destruct (0 <? d)%Z eqn:P.
    + apply Z.ltb_lt in P. tauto.
    + apply Z.ltb_ge in P. split; [|lia].
      destruct (d <? 0)%Z; discriminate.
  - rewrite Head, <- Hdn. destruct (0 <? d)%Z eqn:P.
    + apply Z.ltb_lt in P. split; [discriminate | lia].
    + destruct (d <? 0)%Z eqn:Q.
      * apply Z.ltb_lt in Q. tauto.
      * apply Z.ltb_ge in Q. split; [discriminate | lia].
  - rewrite <- Hd0. split.
    + intros H. apply (f_equal (@hd_error N)) in H. rewrite Head in H.
      destruct (0 <? d)%Z eqn:P; [discriminate|].
      destruct (d <? 0)%Z eqn:Q; [discriminate|].
      apply Z.ltb_ge in P, Q. lia.
    + intros ->. reflexivity.
  - intros H. pose proof (f_equal (@hd_error N) H) as Hh.
    rewrite !Head in Hh. apply app_inv_tail in H.
    destruct (0 <? d)%Z eqn:P, (0 <? d')%Z eqn:P'.
    + injection H as H. now apply showInteger_injective.
    + destruct (d' <? 0)%Z; discriminate.
    + destruct (d <? 0)%Z; discriminate.
    + now apply showInteger_injective.
Qed.

Lemma sizeChangeLabel_sign_witness :
  hd_error (sizeChangeLabel 12 7) = Some 45%N /\
  (Z.of_nat 7 - Z.of_nat 12 = Z.of_nat 0 - Z.of_nat 5)%Z.
Proof.
  destruct (sizeChangeLabel_sign 12 7 5 0) as (_ & H & _ & I). split.
  - apply H. lia.
  - apply I. reflexivity.
Defined.

(** ** The entry point and padding *)

Lemma sizeChangeLabel_change (inputSize outputSize inputSize' outputSize' : nat) :
  sizeChangeLabel inputSize outputSize = sizeChangeLabel inputSize' outputSize' ->
  (Z.of_nat outputSize - Z.of_nat inputSize =
   Z.of_nat outputSize' - Z.of_nat inputSize')%Z.
Proof.
  unfold sizeChangeLabel. cbv zeta.
  generalize (Z.of_nat outputSize - Z.of_nat inputSize)%Z.
  generalize (Z.of_nat outputSize' - Z.of_nat inputSize')%Z.
  intros d' d H. apply app_inv_tail in H.
  destruct (0 <? d)%Z eqn:P, (0 <? d')%Z eqn:P'.
  - injection H as H. now apply showInteger_injective.
  - apply Z.ltb_ge in P'. apply (f_equal (@hd_error N)) in H.
    rewrite (showInteger_head P') in H. destruct (d' <? 0)%Z; discriminate.
  - apply Z.ltb_ge in P. apply (f_equal (@hd_error N)) in H.
    rewrite (showInteger_head P) in H. destruct (d <? 0)%Z; discriminate.
  - now apply showInteger_injective.
Qed.

(** X16.  White space around the editor content changes nothing of a
    conversion but the size change it shows: the padded input gives the
    same early return or the same failure, or the same output text and
    the same result; the size change is then taken from the length of the
    padded input, and it is the one shown for the bare input only when
    there is no padding at all. *)
Theorem convertSVG_padding
  (parseFromString : str -> node)
  (querySelectorAll : str -> node -> option (list nat))
  (innerHTML serializeToString : node -> str) (before input after : str) :
  Forall (fun c => isWhiteSpace c = true) before ->
  Forall (fun c => isWhiteSpace c = true) after ->
  match convertSVG parseFromString querySelectorAll innerHTML
          serializeToString input with
  | Ready =>
      convertSVG parseFromString querySelectorAll innerHTML serializeToString
        (before ++ input ++ after) = Ready
  | Failed e =>
      convertSVG parseFromString querySelectorAll innerHTML serializeToString
        (before ++ input ++ after) = Failed e
  | Converted output result =>
      exists shown,
        convertSVG parseFromString querySelectorAll innerHTML
          serializeToString (before ++ input ++ after) =
        Converted (mkDisplay (outputValue output) shown) result /\
        shown =
          sizeChangeLabel (List.length (before ++ input ++ after))
            (List.length (editorContent (outputValue output))) /\
        sizeChange output =
          sizeChangeLabel (List.length input)
            (List.length (editorContent (outputValue output))) /\
        (shown = sizeChange output <-> before = [] /\ after = [])
  end.
Proof.
  intros Hb Ha. unfold convertSVG. rewrite trim_pad by assumption.
  destruct (truthy (trim input)); cbn [negb]; [|reflexivity].
  destruct (querySelector (lit "parsererror") (parseFromString (trim input)));
    [reflexivity|].
  destruct (querySelector (lit "svg") (parseFromString (trim input)))
    as [root|]; [|reflexivity].
  destruct (convertEmbeddedCSSToInline querySelectorAll innerHTML root)
    as [e|result]; [reflexivity|].
  cbv zeta. cbn [outputValue sizeChange]. eexists.
  split; [reflexivity|]. split; [reflexivity|]. split; [reflexivity|]. split.
  - intros H. apply sizeChangeLabel_change in H.
    rewrite !length_app in H.
    assert (L : List.length before = 0 /\ List.length after = 0) by lia.
    destruct L as [L1 L2]. apply length_zero_iff_nil in L1, L2. now split.
  - intros [-> ->]. now rewrite app_nil_r.
Qed.

Lemma convertSVG_padding_witness :
  exists shown,
    convertSVG (fun _ => Sample.styledRect) Sample.querySelectorAll
      Sample.innerHTML Sample.serializeToString
      ([newline; space] ++ lit "<svg/>" ++ [space]) =
    Converted (mkDisplay [] shown) Sample.styledRectResult /\
    shown = lit "-9 bytes" /\
    sizeChangeLabel 6 0 = lit "-6 bytes" /\
    (shown = lit "-6 bytes" <-> [newline; space] = [] /\ [space] = []).
Proof.
  apply (@convertSVG_padding (fun _ => Sample.styledRect)
           Sample.querySelectorAll Sample.innerHTML Sample.serializeToString
           [newline; space] (lit "<svg/>") [space]);
    repeat constructor.
Defined.
